(** * SpotFlow transaction analyzer: boundary recovery, message
      normalisation and aggregation

    A shallow embedding of [analyze_transactions.py].  Python text is a list
    of characters ([str]); the embedding is exact on ASCII text: whitespace
    is Python's [str.isspace] on code points below 256, case mapping and the
    regular-expression classes [\w], [\d], [A-Z] are the ASCII ones.
    Dictionaries and counters are finite maps, sets are finite sets, and the
    two library parsers the script calls (the CSV reader and
    [datetime.fromisoformat]) are inputs of the model. *)

From Stdlib Require Import Ascii String Sorted Permutation DecimalString.
From stdpp Require Import gmap strings list fin_maps.

Local Open Scope nat_scope.

Abbreviation str := (list ascii).

(** A Python string literal. *)
Definition py (s : string) : str := list_ascii_of_string s.

(** ** Characters *)

Module Char.

Definition code (c : ascii) : nat := nat_of_ascii c.

Definition between (lo hi : nat) (c : ascii) : bool :=
  (lo <=? code c) && (code c <=? hi).

(** [str.isspace] and the regular-expression class [\s]. *)
Definition is_space (c : ascii) : bool :=
  between 9 13 c || between 28 32 c || (code c =? 133) || (code c =? 160).

Definition is_upper (c : ascii) : bool := between 65 90 c.
Definition is_lower (c : ascii) : bool := between 97 122 c.
Definition is_alpha (c : ascii) : bool := is_upper c || is_lower c.
Definition is_digit (c : ascii) : bool := between 48 57 c.

(** The regular-expression class [\w], on ASCII; Python also counts the
    Latin-1 letters, superscript digits and fractions ([latin1_alnum]). *)
Definition is_word (c : ascii) : bool :=
  is_alpha c || is_digit c || (code c =? 95).

(** [str.lower] and [str.upper] on one character, for the ASCII letters;
    Python also maps the Latin-1 letters ([latin1_alnum]), some of them to
    text outside Latin-1 or to two letters. *)
Definition lower (c : ascii) : ascii :=
  if is_upper c then ascii_of_nat (code c + 32) else c.

Definition upper (c : ascii) : ascii :=
  if is_lower c then ascii_of_nat (code c - 32) else c.

Definition eqb (a b : ascii) : bool := Ascii.eqb a b.

Definition dquote : ascii := ascii_of_nat 34.
Definition squote : ascii := ascii_of_nat 39.
Definition comma : ascii := ascii_of_nat 44.
Definition newline : ascii := ascii_of_nat 10.
Definition cr : ascii := ascii_of_nat 13.
Definition nbsp : ascii := ascii_of_nat 160.
Definition space : ascii := ascii_of_nat 32.
Definition underscore : ascii := ascii_of_nat 95.
Definition at_sign : ascii := ascii_of_nat 64.

End Char.

(** ** The [str] methods the script uses *)

Module Str.

Fixpoint eqb (a b : str) : bool :=
  match a, b with
  | [], [] => true
  | x :: a', y :: b' => Char.eqb x y && eqb a' b'
  | _, _ => false
  end.

(** [s in {...}] for a set or list of strings. *)
Definition mem (s : str) (l : list str) : bool := existsb (eqb s) l.

(** [c in s] for a single character. *)
Definition contains (c : ascii) (s : str) : bool := existsb (Char.eqb c) s.

Fixpoint take_while (p : ascii -> bool) (s : str) : str :=
  match s with
  | [] => []
  | c :: s' => if p c then c :: take_while p s' else []
  end.

Fixpoint drop_while (p : ascii -> bool) (s : str) : str :=
  match s with
  | [] => []
  | c :: s' => if p c then drop_while p s' else s
  end.

Definition lstrip_by (p : ascii -> bool) (s : str) : str := drop_while p s.
Definition rstrip_by (p : ascii -> bool) (s : str) : str :=
  rev (drop_while p (rev s)).
Definition strip_by (p : ascii -> bool) (s : str) : str :=
  rstrip_by p (lstrip_by p s).

(** [s.strip()] *)
Definition strip (s : str) : str := strip_by Char.is_space s.

(** [s.strip(c)] for a one-character argument. *)
Definition strip_char (c : ascii) (s : str) : str := strip_by (Char.eqb c) s.

Definition lower (s : str) : str := map Char.lower s.
Definition upper (s : str) : str := map Char.upper s.

(** [s.title()]: a letter is upper-cased unless the character before it
    is a letter, in which case it is lower-cased. *)
Fixpoint title_go (prev_cased : bool) (s : str) : str :=
  match s with
  | [] => []
  | c :: s' =>
      (if prev_cased then Char.lower c else Char.upper c)
        :: title_go (Char.is_alpha c) s'
  end.
Definition title (s : str) : str := title_go false s.

Fixpoint startswith (p s : str) : bool :=
  match p, s with
  | [], _ => true
  | x :: p', y :: s' => Char.eqb x y && startswith p' s'
  | _, [] => false
  end.

Definition endswith (p s : str) : bool := startswith (rev p) (rev s).

(** [s.find(sub)], with [None] for Python's [-1]. *)
Fixpoint find_from (sub s : str) (pos : nat) : option nat :=
  if startswith sub s then Some pos
  else match s with
       | [] => None
       | _ :: s' => find_from sub s' (S pos)
       end.
Definition find (sub s : str) : option nat := find_from sub s 0.

(** [s.replace(old, new)] for a non-empty [old]: left to right, without
    overlap.  [skip] counts the characters of a match still to drop. *)
Fixpoint replace_go (old new : str) (skip : nat) (s : str) : str :=
  match s with
  | [] => []
  | c :: s' =>
      match skip with
      | S k => replace_go old new k s'
      | 0 =>
          if startswith old s
          then new ++ replace_go old new (length old - 1) s'
          else c :: replace_go old new 0 s'
      end
  end.
Definition replace (old new s : str) : str := replace_go old new 0 s.

(** [s.split(c, 1)[0]] for a one-character separator. *)
Definition split_head (c : ascii) (s : str) : str :=
  take_while (fun x => negb (Char.eqb c x)) s.

(** [sep.join(parts)] *)
Fixpoint join (sep : str) (parts : list str) : str :=
  match parts with
  | [] => []
  | [p] => p
  | p :: rest => p ++ sep ++ join sep rest
  end.

Definition nonempty (s : str) : bool :=
  match s with
  | [] => false
  | _ :: _ => true
  end.

(** [s[1:-1]] *)
Definition inner (s : str) : str := drop 1 (take (length s - 1) s).

(** [s[:1].upper() + s[1:]] *)
Definition capitalize_first (s : str) : str :=
  match s with
  | [] => []
  | c :: s' => Char.upper c :: s'
  end.

End Str.

(** ** The regular expressions of the script, as scanners *)

Module Re.

(** [ISO_PATTERN.match(s)] for [^\d{4}-\d{2}-\d{2}T]. *)
Definition iso_match (s : str) : bool :=
  match s with
  | y1 :: y2 :: y3 :: y4 :: h1 :: m1 :: m2 :: h2 :: d1 :: d2 :: t :: _ =>
      Char.is_digit y1 && Char.is_digit y2 && Char.is_digit y3
      && Char.is_digit y4 && Char.eqb h1 "-" && Char.is_digit m1
      && Char.is_digit m2 && Char.eqb h2 "-" && Char.is_digit d1
      && Char.is_digit d2 && Char.eqb t "T"
  | _ => false
  end.

(** [re.sub] of a whitespace run [\s+] by one space: every maximal run of
    whitespace becomes one space. *)
Fixpoint collapse_go (in_run : bool) (s : str) : str :=
  match s with
  | [] => []
  | c :: s' =>
      if Char.is_space c
      then (if in_run then collapse_go true s'
            else Char.space :: collapse_go true s')
      else c :: collapse_go false s'
  end.
Definition collapse_ws (s : str) : str := collapse_go false s.

(** Length of a match of the stray-fragment pattern (a double quote,
    whitespace, a comma) at the head of [s], if there is one. *)
Definition stray_at (s : str) : option nat :=
  match s with
  | c :: s' =>
      if Char.eqb c Char.dquote then
        let ws := Str.take_while Char.is_space s' in
        match drop (length ws) s' with
        | d :: _ =>
            if Char.eqb d Char.comma then Some (2 + length ws) else None
        | [] => None
        end
      else None
  | [] => None
  end.

(** [re.split] on that pattern with [maxsplit=1]: the text before the
    leftmost match and, when there is a match, the text after it. *)
Fixpoint stray_split (s : str) : str * option str :=
  match stray_at s with
  | Some n => ([], Some (drop n s))
  | None =>
      match s with
      | [] => ([], None)
      | c :: s' => let '(h, t) := stray_split s' in (c :: h, t)
      end
  end.

(** The class of trailing characters: whitespace, comma, semicolon, colon,
    full stop, double quote and hyphen. *)
Definition is_trailing_punct (c : ascii) : bool :=
  Char.is_space c || Str.contains c (py ",;:.-") || Char.eqb c Char.dquote.

(** [re.sub] deleting a run of that class at the end of [s]. *)
Definition strip_trailing_punct (s : str) : str :=
  Str.rstrip_by is_trailing_punct s.

Definition head_is_word (s : str) : bool :=
  match s with
  | c :: _ => Char.is_word c
  | [] => false
  end.

(** [re.finditer] for [\b[A-Z]{2,}\b], the matched texts in order.
    [prev_word] tells whether the character before the position is a word
    character; [skip] counts the characters of a match still to pass. *)
Fixpoint upper_runs_go (prev_word : bool) (skip : nat) (s : str)
  : list str :=
  match s with
  | [] => []
  | c :: s' =>
      match skip with
      | S k => upper_runs_go (Char.is_word c) k s'
      | 0 =>
          let run := Str.take_while Char.is_upper s in
          if negb prev_word && (2 <=? length run)
             && negb (head_is_word (drop (length run) s))
          then run :: upper_runs_go (Char.is_word c) (length run - 1) s'
          else upper_runs_go (Char.is_word c) 0 s'
      end
  end.
Definition upper_runs (s : str) : list str := upper_runs_go false 0 s.

(** [re.sub] of [\b tok \b] by [rep], for a token made of letters. *)
Fixpoint sub_word_go (tok rep : str) (prev_word : bool) (skip : nat)
  (s : str) : str :=
  match s with
  | [] => []
  | c :: s' =>
      match skip with
      | S k => sub_word_go tok rep (Char.is_word c) k s'
      | 0 =>
          if xorb prev_word (Char.is_word c) && Str.startswith tok s
             && xorb (Char.is_word (List.last tok c))
                  (head_is_word (drop (length tok) s))
          then rep ++ sub_word_go tok rep (Char.is_word c) (length tok - 1) s'
          else c :: sub_word_go tok rep (Char.is_word c) 0 s'
      end
  end.
Definition sub_word (tok rep s : str) : str := sub_word_go tok rep false 0 s.

End Re.

(** ** Which texts the built-in [float] accepts *)

Module Float.

(** Whitespace that [float] trims. *)
Definition is_space (c : ascii) : bool :=
  Char.between 9 13 c || (Char.code c =? 32) || (Char.code c =? 133)
  || (Char.code c =? 160).

(** Drops the longest prefix of digits with single underscores between
    digits; [None] when [s] does not start with a digit. *)
Fixpoint eat_digitpart (s : str) : option str :=
  match s with
  | c :: s' =>
      if Char.is_digit c then
        match s' with
        | u :: s'' =>
            if Char.eqb u Char.underscore then
              match eat_digitpart s'' with
              | Some r => Some r
              | None => Some s'
              end
            else
              match eat_digitpart s' with
              | Some r => Some r
              | None => Some s'
              end
        | [] => Some []
        end
      else None
  | [] => None
  end.

Definition drop_sign (s : str) : str :=
  match s with
  | c :: s' => if Char.eqb c "+" || Char.eqb c "-" then s' else s
  | [] => []
  end.

(** What may follow the mantissa: nothing, or [e] or [E], an optional
    sign and a digit part. *)
Definition exponent_ok (s : str) : bool :=
  match s with
  | [] => true
  | e :: s' =>
      if Char.eqb e "e" || Char.eqb e "E" then
        match eat_digitpart (drop_sign s') with
        | Some [] => true
        | _ => false
        end
      else false
  end.

(** [float(s)] does not raise [ValueError]. *)
Definition accepts (s : str) : bool :=
  let s := drop_sign (Str.strip_by is_space s) in
  if Str.mem (Str.lower s) [py "inf"; py "infinity"; py "nan"] then true
  else
    match eat_digitpart s with
    | Some r =>
        match r with
        | d :: r' =>
            if Char.eqb d "." then
              match eat_digitpart r' with
              | Some r'' => exponent_ok r''
              | None => exponent_ok r'
              end
            else exponent_ok r
        | [] => true
        end
    | None =>
        match s with
        | d :: r' =>
            if Char.eqb d "." then
              match eat_digitpart r' with
              | Some r'' => exponent_ok r''
              | None => false
              end
            else false
        | [] => false
        end
    end.

End Float.

(** ** Vocabularies and sentinels *)

Definition REGIONS : list str :=
  [py "Nigeria"; py "Ghana"; py "South Africa"; py "Kenya"; py "Tanzania"].
Definition REGION_SET : gset str := list_to_set REGIONS.
Definition PROVIDERS : gset str :=
  list_to_set [py "cellulant"; py "hubtel"; py "interswitch"; py "ozow";
               py "paystack"; py "spotflow_accounts"; py "tembo_plus"].
Definition STATUSES : gset str :=
  list_to_set [py "successful"; py "failed"; py "abandoned"; py "cancelled";
               py "inprogress"].
Definition CHANNELS : gset str :=
  list_to_set [py "card"; py "bank_transfer"; py "eft"; py "mobile_money"].
Definition DEFAULT_TZ_SUFFIX : str := py "+00:00".
Definition DEFAULT_DATE_PLACEHOLDER : str := py "<missing-date>".
Definition BLANK_MESSAGE : str := py "<blank>".

(** [x in S] for a set of strings. *)
Definition in_set (x : str) (S : gset str) : bool := bool_decide (x ∈ S).

(** ** Message normaliser *)

(** Lines 62-66: one layer of wrapping double quotes is removed, then the
    double quotes left at either end, then the whitespace around. *)
Definition unquote (first_line : str) : str :=
  let first_line :=
    if Str.startswith [Char.dquote] first_line
       && Str.endswith [Char.dquote] first_line
       && (1 <? length first_line)
    then Str.strip (Str.inner first_line)
    else first_line in
  Str.strip (Str.strip_char Char.dquote first_line).

(** Lines 57-88 of [_normalise_message]: the text that reaches the
    OTP and acronym steps, or [None] where the function returns the blank
    sentinel. *)
Definition cleanup (message : str) : option str :=
  let cleaned :=
    Str.strip (Str.replace [Char.cr; Char.newline] [Char.newline] message) in
  if negb (Str.nonempty cleaned)
     || Str.mem cleaned [py ","; py ",,"; [Char.dquote; Char.dquote]; py "''"]
  then None
  else
    let first_line := Str.strip (Str.split_head Char.newline cleaned) in
    let first_line := unquote first_line in
    if negb (Str.nonempty first_line)
       || Str.mem first_line [py ","; py ",,"; py "."; py "-"]
    then None
    else
      let first_line := Str.replace [Char.nbsp] (py " ") first_line in
      let first_line := Str.strip (Re.collapse_ws first_line) in
      let stray_split := Re.stray_split first_line in
      let first_line :=
        if bool_decide (is_Some (snd stray_split))
           && Str.nonempty (Str.strip (fst stray_split))
        then Str.strip (fst stray_split)
        else first_line in
      let first_line := Str.strip (Re.strip_trailing_punct first_line) in
      let first_line :=
        if Str.contains Char.underscore first_line then
          let candidate :=
            Str.strip (Str.replace (py "_") (py " ") first_line) in
          if Str.nonempty candidate then
            if Str.eqb (Str.upper first_line) first_line
            then Str.title candidate
            else candidate
          else first_line
        else first_line in
      Some first_line.

Definition otp_patterns : list str :=
  [py "kindly enter the otp"; py "please enter the otp";
   py "please input the otp"].

Definition OTP_MESSAGE : str := py "OTP verification required".

(** The set of acronyms of lines 101-105, as a list without duplicates.
    The script iterates over a set; [sub_tokens_order] shows that the order
    does not matter. *)
Definition uppercase_tokens (first_line : str) : list str :=
  remove_dups (filter (fun m => length m <=? 4) (Re.upper_runs first_line)).

Definition sub_tokens (tokens : list str) (first_line_lower : str) : str :=
  fold_left (fun acc token => Re.sub_word (Str.lower token) token acc)
            tokens first_line_lower.

(** Lines 90-114. *)
Definition finish (first_line : str) : str :=
  let first_line_lower := Str.lower first_line in
  if existsb (fun pattern => Str.startswith pattern first_line_lower)
       otp_patterns
  then OTP_MESSAGE
  else
    Str.capitalize_first
      (sub_tokens (uppercase_tokens first_line) first_line_lower).

Definition _normalise_message (message : option str) : str :=
  match message with
  | None => BLANK_MESSAGE
  | Some message =>
      match cleanup message with
      | None => BLANK_MESSAGE
      | Some first_line => finish first_line
      end
  end.

(** [normalize] of the specification: the normaliser on a string. *)
Definition normalize (s : str) : str := _normalise_message (Some s).

(** ** Boundary scanner and field extractor *)

(** The tuple [extract_transactions] yields. *)
Record candidate := Candidate {
  cand_provider : str;
  cand_region : str;
  cand_status : str;
  cand_channel : str;
  cand_message : str;
  cand_payment_date : str;
  cand_customer : str
}.

(** One turn of the outer loop that found a boundary: either the candidate
    it yields and the offset the scan resumes from, or a candidate that ran
    into the end of the row. *)
Inductive attempt :=
| Emitted (provider_idx : nat) (c : candidate) (idx : nat)
| Incomplete (provider_idx : nat).

Definition boundary_of (a : attempt) : nat :=
  match a with
  | Emitted provider_idx _ _ => provider_idx
  | Incomplete provider_idx => provider_idx
  end.

(** The value of [i] after the turn. *)
Definition resume_of (a : attempt) : nat :=
  match a with
  | Emitted _ _ idx => idx
  | Incomplete provider_idx => provider_idx + 1
  end.

Definition yielded (a : attempt) : option candidate :=
  match a with
  | Emitted _ c _ => Some c
  | Incomplete _ => None
  end.

(** The test of line 122 at [idx]. *)
Definition is_boundary (row : list str) (idx : nat) : bool :=
  match row !! idx, row !! (idx + 1) with
  | Some provider, Some region =>
      in_set (Str.lower (Str.strip provider)) PROVIDERS
      && in_set (Str.strip region) REGION_SET
  | _, _ => false
  end.

(** The [for] loop of lines 119-123, [count] indices from [idx]. *)
Fixpoint find_provider_loop (row : list str) (idx count : nat) : option nat :=
  match count with
  | 0 => None
  | S count' =>
      if is_boundary row idx then Some idx
      else find_provider_loop row (idx + 1) count'
  end.

Definition _find_next_provider_index (row : list str) (start : nat)
  : option nat :=
  find_provider_loop row start (length row - 1 - start).

(** The [while] loop of lines 140-144; [fuel] is the number of cells from
    [idx] to the end of the row. *)
Fixpoint scan_customer (row : list str) (idx fuel : nat)
  (customer_parts : list str) : nat * list str :=
  match fuel, row !! idx with
  | S fuel', Some cell =>
      if in_set (Str.lower (Str.strip cell)) STATUSES
      then (idx, customer_parts)
      else
        let token := Str.strip cell in
        scan_customer row (idx + 1) fuel'
          (if Str.nonempty token then customer_parts ++ [token]
           else customer_parts)
  | _, _ => (idx, customer_parts)
  end.

(** The [while] loop of lines 151-152. *)
Fixpoint scan_channel (row : list str) (idx fuel : nat) : nat :=
  match fuel, row !! idx with
  | S fuel', Some cell =>
      if in_set (Str.lower (Str.strip cell)) CHANNELS then idx
      else scan_channel row (idx + 1) fuel'
  | _, _ => idx
  end.

(** Lines 189-197. *)
Definition _is_number (token : str) : bool :=
  if negb (Str.nonempty token) then false
  else Float.accepts (Str.replace (py ",") [] token).

(** The [while] loop of lines 173-201: the message parts, the payment date
    and the index after the loop. *)
Fixpoint scan_message (row : list str) (idx fuel : nat)
  (message_parts : list str) : list str * str * nat :=
  match fuel, row !! idx with
  | S fuel', Some raw =>
      let stripped := Str.strip raw in
      if Re.iso_match stripped then (message_parts, stripped, idx + 1)
      else
        let lower := Str.lower stripped in
        let lookahead := _find_next_provider_index row idx in
        if bool_decide (lookahead = Some idx)
        then (message_parts, [], idx)
        else if in_set lower PROVIDERS || in_set stripped REGION_SET
        then (message_parts, [], idx)
        else if Str.contains Char.at_sign stripped || in_set lower STATUSES
                || in_set lower CHANNELS
        then (message_parts, [], idx)
        else
          let next_token :=
            match row !! (idx + 1) with
            | Some cell => Str.strip cell
            | None => []
            end in
          if Str.nonempty next_token && _is_number next_token
          then (message_parts, [], idx)
          else scan_message row (idx + 1) fuel' (message_parts ++ [raw])
  | _, _ => (message_parts, [], idx)
  end.

(** Lines 164-171. *)
Definition pick_customer (customer_parts : list str) : str :=
  let customer :=
    match List.find (Str.contains Char.at_sign) customer_parts with
    | Some token => token
    | None => []
    end in
  let customer :=
    if negb (Str.nonempty customer) then
      match customer_parts with
      | first :: _ => first
      | [] => customer
      end
    else customer in
  Str.strip_char Char.dquote (Str.strip customer).

(** One of the two [for] loops of lines 206-219 over the markers of
    [tokens], in the order the set yields them. *)
Fixpoint cut_at_marker (tokens : list str) (message lower_message : str)
  : str * str :=
  match tokens with
  | [] => (message, lower_message)
  | token :: rest =>
      match Str.find (Char.comma :: token) lower_message with
      | Some pos =>
          let message := take pos message in
          (message, Str.lower message)
      | None => cut_at_marker rest message lower_message
      end
  end.

Section Extractor.

(** The orders in which the two sets [PROVIDERS] and [REGION_SET] are
    iterated; Python leaves them unspecified. *)
Variables provider_iter region_iter : list str.

(** Lines 205-219: the loop over the providers, then the loop over the
    regions on what the first left. *)
Definition truncate_markers (message : str) : str :=
  let lower_message := Str.lower message in
  let '(message, lower_message) :=
    cut_at_marker provider_iter message lower_message in
  let '(message, lower_message) :=
    cut_at_marker (map Str.lower region_iter) message lower_message in
  message.

(** Lines 203-221, from the message parts to the yielded message. *)
Definition assemble_message (message_parts : list str) : str :=
  let message := Str.strip (Str.join (py ",") message_parts) in
  let message :=
    if Str.nonempty message then truncate_markers message else message in
  if Str.startswith [Char.dquote] message
     && Str.endswith [Char.dquote] message
  then Str.inner message
  else message.

(** The body of the outer loop, lines 132-225, at scan position [i]:
    [None] when there is no boundary left. *)
Definition extract_step (row : list str) (default_dt : str) (i : nat)
  : option attempt :=
  let n := length row in
  match _find_next_provider_index row i with
  | None => None
  | Some provider_idx =>
      let provider := Str.lower (Str.strip (row !!! provider_idx)) in
      let region := Str.strip (row !!! (provider_idx + 1)) in
      let idx := provider_idx + 2 in
      let '(idx, customer_parts) := scan_customer row idx (n - idx) [] in
      if n <=? idx then Some (Incomplete provider_idx)
      else
        let status := Str.lower (Str.strip (row !!! idx)) in
        let idx := idx + 1 in
        let idx := scan_channel row idx (n - idx) in
        if n <=? idx then Some (Incomplete provider_idx)
        else
          let channel := Str.lower (Str.strip (row !!! idx)) in
          let idx := idx + 1 in
          let idx :=
            if bool_decide (idx < n)
               && Str.mem (Str.lower (Str.strip (row !!! idx)))
                    [py "live"; py "test"]
            then idx + 1 else idx in
          let customer := pick_customer customer_parts in
          let '(message_parts, payment_date, idx) :=
            scan_message row idx (n - idx) [] in
          let message := assemble_message message_parts in
          let payment_date :=
            if Str.nonempty payment_date then payment_date
            else default_dt in
          Some (Emitted provider_idx
                  (Candidate provider region status channel message
                     payment_date customer)
                  idx)
  end.

(** The outer [while] loop from scan position [i], as the list of its
    turns; [None] when [fuel] turns were not enough. *)
Fixpoint extract_loop (fuel : nat) (row : list str) (default_dt : str)
  (i : nat) : option (list attempt) :=
  if length row <=? i then Some []
  else
    match fuel with
    | 0 => None
    | S fuel' =>
        match extract_step row default_dt i with
        | None => Some []
        | Some a =>
            cons a <$> extract_loop fuel' row default_dt (resume_of a)
        end
    end.

(** The turns of the scan of a row.  A row of [n] cells needs at most [n]
    turns ([extract_trace_total]). *)
Definition extract_trace (row : list str) (default_dt : str)
  : option (list attempt) :=
  extract_loop (length row) row default_dt 0.

(** The scan positions: the values [i] takes at the head of the outer
    loop, from [i] on. *)
Fixpoint scan_positions (i : nat) (turns : list attempt) : list nat :=
  match turns with
  | [] => [i]
  | a :: turns' => i :: scan_positions (resume_of a) turns'
  end.

(** Every turn starting at scan position [i] finds its boundary at [i]
    or later and resumes strictly after that boundary, one past it when
    the candidate is incomplete. *)
Fixpoint forward_progress (row : list str) (i : nat)
  (turns : list attempt) : Prop :=
  match turns with
  | [] => True
  | a :: turns' =>
      i < length row
      ∧ i ≤ boundary_of a
      ∧ boundary_of a < resume_of a
      ∧ resume_of a ≤ length row
      ∧ (yielded a = None → resume_of a = boundary_of a + 1)
      ∧ forward_progress row (resume_of a) turns'
  end.

(** The candidates the generator yields, in order. *)
Definition extract_transactions (row : list str) (default_dt : str)
  : list candidate :=
  omap yielded (default [] (extract_trace row default_dt)).

End Extractor.

(** A candidate whose four vocabulary fields are in their closed sets. *)
Definition well_formed (c : candidate) : Prop :=
  cand_provider c ∈ PROVIDERS ∧ cand_region c ∈ REGION_SET
  ∧ cand_status c ∈ STATUSES ∧ cand_channel c ∈ CHANNELS.

(** *** The loop body in two halves

    The scan of lines 132-201 does not depend on the iteration orders nor on
    the default date; [scan_step] is that half of [extract_step], and
    [attempt_of] the other half, lines 203-224. *)

Record scanned := Scanned {
  sc_provider : str;
  sc_region : str;
  sc_status : str;
  sc_channel : str;
  sc_customer : str;
  sc_message_parts : list str;
  sc_payment_date : str;
  sc_idx : nat
}.

Definition scan_step (row : list str) (i : nat)
  : option (nat * option scanned) :=
  let n := length row in
  match _find_next_provider_index row i with
  | None => None
  | Some provider_idx =>
      let provider := Str.lower (Str.strip (row !!! provider_idx)) in
      let region := Str.strip (row !!! (provider_idx + 1)) in
      let idx := provider_idx + 2 in
      let '(idx, customer_parts) := scan_customer row idx (n - idx) [] in
      if n <=? idx then Some (provider_idx, None)
      else
        let status := Str.lower (Str.strip (row !!! idx)) in
        let idx := idx + 1 in
        let idx := scan_channel row idx (n - idx) in
        if n <=? idx then Some (provider_idx, None)
        else
          let channel := Str.lower (Str.strip (row !!! idx)) in
          let idx := idx + 1 in
          let idx :=
            if bool_decide (idx < n)
               && Str.mem (Str.lower (Str.strip (row !!! idx)))
                    [py "live"; py "test"]
            then idx + 1 else idx in
          let customer := pick_customer customer_parts in
          let '(message_parts, payment_date, idx) :=
            scan_message row idx (n - idx) [] in
          Some (provider_idx,
                Some (Scanned provider region status channel customer
                        message_parts payment_date idx))
  end.

Definition attempt_of (provider_iter region_iter : list str)
  (default_dt : str) (s : nat * option scanned) : attempt :=
  match s with
  | (provider_idx, None) => Incomplete provider_idx
  | (provider_idx, Some sc) =>
      Emitted provider_idx
        (Candidate (sc_provider sc) (sc_region sc) (sc_status sc)
           (sc_channel sc)
           (assemble_message provider_iter region_iter (sc_message_parts sc))
           (if Str.nonempty (sc_payment_date sc) then sc_payment_date sc
            else default_dt)
           (sc_customer sc))
        (sc_idx sc)
  end.

(** ** Aggregator *)

(** A [Counter]: a missing key reads as zero. *)
Definition counter_get (c : gmap str nat) (key : str) : nat :=
  default 0 (c !! key).

(** [c[key] += 1] *)
Definition counter_incr (key : str) (c : gmap str nat) : gmap str nat :=
  <[key := counter_get c key + 1]> c.

(** A [defaultdict(Counter)]: [m[k1][k2]] and [m[k1][k2] += 1]. *)
Definition nested_get (m : gmap str (gmap str nat)) (k1 k2 : str) : nat :=
  counter_get (default ∅ (m !! k1)) k2.

Definition nested_incr (k1 k2 : str) (m : gmap str (gmap str nat))
  : gmap str (gmap str nat) :=
  <[k1 := counter_incr k2 (default ∅ (m !! k1))]> m.

Module ProviderSummary.
Record t := Build {
  status_counts : gmap str nat;
  channel_counts : gmap str nat;
  messages_by_status : gmap str (gmap str nat)
}.
Definition empty : t := Build ∅ ∅ ∅.

(** The three increments of lines 281-283 and 286-288. *)
Definition bump (status channel norm_message : str) (p : t) : t :=
  Build (counter_incr status (status_counts p))
        (counter_incr channel (channel_counts p))
        (nested_incr status norm_message (messages_by_status p)).
End ProviderSummary.

Module RegionSummary.
Record t (datetime : Type) := Build {
  times : list datetime;
  status_counts : gmap str nat;
  channel_counts : gmap str nat;
  messages_by_status : gmap str (gmap str nat);
  providers : gmap str ProviderSummary.t
}.
Arguments Build {datetime}.
Arguments times {datetime}.
Arguments status_counts {datetime}.
Arguments channel_counts {datetime}.
Arguments messages_by_status {datetime}.
Arguments providers {datetime}.

Definition empty {datetime} : t datetime := Build [] ∅ ∅ ∅ ∅.

(** [r.times.append(dt)] *)
Definition append_time {datetime} (dt : datetime) (r : t datetime)
  : t datetime :=
  Build (times r ++ [dt]) (status_counts r) (channel_counts r)
        (messages_by_status r) (providers r).

(** The three increments of lines 272-274 and 276-278. *)
Definition bump {datetime} (status channel norm_message : str)
  (r : t datetime) : t datetime :=
  Build (times r)
        (counter_incr status (status_counts r))
        (counter_incr channel (channel_counts r))
        (nested_incr status norm_message (messages_by_status r))
        (providers r).

(** [r.providers[provider]] followed by its three increments. *)
Definition bump_provider {datetime} (provider status channel
  norm_message : str) (r : t datetime) : t datetime :=
  Build (times r) (status_counts r) (channel_counts r)
        (messages_by_status r)
        (<[provider :=
             ProviderSummary.bump status channel norm_message
               (default ProviderSummary.empty (providers r !! provider))]>
           (providers r)).
End RegionSummary.

(** An accepted record, the tuple appended to [transactions]. *)
Record transaction (datetime : Type) := Transaction {
  tx_provider : str;
  tx_region : str;
  tx_status : str;
  tx_channel : str;
  tx_message : str;
  tx_dt : option datetime;
  tx_customer : str
}.
Arguments Transaction {datetime}.
Arguments tx_provider {datetime}.
Arguments tx_region {datetime}.
Arguments tx_status {datetime}.
Arguments tx_channel {datetime}.
Arguments tx_message {datetime}.
Arguments tx_dt {datetime}.
Arguments tx_customer {datetime}.

Definition AGGREGATE : str := py "Aggregate".

Section Aggregator.

Variable datetime : Type.
(** [datetime.fromisoformat], with [None] for [ValueError]. *)
Variable fromisoformat : str -> option datetime.
Variables provider_iter region_iter : list str.

(** The [defaultdict(RegionSummary)]: region name to summary object.  An
    object is reached through its key, so two names for one key denote
    one object. *)
Local Abbreviation summaries_t := (gmap str (RegionSummary.t datetime)).

(** [summaries[key]] as a read. *)
Definition summary_of (summaries : summaries_t) (key : str)
  : RegionSummary.t datetime :=
  default RegionSummary.empty (summaries !! key).

(** A mutation of the object [summaries[key]], created on first
    access. *)
Definition modify (key : str)
  (f : RegionSummary.t datetime -> RegionSummary.t datetime)
  (summaries : summaries_t) : summaries_t :=
  <[key := f (summary_of summaries key)]> summaries.

Definition state : Type := list (transaction datetime) * summaries_t.

(** Lines 255-261: [None] where the loop continues with the next
    candidate, otherwise the value of [dt]. *)
Definition resolve_timestamp (payment_date : str)
  : option (option datetime) :=
  match fromisoformat (Str.replace (py "Z") DEFAULT_TZ_SUFFIX payment_date)
  with
  | Some dt => Some (Some dt)
  | None =>
      if Str.eqb payment_date DEFAULT_DATE_PLACEHOLDER then Some None
      else None
  end.

(** Lines 267-288, the writes for an accepted record. *)
Definition record (provider region status channel norm_message : str)
  (dt : option datetime) (summaries : summaries_t) : summaries_t :=
  let summaries := modify region id summaries in
  let summaries :=
    match dt with
    | Some dt =>
        modify AGGREGATE (RegionSummary.append_time dt)
          (modify region (RegionSummary.append_time dt) summaries)
    | None => summaries
    end in
  let summaries :=
    modify region (RegionSummary.bump status channel norm_message)
      summaries in
  let summaries :=
    modify AGGREGATE (RegionSummary.bump status channel norm_message)
      summaries in
  let summaries :=
    modify region
      (RegionSummary.bump_provider provider status channel norm_message)
      summaries in
  modify AGGREGATE
    (RegionSummary.bump_provider provider status channel norm_message)
    summaries.

(** The body of the inner loop of [parse_csv], lines 248-288, for one
    candidate. *)
Definition ingest (st : state) (c : candidate) : state :=
  let '(transactions, summaries) := st in
  let region := cand_region c in
  let status := cand_status c in
  if negb (in_set region REGION_SET) && negb (Str.eqb region AGGREGATE)
  then st
  else if negb (in_set status STATUSES) then st
  else
    let channel :=
      if negb (in_set (cand_channel c) CHANNELS) then py "other"
      else cand_channel c in
    match resolve_timestamp (cand_payment_date c) with
    | None => st
    | Some dt =>
        let norm_message := _normalise_message (Some (cand_message c)) in
        let key :=
          Transaction (cand_provider c) region status channel norm_message
            dt (cand_customer c) in
        (transactions ++ [key],
         record (cand_provider c) region status channel norm_message dt
           summaries)
    end.

Definition ingest_all (st : state) (cs : list candidate) : state :=
  fold_left ingest cs st.

(** Lines 238-242. *)
Definition default_dt_of (header : list str) : str :=
  match List.find (fun col => Re.iso_match (Str.strip col)) header with
  | Some col => if Str.nonempty col then Str.strip col
                else DEFAULT_DATE_PLACEHOLDER
  | None => DEFAULT_DATE_PLACEHOLDER
  end.

(** Lines 244-247 for one row. *)
Definition ingest_row (default_dt : str) (st : state) (row : list str)
  : state :=
  match row with
  | [] => st
  | _ :: _ =>
      ingest_all st
        (extract_transactions provider_iter region_iter row default_dt)
  end.

Definition initial : state := ([], {[ AGGREGATE := RegionSummary.empty ]}).

(** [parse_csv] on the rows the CSV reader produces; [None] stands for the
    [ValueError] of an empty file. *)
Definition parse_csv (rows : list (list str)) : option state :=
  match rows with
  | [] => None
  | header :: rows =>
      Some (fold_left (ingest_row (default_dt_of header)) rows initial)
  end.

(** *** Reading the summaries *)

Definition status_count (summaries : summaries_t) (region key : str)
  : nat :=
  counter_get (RegionSummary.status_counts (summary_of summaries region))
    key.

Definition channel_count (summaries : summaries_t) (region key : str)
  : nat :=
  counter_get (RegionSummary.channel_counts (summary_of summaries region))
    key.

Definition message_count (summaries : summaries_t)
  (region status norm_message : str) : nat :=
  nested_get (RegionSummary.messages_by_status (summary_of summaries region))
    status norm_message.

Definition times_of (summaries : summaries_t) (region : str)
  : list datetime :=
  RegionSummary.times (summary_of summaries region).

Definition provider_of (summaries : summaries_t) (region provider : str)
  : ProviderSummary.t :=
  default ProviderSummary.empty
    (RegionSummary.providers (summary_of summaries region) !! provider).

Definition provider_status_count (summaries : summaries_t)
  (region provider key : str) : nat :=
  counter_get
    (ProviderSummary.status_counts (provider_of summaries region provider))
    key.

Definition provider_channel_count (summaries : summaries_t)
  (region provider key : str) : nat :=
  counter_get
    (ProviderSummary.channel_counts (provider_of summaries region provider))
    key.

Definition provider_message_count (summaries : summaries_t)
  (region provider status norm_message : str) : nat :=
  nested_get
    (ProviderSummary.messages_by_status
       (provider_of summaries region provider))
    status norm_message.

(** The sum of a metric over the five real regions. *)
Definition sum_regions (f : str -> nat) : nat := sum_list (map f REGIONS).

(** The Aggregate bucket mirrors the sum of the real regions. *)
Definition aggregate_consistent (summaries : summaries_t) : Prop :=
  (∀ key, status_count summaries AGGREGATE key
          = sum_regions (fun r => status_count summaries r key))
  ∧ (∀ key, channel_count summaries AGGREGATE key
            = sum_regions (fun r => channel_count summaries r key))
  ∧ (∀ status msg, message_count summaries AGGREGATE status msg
            = sum_regions (fun r => message_count summaries r status msg))
  ∧ (∀ provider key, provider_status_count summaries AGGREGATE provider key
            = sum_regions
                (fun r => provider_status_count summaries r provider key))
  ∧ (∀ provider key, provider_channel_count summaries AGGREGATE provider key
            = sum_regions
                (fun r => provider_channel_count summaries r provider key))
  ∧ (∀ provider status msg,
       provider_message_count summaries AGGREGATE provider status msg
       = sum_regions
           (fun r => provider_message_count summaries r provider status msg))
  ∧ times_of summaries AGGREGATE
      ≡ₚ concat (map (times_of summaries) REGIONS).

(** Every channel key of every summary, regional or per provider, is one
    of the four channels. *)
Definition provider_channels_closed (p : ProviderSummary.t) : Prop :=
  dom (ProviderSummary.channel_counts p) ⊆ CHANNELS.

Definition region_channels_closed (r : RegionSummary.t datetime) : Prop :=
  dom (RegionSummary.channel_counts r) ⊆ CHANNELS
  ∧ map_Forall (fun _ p => provider_channels_closed p)
      (RegionSummary.providers r).

Definition channel_keys_closed (summaries : summaries_t) : Prop :=
  map_Forall (fun _ r => region_channels_closed r) summaries.

(** The channels recorded so far, in the list and in the counters, are
    among the four. *)
Definition channels_closed (st : state) : Prop :=
  Forall (fun tx => tx_channel tx ∈ CHANNELS) st.1
  ∧ channel_keys_closed st.2.

(** The key [other] occurs in no channel counter. *)
Definition no_other_channel (summaries : summaries_t) : Prop :=
  map_Forall
    (fun _ r =>
       RegionSummary.channel_counts r !! py "other" = None
       ∧ map_Forall
           (fun _ p => ProviderSummary.channel_counts p !! py "other" = None)
           (RegionSummary.providers r))
    summaries.

End Aggregator.

Arguments summary_of {datetime}.
Arguments modify {datetime}.
Arguments record {datetime}.
Arguments resolve_timestamp {datetime}.
Arguments ingest {datetime}.
Arguments ingest_all {datetime}.
Arguments ingest_row {datetime}.
Arguments initial {datetime}.
Arguments parse_csv {datetime}.
Arguments status_count {datetime}.
Arguments channel_count {datetime}.
Arguments message_count {datetime}.
Arguments times_of {datetime}.
Arguments provider_of {datetime}.
Arguments provider_status_count {datetime}.
Arguments provider_channel_count {datetime}.
Arguments provider_message_count {datetime}.
Arguments aggregate_consistent {datetime}.
Arguments region_channels_closed {datetime}.
Arguments channel_keys_closed {datetime}.
Arguments no_other_channel {datetime}.
Arguments channels_closed {datetime}.

(** ** A reference ISO-8601 parser

    [parse_csv] takes [datetime.fromisoformat] as an input of the model.
    [Iso.fromisoformat] is an instance to run the model on concrete files:
    it reads the extended format [YYYY-MM-DD*HH:MM[:SS]] with an optional
    UTC offset [+HH:MM[:SS]] or [-HH:MM[:SS]], a sub-language of what the
    library reads, and rejects every other text. *)

Module Iso.

Record t := Build {
  year : nat; month : nat; day : nat;
  hour : nat; minute : nat; second : nat;
  (** sign (true for a negative offset), hours, minutes, seconds *)
  utcoffset : option (bool * nat * nat * nat)
}.

Definition digit (c : ascii) : option nat :=
  if Char.is_digit c then Some (Char.code c - 48) else None.

(** Two digits at the head of [s], and what follows them. *)
Definition two (s : str) : option (nat * str) :=
  match s with
  | a :: b :: rest =>
      match digit a, digit b with
      | Some x, Some y => Some (10 * x + y, rest)
      | _, _ => None
      end
  | _ => None
  end.

(** [HH:MM[:SS]] at the head of [s], each number below its bound. *)
Definition hms (s : str) : option (nat * nat * nat * str) :=
  match two s with
  | Some (h, c :: s1) =>
      if Char.eqb c ":" then
        match two s1 with
        | Some (m, s2) =>
            if (h <? 24) && (m <? 60) then
              match s2 with
              | c2 :: s3 =>
                  if Char.eqb c2 ":" then
                    match two s3 with
                    | Some (sec, s4) =>
                        if sec <? 60 then Some (h, m, sec, s4) else None
                    | None => None
                    end
                  else Some (h, m, 0, s2)
              | [] => Some (h, m, 0, [])
              end
            else None
        | None => None
        end
      else None
  | _ => None
  end.

Definition is_leap (y : nat) : bool :=
  ((y mod 4 =? 0) && negb (y mod 100 =? 0)) || (y mod 400 =? 0).

Definition days_in_month (y m : nat) : nat :=
  match m with
  | 2 => if is_leap y then 29 else 28
  | 4 | 6 | 9 | 11 => 30
  | _ => 31
  end.

Definition fromisoformat (s : str) : option t :=
  match s with
  | y1 :: y2 :: y3 :: y4 :: h1 :: rest =>
      match two [y1; y2], two [y3; y4], two rest with
      | Some (yh, _), Some (yl, _), Some (m, h2 :: rest2) =>
          match two rest2 with
          | Some (d, _ :: rest3) =>
              let y := 100 * yh + yl in
              if Char.eqb h1 "-" && Char.eqb h2 "-" && (1 <=? y)
                 && (1 <=? m) && (m <=? 12) && (1 <=? d)
                 && (d <=? days_in_month y m)
              then
                match hms rest3 with
                | Some (hh, mm, ss, []) =>
                    Some (Build y m d hh mm ss None)
                | Some (hh, mm, ss, sign :: off) =>
                    if Char.eqb sign "+" || Char.eqb sign "-" then
                      match hms off with
                      | Some (oh, om, os, []) =>
                          Some (Build y m d hh mm ss
                                  (Some (Char.eqb sign "-", oh, om, os)))
                      | _ => None
                      end
                    else None
                | None => None
                end
              else None
          | _ => None
          end
      | _, _, _ => None
      end
  | _ => None
  end.

End Iso.

(** The substitution as the specification words it: only a final [Z]
    becomes the UTC offset.  (The script replaces every [Z], see
    [resolve_timestamp].) *)
Definition substitute_trailing_z (payment_date : str) : str :=
  if Str.endswith (py "Z") payment_date
  then take (length payment_date - 1) payment_date ++ DEFAULT_TZ_SUFFIX
  else payment_date.

(** Whether a text starts with a decimal digit. *)
Definition head_digit (s : str) : bool :=
  match s with
  | c :: _ => Char.is_digit c
  | [] => false
  end.

(** The row of two concatenated transactions; [quoted] wraps a message
    cell in double quotes, as the export has it before the CSV reader, and
    the same row with the bare message cells, as it has it after. *)
Definition quoted (s : str) : str := Char.dquote :: s ++ [Char.dquote].

Definition two_transactions_row (message_cell : str → str) : list str :=
  [py "cellulant"; py "Nigeria"; py "a@x.com"; py "successful"; py "card";
   message_cell (py "Payment received"); py "2024-01-01T10:00:00";
   py "cellulant"; py "Ghana"; py "b@y.com"; py "failed"; py "mobile_money";
   message_cell (py "Insufficient funds"); py "2024-01-02T11:00:00"].



(** ** Words of a text

    The acronym steps of the normaliser work word by word.  A text is cut
    into its maximal runs of word characters and the characters between
    them. *)

Inductive piece :=
| Word (w : str)
| Sep (c : ascii).

Definition render_piece (p : piece) : str :=
  match p with
  | Word w => w
  | Sep c => [c]
  end.

Definition render (ps : list piece) : str := concat (map render_piece ps).

Fixpoint segment (s : str) : list piece :=
  match s with
  | [] => []
  | c :: s' =>
      if Char.is_word c then
        match segment s' with
        | Word w :: ps => Word (c :: w) :: ps
        | ps => Word [c] :: ps
        end
      else Sep c :: segment s'
  end.

Definition starts_with_word (ps : list piece) : bool :=
  match ps with
  | Word _ :: _ => true
  | _ => false
  end.

(** Words are non-empty runs of word characters, separators are not word
    characters, and no two words are adjacent. *)
Fixpoint well_segmented (ps : list piece) : Prop :=
  match ps with
  | [] => True
  | Sep c :: ps' => Char.is_word c = false ∧ well_segmented ps'
  | Word w :: ps' =>
      Str.nonempty w = true ∧ forallb Char.is_word w = true
      ∧ starts_with_word ps' = false ∧ well_segmented ps'
  end.

Definition word_of (p : piece) : option str :=
  match p with
  | Word w => Some w
  | Sep _ => None
  end.

Definition words_of (ps : list piece) : list str := omap word_of ps.

Definition map_piece (f : str → str) (p : piece) : piece :=
  match p with
  | Word w => Word (f w)
  | Sep c => Sep c
  end.

(** A whole word of two or more capital letters. *)
Definition is_acronym (w : str) : bool :=
  forallb Char.is_upper w && (2 <=? length w).

(** What the substitutions of the acronym step do to a lower-case word:
    it is upper-cased when it is the lower case of one of the tokens. *)
Definition acronymise (tokens : list str) (w : str) : str :=
  if existsb (fun token => Str.eqb (Str.lower token) w) tokens
  then Str.upper w
  else w.

(** The substitutions of the acronym step on one word, token after
    token. *)
Definition sub_all (tokens : list str) (w : str) : str :=
  fold_left (fun w token => if Str.eqb (Str.lower token) w then token else w)
    tokens w.

(** A token of the acronym step: a non-empty run of capital letters. *)
Definition capitals (token : str) : Prop :=
  Str.nonempty token = true ∧ forallb Char.is_upper token = true.

(** A text without capital letters. *)
Definition lowercase (w : str) : Prop :=
  forallb (fun c => negb (Char.is_upper c)) w = true.

(** The pieces of a text after [capitalize_first]. *)
Definition cap_pieces (ps : list piece) : list piece :=
  match ps with
  | Word w :: ps' => Word (Str.capitalize_first w) :: ps'
  | _ => ps
  end.

(** A map on words that keeps them words. *)
Definition keeps_words (f : str → str) : Prop :=
  ∀ w, Str.nonempty w = true → forallb Char.is_word w = true →
       Str.nonempty (f w) = true ∧ forallb Char.is_word (f w) = true.

(** Whitespace occurs in [s] only as single spaces; [prev_space] tells
    whether the character before is whitespace. *)
Fixpoint single_spaced (prev_space : bool) (s : str) : bool :=
  match s with
  | [] => true
  | c :: s' =>
      if Char.is_space c
      then Char.eqb c Char.space && negb prev_space && single_spaced true s'
      else single_spaced false s'
  end.

(** A text the cleanup steps have nothing left to do on: it is not empty
    and not a pair of single quotes, holds no double quote and no
    underscore, its only whitespace is single spaces, none of them first,
    and it does not end with whitespace or one of the trailing punctuation
    characters. *)
Definition clean_text (r : str) : bool :=
  Str.nonempty r
  && negb (Str.eqb r (py "''"))
  && forallb (fun c => negb (Char.eqb Char.dquote c)
                       && negb (Char.eqb Char.underscore c)) r
  && single_spaced true r
  && negb (Re.is_trailing_punct (List.last r Char.space)).

(** ** The text the embedding is exact on

    Python maps case and delimits words after Unicode.  On the code points
    below 256 that differs from [Char.upper], [Char.lower], [Char.is_alpha]
    and [Char.is_word] on the Latin-1 letters, superscript digits and
    fractions only: the code points from 128 on that [str.isalnum] holds
    of. *)
Definition latin1_alnum (c : ascii) : bool :=
  existsb (Nat.eqb (Char.code c))
    [170; 178; 179; 181; 185; 186; 188; 189; 190]
  || Char.between 192 214 c || Char.between 216 246 c
  || Char.between 248 255 c.

(** A text without such a character: ASCII text and the other symbols of
    Latin-1. *)
Definition exact_text (s : str) : bool :=
  forallb (fun c => negb (latin1_alnum c)) s.

(** ** Reading a scanned record back from the row *)

(** What the tests of lines 176-198 leave true of a cell that joins the
    message: it is no timestamp, no vocabulary word, holds no at-sign, and
    the cell after it is no number. *)
Definition joins_message (row : list str) (idx : nat) : Prop :=
  let stripped := Str.strip (row !!! idx) in
  let lower := Str.lower stripped in
  Re.iso_match stripped = false
  ∧ (lower ∉ PROVIDERS)
  ∧ (stripped ∉ REGION_SET)
  ∧ Str.contains Char.at_sign stripped = false
  ∧ (lower ∉ STATUSES)
  ∧ (lower ∉ CHANNELS)
  ∧ (∀ cell, row !! (idx + 1) = Some cell →
       _is_number (Str.strip cell) = false).

(** The customer parts of lines 139-144 for the cells from [from] up to
    [upto]: the non-empty stripped cells, in order. *)
Definition customer_parts_of (row : list str) (from upto : nat) : list str :=
  List.filter Str.nonempty (map Str.strip (take (upto - from) (drop from row))).

(** ** The shape of a normalised message *)

(** A character that is no whitespace other than the ordinary space. *)
Definition plain_space (c : ascii) : bool :=
  negb (Char.is_space c) || Char.eqb c Char.space.

(** The first and the last character of [s] are outside the class [p]. *)
Definition ends_clear (p : ascii → bool) (s : str) : Prop :=
  match s with c :: _ => p c = false | [] => True end
  ∧ match rev s with c :: _ => p c = false | [] => True end.

(** A text on one line: its only whitespace is the ordinary space, and it
    has none at either end. *)
Definition tidy (r : str) : Prop :=
  forallb plain_space r = true ∧ Str.strip r = r.

(** ** The summaries against the list of transactions *)

(** The transaction lines 248-265 make of a candidate whose vocabulary
    fields are in their sets: its timestamp resolved and its message
    normalised, or nothing when the timestamp does not resolve. *)
Definition dated {datetime : Type} (fromisoformat : str → option datetime)
  (c : candidate) : option (transaction datetime) :=
  dt ← resolve_timestamp fromisoformat (cand_payment_date c);
  Some (Transaction (cand_provider c) (cand_region c) (cand_status c)
          (cand_channel c) (_normalise_message (Some (cand_message c))) dt
          (cand_customer c)).

(** The transactions a summary counts: all of them for the Aggregate
    bucket, those of its region for a regional one. *)
Definition bucket {datetime : Type} (R : str)
  (txs : list (transaction datetime)) : list (transaction datetime) :=
  filter (fun tx => R = AGGREGATE ∨ tx_region tx = R) txs.

(** Every counter and every list of times of the summaries, read back from
    the list of transactions. *)
Definition summaries_agree {datetime : Type} (st : state datetime) : Prop :=
  ∀ R,
    let txs := bucket R st.1 in
    (∀ key, status_count st.2 R key
            = length (filter (fun tx => tx_status tx = key) txs))
    ∧ (∀ key, channel_count st.2 R key
              = length (filter (fun tx => tx_channel tx = key) txs))
    ∧ (∀ status msg,
         message_count st.2 R status msg
         = length (filter (fun tx => tx_status tx = status
                                     ∧ tx_message tx = msg) txs))
    ∧ (∀ provider key,
         provider_status_count st.2 R provider key
         = length (filter (fun tx => tx_provider tx = provider
                                     ∧ tx_status tx = key) txs))
    ∧ (∀ provider key,
         provider_channel_count st.2 R provider key
         = length (filter (fun tx => tx_provider tx = provider
                                     ∧ tx_channel tx = key) txs))
    ∧ (∀ provider status msg,
         provider_message_count st.2 R provider status msg
         = length (filter (fun tx => tx_provider tx = provider
                                     ∧ tx_status tx = status
                                     ∧ tx_message tx = msg) txs))
    ∧ times_of st.2 R = omap tx_dt txs.

(** The statuses of a counter are counted from one. *)
Definition counts_positive (c : gmap str nat) : Prop :=
  map_Forall (fun _ v => 0 < v) c.

(** ** The printed blocks *)

(** [str(n)] for a count. *)
Definition str_of_nat (n : nat) : str :=
  py (NilZero.string_of_uint (Nat.to_uint n)).

(** The format specification of a left-aligned field: [s] padded with
    spaces on the right up to [width] characters. *)
Definition ljust (width : nat) (s : str) : str :=
  s ++ repeat Char.space (width - length s).

(** [sum(counter.values())] *)
Definition counter_total (c : gmap str nat) : nat :=
  map_fold (fun _ v acc => v + acc) 0 c.

(** The statuses and the channels the two blocks go through, lines 296 and
    303. *)
Definition STATUS_LINES : list str :=
  [py "successful"; py "failed"; py "abandoned"; py "cancelled";
   py "inprogress"].
Definition CHANNEL_LINES : list str :=
  [py "card"; py "bank_transfer"; py "eft"; py "mobile_money"; py "other"].

(** The three lines the blocks print, lines 295, 298 and 306. *)
Definition total_line (total : nat) : str :=
  py "  Total transactions: " ++ str_of_nat total.
Definition status_line (status : str) (count : nat) : str :=
  py "    " ++ ljust 12 (Str.title status) ++ py ": " ++ str_of_nat count.
Definition channel_line (channel : str) (count : nat) : str :=
  py "    "
  ++ ljust 16 (Str.title (Str.replace (py "_") (py " ") channel))
  ++ py ": " ++ str_of_nat count.

(** [_print_status_block], lines 293-298, as the list of the lines it
    prints. *)
Definition _print_status_block (status_counts : gmap str nat) : list str :=
  let total := counter_total status_counts in
  total_line total
  :: omap (fun status =>
             if bool_decide (status ∈ dom status_counts)
             then Some (status_line status (counter_get status_counts status))
             else None)
       STATUS_LINES.

(** [_print_channel_block], lines 301-306. *)
Definition _print_channel_block (channel_counts : gmap str nat) : list str :=
  py "  Channels:"
  :: omap (fun channel =>
             let count := counter_get channel_counts channel in
             if bool_decide (count ≠ 0)
             then Some (channel_line channel count)
             else None)
       CHANNEL_LINES.

(** [sorted(times)] compares the datetimes of the list, and the comparison
    of an offset-aware with an offset-naive datetime raises [TypeError]:
    the call raises on every list that holds both.  [aware] tells which
    datetimes carry an offset. *)
Definition sorted_raises {datetime : Type} (aware : datetime → bool)
  (times : list datetime) : bool :=
  existsb aware times && existsb (fun t => negb (aware t)) times.

(** How [print_summary] ends. *)
Inductive outcome := Returned | Raised_TypeError.

(** The loop of [print_summary], lines 321-348, over [ordered_regions]: the
    buckets whose header line it prints, in order, and how it ends.  A
    bucket without a summary or without a status count is skipped; the
    header is printed before the times are sorted for the date range, which
    is done when the bucket has times. *)
Fixpoint print_summary_loop {datetime : Type} (aware : datetime → bool)
  (summaries : gmap str (RegionSummary.t datetime))
  (ordered_regions : list str) : list str * outcome :=
  match ordered_regions with
  | [] => ([], Returned)
  | region :: rest =>
      if bool_decide (region ∉ dom summaries)
      then print_summary_loop aware summaries rest
      else
        let data := summary_of summaries region in
        if bool_decide (RegionSummary.status_counts data = ∅)
        then print_summary_loop aware summaries rest
        else
          if match RegionSummary.times data with
             | [] => false
             | _ :: _ => sorted_raises aware (RegionSummary.times data)
             end
          then ([region], Raised_TypeError)
          else
            let '(headers, result) :=
              print_summary_loop aware summaries rest in
            (region :: headers, result)
  end.

(** [print_summary], lines 319-348: the headers it prints and how it
    ends. *)
Definition print_summary_headers {datetime : Type} (aware : datetime → bool)
  (summaries : gmap str (RegionSummary.t datetime)) : list str * outcome :=
  print_summary_loop aware summaries (REGIONS ++ [AGGREGATE]).

(** Whether a datetime of the reference parser carries an offset. *)
Definition aware_iso (t : Iso.t) : bool :=
  match Iso.utcoffset t with
  | Some _ => true
  | None => false
  end.

(** What the blocks need of a state: the summaries agree with the
    transactions, the status counts are positive, the statuses and channels
    of the transactions are the known ones, and a bucket with a transaction
    has its summary. *)
Definition printable {datetime : Type} (st : state datetime) : Prop :=
  summaries_agree st
  ∧ (∀ R, counts_positive
            (RegionSummary.status_counts (summary_of st.2 R)))
  ∧ Forall (fun tx => tx_status tx ∈ STATUSES ∧ tx_channel tx ∈ CHANNELS)
      st.1
  ∧ (∀ R, 0 < length (bucket R st.1) → R ∈ dom st.2).

(** The providers a summary lists are those of its transactions. *)
Definition providers_listed {datetime : Type} (st : state datetime) : Prop :=
  ∀ R P,
    P ∈ dom (RegionSummary.providers (summary_of st.2 R))
    ↔ Exists (fun tx => tx_provider tx = P) (bucket R st.1).

(** The candidate lines 203-224 make of a scanned record, for given
    iteration orders and default date. *)
Definition candidate_of (provider_iter region_iter : list str)
  (default_dt : str) (sc : scanned) : candidate :=
  Candidate (sc_provider sc) (sc_region sc) (sc_status sc) (sc_channel sc)
    (assemble_message provider_iter region_iter (sc_message_parts sc))
    (if Str.nonempty (sc_payment_date sc) then sc_payment_date sc
     else default_dt)
    (sc_customer sc).

(** A cell of free text: no timestamp, no vocabulary word, no mode word and
    no at-sign. *)
Definition free_text (cell : str) : Prop :=
  let stripped := Str.strip cell in
  let lower := Str.lower stripped in
  Re.iso_match stripped = false
  ∧ (lower ∉ PROVIDERS)
  ∧ (stripped ∉ REGION_SET)
  ∧ Str.contains Char.at_sign stripped = false
  ∧ (lower ∉ STATUSES)
  ∧ (lower ∉ CHANNELS)
  ∧ Str.mem lower [py "live"; py "test"] = false.

(** * Properties *)

(** ** Strings and sets *)

Lemma char_eqb_eq (a b : ascii) : Char.eqb a b = true ↔ a = b.
Proof. unfold Char.eqb. apply Ascii.eqb_eq. Qed.

Lemma str_eqb_eq (a b : str) : Str.eqb a b = true ↔ a = b.
Proof.
  revert b. induction a as [|x a IH]; intros [|y b]; simpl; try easy.
  rewrite andb_true_iff, char_eqb_eq, IH. split.
  - intros [-> ->]. reflexivity.
  - intros [= -> ->]. auto.
Qed.

Lemma str_eqb_refl (a : str) : Str.eqb a a = true.
Proof. apply str_eqb_eq. reflexivity. Qed.

Lemma str_eqb_neq (a b : str) : Str.eqb a b = false ↔ a ≠ b.
Proof.
  rewrite <- str_eqb_eq. destruct (Str.eqb a b); split; congruence.
Qed.

Lemma in_set_true (x : str) (S : gset str) : in_set x S = true ↔ x ∈ S.
Proof. unfold in_set. apply bool_decide_eq_true. Qed.

Lemma in_set_false (x : str) (S : gset str) : in_set x S = false ↔ x ∉ S.
Proof. unfold in_set. apply bool_decide_eq_false. Qed.

(** ** Forward progress of the scan *)

Lemma find_provider_loop_spec (row : list str) (count idx k : nat) :
  find_provider_loop row idx count = Some k →
  idx ≤ k ∧ k < idx + count ∧ is_boundary row k = true.
Proof.
  revert idx. induction count as [|count IH]; intros idx; simpl.
  - discriminate.
  - destruct (is_boundary row idx) eqn:Hb.
    + intros [= <-]. repeat split; [lia | lia | assumption].
    + intros H. apply IH in H. destruct H as (H1 & H2 & H3).
      repeat split; [lia | lia | assumption].
Qed.

Lemma find_next_provider_index_spec (row : list str) (start k : nat) :
  _find_next_provider_index row start = Some k →
  start ≤ k ∧ k + 1 < length row ∧ is_boundary row k = true.
Proof.
  unfold _find_next_provider_index. intros H.
  apply find_provider_loop_spec in H. destruct H as (H1 & H2 & H3).
  repeat split; [lia | lia | assumption].
Qed.

Lemma scan_customer_bounds (row : list str) (fuel idx : nat)
  (parts : list str) :
  idx ≤ (scan_customer row idx fuel parts).1
  ∧ (scan_customer row idx fuel parts).1 ≤ idx + fuel.
Proof.
  revert idx parts. induction fuel as [|fuel IH]; intros idx parts; simpl.
  - lia.
  - destruct (row !! idx) as [cell|]; simpl; [|lia].
    destruct (in_set _ STATUSES); simpl; [lia|].
    match goal with |- context [scan_customer row (idx + 1) fuel ?p] =>
      specialize (IH (idx + 1) p) end.
    lia.
Qed.

Lemma scan_channel_bounds (row : list str) (fuel idx : nat) :
  idx ≤ scan_channel row idx fuel ∧ scan_channel row idx fuel ≤ idx + fuel.
Proof.
  revert idx. induction fuel as [|fuel IH]; intros idx; simpl.
  - lia.
  - destruct (row !! idx) as [cell|]; [|lia].
    destruct (in_set _ CHANNELS); [lia|].
    specialize (IH (idx + 1)). lia.
Qed.

Lemma scan_message_bounds (row : list str) (fuel idx : nat)
  (parts : list str) :
  idx ≤ (scan_message row idx fuel parts).2
  ∧ (scan_message row idx fuel parts).2 ≤ idx + fuel.
Proof.
  revert idx parts. induction fuel as [|fuel IH]; intros idx parts; simpl.
  - lia.
  - destruct (row !! idx) as [raw|]; simpl; [|lia].
    repeat (match goal with
            | |- context [if ?b then _ else _] => destruct b; simpl; try lia
            end).
    match goal with |- context [scan_message row (idx + 1) fuel ?p] =>
      specialize (IH (idx + 1) p) end.
    lia.
Qed.

(** The inner loops stop at the end of the row at the latest: the cells left
    are fuel enough, and more fuel changes nothing. *)
Lemma scan_customer_fuel (row : list str) (f1 f2 idx : nat)
  (parts : list str) :
  length row - idx ≤ f1 → length row - idx ≤ f2 →
  scan_customer row idx f1 parts = scan_customer row idx f2 parts.
Proof.
  revert f2 idx parts. induction f1 as [|f1 IH]; intros f2 idx parts H1 H2.
  - assert (row !! idx = None) as Hnone by (apply lookup_ge_None; lia).
    destruct f2; simpl; rewrite ?Hnone; reflexivity.
  - destruct (row !! idx) as [cell|] eqn:Hcell.
    + apply lookup_lt_Some in Hcell as Hlt.
      destruct f2 as [|f2]; [lia|]. simpl. rewrite Hcell.
      destruct (in_set _ STATUSES); [reflexivity|].
      apply IH; lia.
    + destruct f2; simpl; rewrite Hcell; reflexivity.
Qed.

Lemma scan_channel_fuel (row : list str) (f1 f2 idx : nat) :
  length row - idx ≤ f1 → length row - idx ≤ f2 →
  scan_channel row idx f1 = scan_channel row idx f2.
Proof.
  revert f2 idx. induction f1 as [|f1 IH]; intros f2 idx H1 H2.
  - assert (row !! idx = None) as Hnone by (apply lookup_ge_None; lia).
    destruct f2; simpl; rewrite ?Hnone; reflexivity.
  - destruct (row !! idx) as [cell|] eqn:Hcell.
    + apply lookup_lt_Some in Hcell as Hlt.
      destruct f2 as [|f2]; [lia|]. simpl. rewrite Hcell.
      destruct (in_set _ CHANNELS); [reflexivity|].
      apply IH; lia.
    + destruct f2; simpl; rewrite Hcell; reflexivity.
Qed.

Lemma scan_message_fuel (row : list str) (f1 f2 idx : nat)
  (parts : list str) :
  length row - idx ≤ f1 → length row - idx ≤ f2 →
  scan_message row idx f1 parts = scan_message row idx f2 parts.
Proof.
  revert f2 idx parts. induction f1 as [|f1 IH]; intros f2 idx parts H1 H2.
  - assert (row !! idx = None) as Hnone by (apply lookup_ge_None; lia).
    destruct f2; simpl; rewrite ?Hnone; reflexivity.
  - destruct (row !! idx) as [raw|] eqn:Hraw.
    + apply lookup_lt_Some in Hraw as Hlt.
      destruct f2 as [|f2]; [lia|]. simpl. rewrite Hraw.
      repeat (match goal with
              | |- context [if ?b then (_, _, _) else _] =>
                  destruct b; [reflexivity|]
              end).
      apply IH; lia.
    + destruct f2; simpl; rewrite Hraw; reflexivity.
Qed.

Section Progress.

Variables provider_iter region_iter : list str.

Lemma extract_step_progress (row : list str) (default_dt : str)
  (i : nat) (a : attempt) :
  extract_step provider_iter region_iter row default_dt i = Some a →
  i ≤ boundary_of a
  ∧ boundary_of a < resume_of a
  ∧ resume_of a ≤ length row
  ∧ (yielded a = None → resume_of a = boundary_of a + 1).
Proof.
  unfold extract_step.
  destruct (_find_next_provider_index row i) as [k|] eqn:Hk; [|discriminate].
  apply find_next_provider_index_spec in Hk. destruct Hk as (Hk1 & Hk2 & _).
  pose proof (scan_customer_bounds row (length row - (k + 2)) (k + 2) [])
    as Hc.
  destruct (scan_customer row (k + 2) (length row - (k + 2)) [])
    as [idx1 parts]. simpl in Hc.
  destruct (length row <=? idx1) eqn:H1.
  { intros [= <-]. simpl. lia. }
  apply Nat.leb_gt in H1.
  pose proof (scan_channel_bounds row (length row - (idx1 + 1)) (idx1 + 1))
    as Hch.
  set (idx2 := scan_channel row (idx1 + 1) (length row - (idx1 + 1))) in *.
  destruct (length row <=? idx2) eqn:H2.
  { intros [= <-]. simpl. lia. }
  apply Nat.leb_gt in H2.
  set (idx3 := if _ && _ then idx2 + 1 + 1 else idx2 + 1).
  assert (idx2 + 1 ≤ idx3 ∧ idx3 ≤ length row) as H3.
  { subst idx3. destruct (bool_decide (idx2 + 1 < length row)) eqn:Hd;
      cbn [andb]; [|lia].
    apply bool_decide_eq_true in Hd.
    match goal with |- context [Str.mem ?x ?l] => destruct (Str.mem x l) end;
      lia. }
  pose proof (scan_message_bounds row (length row - idx3) idx3 []) as Hm.
  destruct (scan_message row idx3 (length row - idx3) [])
    as [[message_parts payment_date] idx4]. simpl in Hm.
  intros [= <-]. simpl. split; [lia|]. split; [lia|]. split; [lia|].
  discriminate.
Qed.

Lemma extract_loop_total (row : list str) (default_dt : str)
  (fuel i : nat) :
  length row - i ≤ fuel →
  ∃ turns,
    extract_loop provider_iter region_iter fuel row default_dt i
      = Some turns
    ∧ length turns ≤ length row - i
    ∧ forward_progress row i turns.
Proof.
  revert i. induction fuel as [|fuel IH]; intros i Hfuel.
  - exists []. simpl. destruct (length row <=? i) eqn:Hn.
    + simpl. repeat split; lia.
    + apply Nat.leb_gt in Hn. lia.
  - simpl. destruct (length row <=? i) eqn:Hn.
    { exists []. simpl. repeat split; lia. }
    apply Nat.leb_gt in Hn.
    destruct (extract_step provider_iter region_iter row default_dt i)
      as [a|] eqn:Ha.
    + apply extract_step_progress in Ha.
      destruct Ha as (H1 & H2 & H3 & H4).
      destruct (IH (resume_of a)) as (turns & Hrun & Hlen & Hprog); [lia|].
      exists (a :: turns). rewrite Hrun. simpl.
      split; [reflexivity|]. split; [lia|]. repeat split; try lia; auto.
    + exists []. simpl. repeat split; lia.
Qed.

Lemma forward_progress_positions (row : list str) (turns : list attempt)
  (i : nat) :
  forward_progress row i turns →
  StronglySorted lt (scan_positions i turns)
  ∧ Forall (fun p => i ≤ p) (scan_positions i turns).
Proof.
  revert i. induction turns as [|a turns IH]; intros i; simpl.
  - intros _. split.
    + repeat constructor.
    + repeat constructor.
  - intros (H0 & H1 & H2 & H3 & H4 & H5).
    destruct (IH _ H5) as [Hs Hf]. split.
    + constructor; [assumption|].
      eapply Forall_impl; [exact Hf|]. simpl. intros p Hp. lia.
    + constructor; [lia|].
      eapply Forall_impl; [exact Hf|]. simpl. intros p Hp. lia.
Qed.

End Progress.

(** C3. Scanning any finite row terminates: the outer loop of
    [extract_transactions] ends within as many turns as the row has cells
    (more fuel changes nothing), and the scan position strictly increases
    from turn to turn: each turn finds its boundary at or after the position
    it started from and resumes strictly after that boundary, exactly one
    past it when the candidate is incomplete, so no lower index is scanned
    from again. *)
Theorem extract_terminates_with_progress
  (provider_iter region_iter : list str) (row : list str) (default_dt : str) :
  ∃ turns,
    extract_trace provider_iter region_iter row default_dt = Some turns
    ∧ (∀ fuel, length row ≤ fuel →
         extract_loop provider_iter region_iter fuel row default_dt 0
           = Some turns)
    ∧ length turns ≤ length row
    ∧ forward_progress row 0 turns
    ∧ StronglySorted lt (scan_positions 0 turns).
Proof.
  destruct (extract_loop_total provider_iter region_iter row default_dt
              (length row) 0) as (turns & Hrun & Hlen & Hprog); [lia|].
  exists turns. split; [exact Hrun|]. split.
  - intros fuel Hfuel.
    destruct (extract_loop_total provider_iter region_iter row default_dt
                fuel 0) as (turns' & Hrun' & _ & _); [lia|].
    rewrite Hrun'. f_equal.
    clear Hlen Hprog. unfold extract_trace in Hrun.
    assert (∀ f1 f2 i t1 t2,
      extract_loop provider_iter region_iter f1 row default_dt i = Some t1 →
      extract_loop provider_iter region_iter f2 row default_dt i = Some t2 →
      t1 = t2) as Hdet.
    { clear. induction f1 as [|f1 IH]; intros f2 i t1 t2; simpl.
      - destruct (length row <=? i) eqn:Hn; [|discriminate].
        intros [= <-]. destruct f2; simpl; rewrite Hn; congruence.
      - destruct (length row <=? i) eqn:Hn.
        + intros [= <-]. destruct f2; simpl; rewrite Hn; congruence.
        + destruct f2; simpl; rewrite Hn; [discriminate|].
          destruct (extract_step _ _ row default_dt i) as [a|];
            [|congruence].
          destruct (extract_loop _ _ f1 row default_dt (resume_of a))
            as [u1|] eqn:E1; [|discriminate].
          destruct (extract_loop _ _ f2 row default_dt (resume_of a))
            as [u2|] eqn:E2; [|discriminate].
          simpl. intros [= <-] [= <-]. f_equal. eapply IH; eassumption. }
    eapply Hdet; eassumption.
  - split; [lia|]. split; [exact Hprog|].
    apply (forward_progress_positions row turns 0 Hprog).
Qed.

(** ** The fields of a yielded candidate *)

Lemma is_boundary_fields (row : list str) (k : nat) :
  is_boundary row k = true →
  Str.lower (Str.strip (row !!! k)) ∈ PROVIDERS
  ∧ Str.strip (row !!! (k + 1)) ∈ REGION_SET.
Proof.
  unfold is_boundary.
  destruct (row !! k) as [p|] eqn:Hp; [|discriminate].
  destruct (row !! (k + 1)) as [r|] eqn:Hr; [|discriminate].
  rewrite (list_lookup_total_correct _ _ _ Hp).
  rewrite (list_lookup_total_correct _ _ _ Hr).
  rewrite andb_true_iff, !in_set_true. tauto.
Qed.

Lemma scan_customer_stop (row : list str) (fuel idx : nat)
  (parts : list str) :
  (scan_customer row idx fuel parts).1 < idx + fuel →
  (scan_customer row idx fuel parts).1 < length row →
  Str.lower (Str.strip (row !!! (scan_customer row idx fuel parts).1))
    ∈ STATUSES.
Proof.
  revert idx parts. induction fuel as [|fuel IH]; intros idx parts; simpl.
  - lia.
  - destruct (row !! idx) as [cell|] eqn:Hcell; simpl.
    + destruct (in_set _ STATUSES) eqn:Hs; simpl.
      * intros _ _. rewrite (list_lookup_total_correct _ _ _ Hcell).
        apply in_set_true. exact Hs.
      * intros H1 H2. apply IH; [lia | assumption].
    + intros _ H. apply lookup_ge_None in Hcell. lia.
Qed.

Lemma scan_channel_stop (row : list str) (fuel idx : nat) :
  scan_channel row idx fuel < idx + fuel →
  scan_channel row idx fuel < length row →
  Str.lower (Str.strip (row !!! scan_channel row idx fuel)) ∈ CHANNELS.
Proof.
  revert idx. induction fuel as [|fuel IH]; intros idx; simpl.
  - lia.
  - destruct (row !! idx) as [cell|] eqn:Hcell.
    + destruct (in_set _ CHANNELS) eqn:Hs.
      * intros _ _. rewrite (list_lookup_total_correct _ _ _ Hcell).
        apply in_set_true. exact Hs.
      * intros H1 H2. apply IH; [lia | assumption].
    + intros _ H. apply lookup_ge_None in Hcell. lia.
Qed.

Section Fields.

Variables provider_iter region_iter : list str.

Lemma extract_step_well_formed (row : list str) (default_dt : str)
  (i k idx : nat) (c : candidate) :
  extract_step provider_iter region_iter row default_dt i
    = Some (Emitted k c idx) →
  well_formed c.
Proof.
  unfold extract_step.
  destruct (_find_next_provider_index row i) as [k'|] eqn:Hk;
    [|discriminate].
  apply find_next_provider_index_spec in Hk. destruct Hk as (Hk1 & Hk2 & Hb).
  apply is_boundary_fields in Hb. destruct Hb as [Hp Hr].
  pose proof (scan_customer_bounds row (length row - (k' + 2)) (k' + 2) [])
    as Hc.
  pose proof (scan_customer_stop row (length row - (k' + 2)) (k' + 2) [])
    as Hcs.
  destruct (scan_customer row (k' + 2) (length row - (k' + 2)) [])
    as [idx1 parts]. simpl in Hc, Hcs.
  destruct (length row <=? idx1) eqn:H1; [discriminate|].
  apply Nat.leb_gt in H1.
  pose proof (scan_channel_bounds row (length row - (idx1 + 1)) (idx1 + 1))
    as Hch.
  pose proof (scan_channel_stop row (length row - (idx1 + 1)) (idx1 + 1))
    as Hchs.
  set (idx2 := scan_channel row (idx1 + 1) (length row - (idx1 + 1))) in *.
  destruct (length row <=? idx2) eqn:H2; [discriminate|].
  apply Nat.leb_gt in H2.
  match goal with
  | |- context [scan_message row ?j ?f []] =>
      destruct (scan_message row j f []) as [[message_parts payment_date] idx4]
  end.
  intros [= <- <- <-]. unfold well_formed. simpl.
  split; [exact Hp|]. split; [exact Hr|]. split.
  - apply Hcs; lia.
  - apply Hchs; lia.
Qed.

Lemma extract_loop_well_formed (row : list str) (default_dt : str)
  (fuel i : nat) (turns : list attempt) :
  extract_loop provider_iter region_iter fuel row default_dt i
    = Some turns →
  Forall well_formed (omap yielded turns).
Proof.
  revert i turns. induction fuel as [|fuel IH]; intros i turns; simpl.
  - destruct (length row <=? i); [|discriminate].
    intros [= <-]. constructor.
  - destruct (length row <=? i); [intros [= <-]; constructor|].
    destruct (extract_step _ _ row default_dt i) as [a|] eqn:Ha;
      [|intros [= <-]; constructor].
    destruct (extract_loop _ _ fuel row default_dt (resume_of a))
      as [rest|] eqn:Hrest; [|discriminate].
    simpl. intros [= <-]. apply IH in Hrest.
    destruct a as [k c idx|k]; simpl; [|exact Hrest].
    constructor; [|exact Hrest].
    eapply extract_step_well_formed. exact Ha.
Qed.

Lemma extract_transactions_well_formed (row : list str)
  (default_dt : str) :
  Forall well_formed
    (extract_transactions provider_iter region_iter row default_dt).
Proof.
  unfold extract_transactions, extract_trace.
  destruct (extract_loop _ _ (length row) row default_dt 0) as [turns|]
    eqn:Hrun; simpl.
  - eapply extract_loop_well_formed. exact Hrun.
  - constructor.
Qed.

End Fields.

(** ** Counters and summaries *)

Lemma counter_get_incr (k key : str) (c : gmap str nat) :
  counter_get (counter_incr k c) key
  = counter_get c key + (if decide (k = key) then 1 else 0).
Proof.
  unfold counter_incr, counter_get at 1. rewrite lookup_insert.
  destruct (decide (k = key)) as [->|]; simpl.
  - reflexivity.
  - fold (counter_get c key). lia.
Qed.

Lemma nested_get_incr (k1 k2 s m : str) (x : gmap str (gmap str nat)) :
  nested_get (nested_incr k1 k2 x) s m
  = nested_get x s m + (if decide (k1 = s ∧ k2 = m) then 1 else 0).
Proof.
  unfold nested_incr, nested_get at 1. rewrite lookup_insert.
  destruct (decide (k1 = s)) as [->|Hne]; simpl.
  - rewrite counter_get_incr. fold (nested_get x s m).
    destruct (decide (k2 = m)); destruct (decide (s = s ∧ k2 = m)); tauto.
  - fold (nested_get x s m).
    destruct (decide (k1 = s ∧ k2 = m)); [tauto | lia].
Qed.

Section Summaries.

Context {datetime : Type}.
Implicit Types summaries : gmap str (RegionSummary.t datetime).

Lemma summary_of_modify key f summaries R :
  summary_of (modify key f summaries) R
  = if decide (key = R) then f (summary_of summaries key)
    else summary_of summaries R.
Proof.
  unfold modify, summary_of at 1. rewrite lookup_insert.
  destruct (decide (key = R)); reflexivity.
Qed.

(** The summary object of [R] after the writes for one accepted record:
    the writes through [summaries[region]] and those through [aggregate]
    land on [R] when the key is [R]. *)
Lemma summary_of_record provider region status channel norm_message dt
  summaries R :
  summary_of (record provider region status channel norm_message dt
                summaries) R
  = (if decide (AGGREGATE = R)
     then RegionSummary.bump_provider provider status channel norm_message
     else id)
    ((if decide (region = R)
      then RegionSummary.bump_provider provider status channel norm_message
      else id)
     ((if decide (AGGREGATE = R)
       then RegionSummary.bump status channel norm_message else id)
      ((if decide (region = R)
        then RegionSummary.bump status channel norm_message else id)
       ((if decide (AGGREGATE = R)
         then from_option RegionSummary.append_time id dt else id)
        ((if decide (region = R)
          then from_option RegionSummary.append_time id dt else id)
         (summary_of summaries R)))))).
Proof.
  unfold record.
  destruct dt as [dt|]; simpl;
    repeat (rewrite !summary_of_modify; simpl);
    destruct (decide (AGGREGATE = R)) as [<-|HA];
    destruct (decide (region = AGGREGATE)) as [->|Hr];
    try destruct (decide (region = R)) as [->|HR];
    simpl; repeat (rewrite ?summary_of_modify; simpl;
                   repeat case_decide; try congruence; simpl);
    try reflexivity.
Qed.

End Summaries.

Lemma sum_list_map_plus {A} (f g : A → nat) (l : list A) :
  sum_list (map (fun x => f x + g x) l)
  = sum_list (map f l) + sum_list (map g l).
Proof. induction l as [|x l IH]; simpl; lia. Qed.

Lemma sum_list_indicator (l : list str) (x : str) (d : nat) :
  NoDup l →
  sum_list (map (fun R => if decide (x = R) then d else 0) l)
  = if decide (x ∈ l) then d else 0.
Proof.
  induction 1 as [|y l Hy Hnd IH]; simpl.
  - destruct (decide (x ∈ [])) as [H|]; [inversion H | reflexivity].
  - rewrite IH. destruct (decide (x = y)) as [->|Hne].
    + destruct (decide (y ∈ l)); [contradiction|].
      destruct (decide (y ∈ y :: l)) as [|Hn]; [lia|].
      exfalso. apply Hn. left.
    + destruct (decide (x ∈ l)) as [Hin|Hnin].
      * destruct (decide (x ∈ y :: l)) as [|Hn]; [lia|].
        exfalso. apply Hn. right. exact Hin.
      * destruct (decide (x ∈ y :: l)) as [Hin|]; [|lia].
        apply elem_of_cons in Hin. tauto.
Qed.

Lemma concat_map_indicator {A} (t : str → list A) (l : list str) (x : str)
  (dts : list A) :
  NoDup l →
  concat (map (fun R => t R ++ (if decide (x = R) then dts else [])) l)
  ≡ₚ concat (map t l) ++ (if decide (x ∈ l) then dts else []).
Proof.
  induction 1 as [|y l Hy Hnd IH]; simpl.
  - destruct (decide (x ∈ [])) as [H|]; [inversion H | reflexivity].
  - rewrite IH. destruct (decide (x = y)) as [->|Hne].
    + destruct (decide (y ∈ l)); [contradiction|].
      destruct (decide (y ∈ y :: l)) as [|Hn].
      * rewrite !app_nil_r, <- !app_assoc.
        apply Permutation_app_head, Permutation_app_comm.
      * exfalso. apply Hn. left.
    + rewrite app_nil_r, <- app_assoc.
      destruct (decide (x ∈ l)) as [Hin|Hnin].
      * destruct (decide (x ∈ y :: l)) as [|Hn]; [reflexivity|].
        exfalso. apply Hn. right. exact Hin.
      * destruct (decide (x ∈ y :: l)) as [Hin|]; [|reflexivity].
        apply elem_of_cons in Hin. tauto.
Qed.

Lemma NoDup_REGIONS : NoDup REGIONS.
Proof. apply (bool_decide_unpack _). vm_compute. exact I. Qed.

Lemma AGGREGATE_not_region : AGGREGATE ∉ REGIONS.
Proof. apply (bool_decide_unpack _). vm_compute. exact I. Qed.

Lemma REGION_SET_REGIONS (r : str) : r ∈ REGION_SET ↔ r ∈ REGIONS.
Proof. unfold REGION_SET. apply elem_of_list_to_set. Qed.

Lemma AGGREGATE_not_in_set : AGGREGATE ∉ REGION_SET.
Proof. rewrite REGION_SET_REGIONS. apply AGGREGATE_not_region. Qed.

(** A metric that grows by [d] at the record's region and at Aggregate
    grows by [d] in the sum over the real regions. *)
Lemma sum_regions_bump (f : str → nat) (region : str) (d : nat) :
  region ∈ REGION_SET →
  sum_regions (fun R => f R + (if decide (region = R) then d else 0)
                        + (if decide (AGGREGATE = R) then d else 0))
  = sum_regions f + d.
Proof.
  intros Hr. apply REGION_SET_REGIONS in Hr. unfold sum_regions.
  rewrite (sum_list_map_plus
             (fun R => f R + (if decide (region = R) then d else 0))).
  rewrite sum_list_map_plus.
  rewrite !sum_list_indicator by apply NoDup_REGIONS.
  destruct (decide (region ∈ REGIONS)); [|contradiction].
  destruct (decide (AGGREGATE ∈ REGIONS)) as [H|]; [|lia].
  exfalso. exact (AGGREGATE_not_region H).
Qed.

Lemma sum_regions_ext (f g : str → nat) :
  (∀ R, f R = g R) → sum_regions f = sum_regions g.
Proof.
  intros H. unfold sum_regions. f_equal. apply map_ext. exact H.
Qed.

Section RecordViews.

Context {datetime : Type}.
Implicit Types summaries : gmap str (RegionSummary.t datetime).

Variables provider region status channel norm_message : str.
Variable dt : option datetime.

Local Ltac view :=
  intros; rewrite summary_of_record;
  repeat case_decide; destruct dt; simpl;
  rewrite ?counter_get_incr, ?nested_get_incr; simpl;
  repeat case_decide; try tauto; try lia.

Lemma status_count_record summaries R key :
  status_count (record provider region status channel norm_message dt
     summaries) R key
  = status_count summaries R key
    + (if decide (region = R)
       then (if decide (status = key) then 1 else 0) else 0)
    + (if decide (AGGREGATE = R)
       then (if decide (status = key) then 1 else 0) else 0).
Proof. unfold status_count. view. Qed.

Lemma channel_count_record summaries R key :
  channel_count (record provider region status channel norm_message dt
     summaries) R key
  = channel_count summaries R key
    + (if decide (region = R)
       then (if decide (channel = key) then 1 else 0) else 0)
    + (if decide (AGGREGATE = R)
       then (if decide (channel = key) then 1 else 0) else 0).
Proof. unfold channel_count. view. Qed.

Lemma message_count_record summaries R s m :
  message_count (record provider region status channel norm_message dt
     summaries) R s m
  = message_count summaries R s m
    + (if decide (region = R)
       then (if decide (status = s ∧ norm_message = m) then 1 else 0)
       else 0)
    + (if decide (AGGREGATE = R)
       then (if decide (status = s ∧ norm_message = m) then 1 else 0)
       else 0).
Proof. unfold message_count. view. Qed.

Lemma times_of_record summaries R :
  times_of (record provider region status channel norm_message dt
     summaries) R
  = (times_of summaries R
     ++ (if decide (region = R) then option_list dt else []))
    ++ (if decide (AGGREGATE = R) then option_list dt else []).
Proof.
  unfold times_of. rewrite summary_of_record.
  repeat case_decide; destruct dt; simpl;
    rewrite ?app_nil_r, <- ?app_assoc; reflexivity.
Qed.

Local Ltac pview :=
  intros; rewrite summary_of_record;
  repeat case_decide; destruct dt; simpl;
  repeat (rewrite ?lookup_insert; repeat case_decide; simpl;
          try congruence);
  rewrite ?counter_get_incr, ?nested_get_incr; simpl;
  repeat case_decide; try tauto; try lia;
  try match goal with H : provider = _ |- _ => rewrite H; lia end.

Lemma provider_status_count_record summaries R P key :
  provider_status_count (record provider region status channel norm_message dt
     summaries) R P key
  = provider_status_count summaries R P key
    + (if decide (region = R)
       then (if decide (provider = P ∧ status = key) then 1 else 0) else 0)
    + (if decide (AGGREGATE = R)
       then (if decide (provider = P ∧ status = key) then 1 else 0) else 0).
Proof. unfold provider_status_count, provider_of. pview. Qed.

Lemma provider_channel_count_record summaries R P key :
  provider_channel_count (record provider region status channel norm_message dt
     summaries) R P key
  = provider_channel_count summaries R P key
    + (if decide (region = R)
       then (if decide (provider = P ∧ channel = key) then 1 else 0) else 0)
    + (if decide (AGGREGATE = R)
       then (if decide (provider = P ∧ channel = key) then 1 else 0)
       else 0).
Proof. unfold provider_channel_count, provider_of. pview. Qed.

Lemma provider_message_count_record summaries R P s m :
  provider_message_count (record provider region status channel norm_message dt
     summaries) R P s m
  = provider_message_count summaries R P s m
    + (if decide (region = R)
       then (if decide (provider = P ∧ status = s ∧ norm_message = m)
             then 1 else 0)
       else 0)
    + (if decide (AGGREGATE = R)
       then (if decide (provider = P ∧ status = s ∧ norm_message = m)
             then 1 else 0)
       else 0).
Proof. unfold provider_message_count, provider_of. pview. Qed.

(** Double-writing keeps the Aggregate bucket equal to the sum of the
    real regions, for a record of a real region. *)
Lemma record_consistent summaries :
  region ∈ REGION_SET →
  aggregate_consistent summaries →
  aggregate_consistent (record provider region status channel norm_message dt
     summaries).
Proof.
  intros Hr (Hs & Hc & Hm & Hps & Hpc & Hpm & Ht).
  assert (region ≠ AGGREGATE) as Hne.
  { intros ->. exact (AGGREGATE_not_in_set Hr). }
  unfold aggregate_consistent. repeat split.
  - intros key. rewrite status_count_record.
    erewrite sum_regions_ext by (intros; apply status_count_record).
    rewrite sum_regions_bump by exact Hr. rewrite Hs.
    repeat case_decide; try congruence; lia.
  - intros key. rewrite channel_count_record.
    erewrite sum_regions_ext by (intros; apply channel_count_record).
    rewrite sum_regions_bump by exact Hr. rewrite Hc.
    repeat case_decide; try congruence; lia.
  - intros s m. rewrite message_count_record.
    erewrite sum_regions_ext by (intros; apply message_count_record).
    rewrite sum_regions_bump by exact Hr. rewrite Hm.
    repeat case_decide; try congruence; try tauto; lia.
  - intros P key. rewrite provider_status_count_record.
    erewrite sum_regions_ext by (intros; apply provider_status_count_record).
    rewrite sum_regions_bump by exact Hr. rewrite Hps.
    repeat case_decide; try congruence; try tauto; lia.
  - intros P key. rewrite provider_channel_count_record.
    erewrite sum_regions_ext by (intros; apply provider_channel_count_record).
    rewrite sum_regions_bump by exact Hr. rewrite Hpc.
    repeat case_decide; try congruence; try tauto; lia.
  - intros P s m. rewrite provider_message_count_record.
    erewrite sum_regions_ext
      by (intros; apply provider_message_count_record).
    rewrite sum_regions_bump by exact Hr. rewrite Hpm.
    repeat case_decide; try congruence; try tauto; lia.
  - rewrite times_of_record.
    rewrite (map_ext _ _ (times_of_record summaries)).
    rewrite (concat_map_indicator _ REGIONS AGGREGATE _ NoDup_REGIONS).
    rewrite (concat_map_indicator _ REGIONS region _ NoDup_REGIONS).
    apply REGION_SET_REGIONS in Hr.
    destruct (decide (region ∈ REGIONS)); [|contradiction].
    destruct (decide (AGGREGATE ∈ REGIONS)) as [H|];
      [exfalso; exact (AGGREGATE_not_region H)|].
    destruct (decide (region = AGGREGATE)); [congruence|].
    destruct (decide (AGGREGATE = AGGREGATE)); [|congruence].
    rewrite !app_nil_r. rewrite Ht. reflexivity.
Qed.

End RecordViews.

(** ** The validation gate and the invariant of the aggregation pass *)

Section Ingest.

Context {datetime : Type}.
Variable fromisoformat : str → option datetime.
Implicit Types st : state datetime.

Lemma summary_of_initial (R : str) :
  summary_of (datetime := datetime) initial.2 R = RegionSummary.empty.
Proof.
  unfold summary_of, initial. simpl.
  destruct (decide (AGGREGATE = R)) as [<-|Hne].
  - rewrite lookup_singleton_eq. reflexivity.
  - rewrite lookup_singleton_ne by exact Hne. reflexivity.
Qed.

Lemma initial_consistent :
  aggregate_consistent (datetime := datetime) initial.2.
Proof.
  unfold aggregate_consistent, status_count, channel_count, message_count,
    provider_status_count, provider_channel_count, provider_message_count,
    provider_of, times_of, sum_regions.
  repeat split; intros; rewrite ?summary_of_initial; simpl;
    rewrite ?summary_of_initial; reflexivity.
Qed.

(** What the gate decides for a candidate: [None] where it is dropped,
    otherwise the channel and the timestamp it is recorded with. *)
Lemma ingest_cases st (c : candidate) :
  (ingest fromisoformat st c = st
   ∧ (((cand_region c ∉ REGION_SET) ∧ cand_region c ≠ AGGREGATE)
      ∨ (cand_status c ∉ STATUSES)
      ∨ resolve_timestamp fromisoformat (cand_payment_date c) = None))
  ∨ (∃ dt,
       (cand_region c ∈ REGION_SET ∨ cand_region c = AGGREGATE)
       ∧ cand_status c ∈ STATUSES
       ∧ resolve_timestamp fromisoformat (cand_payment_date c) = Some dt
       ∧ (let channel := if in_set (cand_channel c) CHANNELS
                         then cand_channel c else py "other" in
          let norm_message := _normalise_message (Some (cand_message c)) in
          ingest fromisoformat st c
          = (st.1 ++ [Transaction (cand_provider c) (cand_region c)
                        (cand_status c) channel norm_message dt
                        (cand_customer c)],
             record (cand_provider c) (cand_region c) (cand_status c)
               channel norm_message dt st.2))).
Proof.
  destruct st as [transactions summaries]. unfold ingest.
  destruct (in_set (cand_region c) REGION_SET) eqn:Hr; simpl.
  - apply in_set_true in Hr.
    destruct (in_set (cand_status c) STATUSES) eqn:Hs; simpl.
    + apply in_set_true in Hs.
      destruct (resolve_timestamp fromisoformat (cand_payment_date c))
        as [dt|] eqn:Hdt.
      * right. exists dt.
        split; [left; exact Hr|]. split; [exact Hs|].
        split; [reflexivity|].
        destruct (in_set (cand_channel c) CHANNELS); reflexivity.
      * left. split; [reflexivity|]. right. right. reflexivity.
    + apply in_set_false in Hs. left. split; [reflexivity|].
      right. left. exact Hs.
  - apply in_set_false in Hr.
    destruct (Str.eqb (cand_region c) AGGREGATE) eqn:Ha; simpl.
    + apply str_eqb_eq in Ha.
      destruct (in_set (cand_status c) STATUSES) eqn:Hs; simpl.
      * apply in_set_true in Hs.
        destruct (resolve_timestamp fromisoformat (cand_payment_date c))
          as [dt|] eqn:Hdt.
        -- right. exists dt.
           split; [right; exact Ha|]. split; [exact Hs|].
           split; [reflexivity|].
           destruct (in_set (cand_channel c) CHANNELS); reflexivity.
        -- left. split; [reflexivity|]. right. right. reflexivity.
      * apply in_set_false in Hs. left. split; [reflexivity|].
        right. left. exact Hs.
    + apply str_eqb_neq in Ha. left. split; [reflexivity|].
      left. split; assumption.
Qed.

Lemma ingest_consistent st (c : candidate) :
  cand_region c ≠ AGGREGATE →
  aggregate_consistent st.2 →
  aggregate_consistent (ingest fromisoformat st c).2.
Proof.
  intros Hne Hinv.
  destruct (ingest_cases st c) as [[-> _]|(dt & Hr & _ & _ & ->)];
    [exact Hinv|].
  simpl. apply record_consistent; [|exact Hinv].
  destruct Hr as [Hr|Hr]; [exact Hr | contradiction].
Qed.

Lemma ingest_all_consistent st (cs : list candidate) :
  Forall (fun c => cand_region c ≠ AGGREGATE) cs →
  aggregate_consistent st.2 →
  aggregate_consistent (ingest_all fromisoformat st cs).2.
Proof.
  intros Hcs. revert st. unfold ingest_all.
  induction Hcs as [|c cs Hc Hcs IH]; intros st Hinv; simpl.
  - exact Hinv.
  - apply IH. apply ingest_consistent; assumption.
Qed.

Lemma well_formed_not_aggregate (c : candidate) :
  well_formed c → cand_region c ≠ AGGREGATE.
Proof.
  intros (_ & Hr & _) Heq. rewrite Heq in Hr.
  exact (AGGREGATE_not_in_set Hr).
Qed.

Variables provider_iter region_iter : list str.

Lemma ingest_row_consistent (default_dt : str) st (row : list str) :
  aggregate_consistent st.2 →
  aggregate_consistent
    (ingest_row fromisoformat provider_iter region_iter default_dt st row).2.
Proof.
  intros Hinv. unfold ingest_row. destruct row as [|cell row]; [exact Hinv|].
  apply ingest_all_consistent; [|exact Hinv].
  eapply Forall_impl;
    [apply extract_transactions_well_formed|].
  apply well_formed_not_aggregate.
Qed.

(** Every run of [parse_csv] on a file with a header returns summaries
    whose Aggregate bucket mirrors the real regions. *)
Lemma parse_csv_consistent (header : list str) (rows : list (list str)) :
  ∃ st,
    parse_csv fromisoformat provider_iter region_iter (header :: rows)
      = Some st
    ∧ aggregate_consistent st.2.
Proof.
  eexists. split; [reflexivity|].
  generalize (default_dt_of header). intros default_dt.
  assert (∀ st, aggregate_consistent st.2 →
    aggregate_consistent
      (fold_left
         (ingest_row fromisoformat provider_iter region_iter default_dt)
         rows st).2) as H.
  { induction rows as [|row rows IH]; intros st Hinv; simpl.
    - exact Hinv.
    - apply IH. apply ingest_row_consistent. exact Hinv. }
  apply H. apply initial_consistent.
Qed.

End Ingest.

(** C1, as stated, fails for a record that names the roll-up bucket as its
    region: the gate lets the region [Aggregate] through (line 248), and the
    record is written twice to the Aggregate summary and to no real
    region. *)
Lemma aggregate_record_breaks_mirror :
  let c :=
    Candidate (py "cellulant") (py "Aggregate") (py "successful") (py "card")
      (py "Payment received") (py "<missing-date>") (py "a@x.com") in
  let st := ingest_all Iso.fromisoformat initial [c] in
  status_count st.2 AGGREGATE (py "successful") = 2
  ∧ sum_regions (fun r => status_count st.2 r (py "successful")) = 0
  ∧ ¬ aggregate_consistent st.2.
Proof.
  intros c st.
  assert (status_count st.2 AGGREGATE (py "successful") = 2) as H2
    by (vm_compute; reflexivity).
  assert (sum_regions (fun r => status_count st.2 r (py "successful")) = 0)
    as H0 by (vm_compute; reflexivity).
  split; [exact H2|]. split; [exact H0|].
  intros (H & _). specialize (H (py "successful")).
  rewrite H2, H0 in H. discriminate H.
Qed.

(** C1, amended.  After ingesting any finite sequence of records none of
    which names the roll-up bucket [Aggregate] as its region, every status,
    channel and (status, normalised message) count of the Aggregate summary,
    and of each of its per-provider buckets, equals the sum of that count
    over the five real-region summaries, and the Aggregate timestamp list
    holds exactly the timestamps appended to the real regions.  That is so
    in particular after every run of [parse_csv], whatever the file: the
    records [extract_transactions] yields carry one of the five regions. *)
Theorem aggregate_mirrors_regions {datetime : Type}
  (fromisoformat : str → option datetime)
  (provider_iter region_iter : list str) :
  (∀ records,
     Forall (fun c => cand_region c ≠ AGGREGATE) records →
     aggregate_consistent (ingest_all fromisoformat initial records).2)
  ∧ (∀ header rows,
       ∃ st,
         parse_csv fromisoformat provider_iter region_iter (header :: rows)
           = Some st
         ∧ aggregate_consistent st.2).
Proof.
  split.
  - intros records Hrecords.
    apply ingest_all_consistent; [exact Hrecords|].
    apply initial_consistent.
  - intros header rows. apply parse_csv_consistent.
Qed.

Lemma aggregate_mirrors_regions_witness :
  let records :=
    [Candidate (py "cellulant") (py "Nigeria") (py "successful") (py "card")
       (py "Payment received") (py "2024-01-01T10:00:00Z") (py "a@x.com");
     Candidate (py "hubtel") (py "Ghana") (py "failed") (py "ussd")
       (py "Insufficient funds") (py "<missing-date>") (py "b@y.com");
     Candidate (py "ozow") (py "Atlantis") (py "failed") (py "eft")
       (py "No such market") (py "2024-01-03T09:30:00") (py "c@z.com")] in
  Forall (fun c => cand_region c ≠ AGGREGATE) records
  ∧ aggregate_consistent (ingest_all Iso.fromisoformat initial records).2.
Proof.
  intros records.
  assert (Forall (fun c => cand_region c ≠ AGGREGATE) records) as H.
  { repeat constructor; intros E; vm_compute in E; discriminate E. }
  split; [exact H|].
  exact (proj1 (aggregate_mirrors_regions Iso.fromisoformat [] [])
           records H).
Defined.

(** ** Channel keys *)

Lemma other_not_channel : py "other" ∉ CHANNELS.
Proof. apply (bool_decide_unpack _). vm_compute. exact I. Qed.

Lemma dom_counter_incr (k : str) (c : gmap str nat) :
  dom (counter_incr k c) = {[k]} ∪ dom c.
Proof. unfold counter_incr. apply dom_insert_L. Qed.

Lemma provider_bump_closed (status channel norm_message : str)
  (p : ProviderSummary.t) :
  channel ∈ CHANNELS →
  provider_channels_closed p →
  provider_channels_closed
    (ProviderSummary.bump status channel norm_message p).
Proof.
  unfold provider_channels_closed. simpl. rewrite dom_counter_incr.
  intros Hch Hp x Hx. apply elem_of_union in Hx. destruct Hx as [Hx|Hx].
  - apply elem_of_singleton in Hx. subst x. exact Hch.
  - apply Hp. exact Hx.
Qed.

Section ChannelKeys.

Context {datetime : Type}.
Implicit Types r : RegionSummary.t datetime.
Implicit Types summaries : gmap str (RegionSummary.t datetime).

Lemma empty_closed :
  region_channels_closed (RegionSummary.empty (datetime := datetime)).
Proof.
  split; simpl.
  - rewrite dom_empty_L. apply empty_subseteq.
  - apply map_Forall_empty.
Qed.

Lemma append_time_closed dt r :
  region_channels_closed r →
  region_channels_closed (RegionSummary.append_time dt r).
Proof. intros [H1 H2]. split; assumption. Qed.

Lemma bump_closed status channel norm_message r :
  channel ∈ CHANNELS →
  region_channels_closed r →
  region_channels_closed (RegionSummary.bump status channel norm_message r).
Proof.
  intros Hch [H1 H2]. split; simpl; [|exact H2].
  rewrite dom_counter_incr.
  intros x Hx. apply elem_of_union in Hx. destruct Hx as [Hx|Hx].
  - apply elem_of_singleton in Hx. subst x. exact Hch.
  - apply H1. exact Hx.
Qed.

Lemma bump_provider_closed provider status channel norm_message r :
  channel ∈ CHANNELS →
  region_channels_closed r →
  region_channels_closed
    (RegionSummary.bump_provider provider status channel norm_message r).
Proof.
  intros Hch [H1 H2]. split; simpl; [exact H1|].
  apply map_Forall_insert_2; [|exact H2].
  apply provider_bump_closed; [exact Hch|].
  destruct (RegionSummary.providers r !! provider) as [p|] eqn:Hp; simpl.
  - exact (H2 _ _ Hp).
  - unfold provider_channels_closed. simpl. rewrite dom_empty_L.
    apply empty_subseteq.
Qed.

Lemma modify_closed key (f : RegionSummary.t datetime → _) summaries :
  (∀ r, region_channels_closed r → region_channels_closed (f r)) →
  channel_keys_closed summaries →
  channel_keys_closed (modify key f summaries).
Proof.
  intros Hf Hs. unfold modify. apply map_Forall_insert_2; [|exact Hs].
  apply Hf. unfold summary_of.
  destruct (summaries !! key) as [r|] eqn:Hr; simpl.
  - exact (Hs _ _ Hr).
  - apply empty_closed.
Qed.

Lemma record_closed provider region status channel norm_message
  (dt : option datetime) summaries :
  channel ∈ CHANNELS →
  channel_keys_closed summaries →
  channel_keys_closed
    (record provider region status channel norm_message dt summaries).
Proof.
  intros Hch Hs. unfold record.
  repeat (apply modify_closed;
          [intros r Hr;
           first [ apply bump_provider_closed; assumption
                 | apply bump_closed; assumption
                 | exact Hr ] |]).
  destruct dt as [dt|].
  - repeat (apply modify_closed;
            [intros r Hr; first [apply append_time_closed; exact Hr
                                | exact Hr] |]).
    exact Hs.
  - apply modify_closed; [intros r Hr; exact Hr | exact Hs].
Qed.

Variable fromisoformat : str → option datetime.

Lemma ingest_closed (st : state datetime) (c : candidate) :
  cand_channel c ∈ CHANNELS →
  channels_closed st →
  channels_closed (ingest fromisoformat st c).
Proof.
  intros Hch [Htx Hs].
  destruct (ingest_cases fromisoformat st c) as [[-> _]|(dt & _ & _ & _ & E)];
    [split; assumption|].
  simpl in E. rewrite E.
  apply in_set_true in Hch. rewrite Hch.
  apply in_set_true in Hch. split; simpl.
  - apply Forall_app. split; [exact Htx|]. repeat constructor. exact Hch.
  - apply record_closed; assumption.
Qed.

Variables provider_iter region_iter : list str.

Lemma ingest_row_closed (default_dt : str) (st : state datetime)
  (row : list str) :
  channels_closed st →
  channels_closed
    (ingest_row fromisoformat provider_iter region_iter default_dt st row).
Proof.
  intros Hst. unfold ingest_row. destruct row as [|cell row]; [exact Hst|].
  pose proof (extract_transactions_well_formed provider_iter region_iter
                (cell :: row) default_dt) as Hwf.
  revert st Hst. unfold ingest_all.
  induction Hwf as [|c cs Hc Hcs IH]; intros st Hst; simpl.
  - exact Hst.
  - apply IH. apply ingest_closed; [|exact Hst].
    destruct Hc as (_ & _ & _ & Hch). exact Hch.
Qed.

Lemma closed_no_other summaries :
  channel_keys_closed summaries → no_other_channel summaries.
Proof.
  intros Hs R r Hr. destruct (Hs R r Hr) as [H1 H2]. split.
  - apply not_elem_of_dom. intros Hin. apply other_not_channel.
    apply H1. exact Hin.
  - intros P p Hp. apply not_elem_of_dom. intros Hin.
    apply other_not_channel. apply (H2 P p Hp). exact Hin.
Qed.

End ChannelKeys.

(** C10. Every candidate [extract_transactions] yields has its channel in
    the closed set of four channels; hence in a run of [parse_csv] the
    coercion to [other] is never taken: every recorded transaction keeps a
    channel of the closed set, and [other] is a channel key of no region
    summary and of no provider summary. *)
Theorem extractor_channels_closed {datetime : Type}
  (fromisoformat : str → option datetime)
  (provider_iter region_iter : list str) :
  (∀ row default_dt,
     Forall (fun c => in_set (cand_channel c) CHANNELS = true)
       (extract_transactions provider_iter region_iter row default_dt))
  ∧ (∀ header rows,
       ∃ st,
         parse_csv fromisoformat provider_iter region_iter (header :: rows)
           = Some st
         ∧ Forall (fun tx => in_set (tx_channel tx) CHANNELS = true) st.1
         ∧ no_other_channel st.2).
Proof.
  split.
  - intros row default_dt.
    eapply Forall_impl; [apply extract_transactions_well_formed|].
    intros c (_ & _ & _ & Hch). apply in_set_true. exact Hch.
  - intros header rows. eexists. split; [reflexivity|].
    generalize (default_dt_of header). intros default_dt.
    assert (∀ st, channels_closed st →
      channels_closed
        (fold_left
           (ingest_row fromisoformat provider_iter region_iter default_dt)
           rows st)) as H.
    { induction rows as [|row rows IH]; intros st Hst; simpl.
      - exact Hst.
      - apply IH. apply ingest_row_closed. exact Hst. }
    destruct (H initial) as [Htx Hs].
    { split; simpl; [constructor|].
      apply map_Forall_singleton. apply empty_closed. }
    split.
    + eapply Forall_impl; [exact Htx|]. intros tx Htx'.
      apply in_set_true. exact Htx'.
    + apply closed_no_other. exact Hs.
Qed.

(** ** The validation gate *)

(** C4, as stated, fails: a candidate whose region is the literal
    [Aggregate] is outside the five regions, yet the gate of line 248 lets
    it through; it is recorded, and both writes land on the Aggregate
    summary. *)
Lemma gate_passes_aggregate_region :
  let c :=
    Candidate (py "cellulant") (py "Aggregate") (py "successful") (py "card")
      (py "Payment received") (py "<missing-date>") (py "a@x.com") in
  let st := ingest Iso.fromisoformat initial c in
  in_set (cand_region c) REGION_SET = false
  ∧ st ≠ initial
  ∧ length st.1 = 1
  ∧ status_count st.2 (py "Aggregate") (py "successful") = 2.
Proof.
  intros c st. split; [vm_compute; reflexivity|].
  assert (length st.1 = 1) as Hlen by (vm_compute; reflexivity).
  split; [|split; [exact Hlen | vm_compute; reflexivity]].
  intros E. rewrite E in Hlen. vm_compute in Hlen. discriminate Hlen.
Qed.

(** C4, amended.  At the gate: a candidate whose region is neither one of
    the five regions nor the literal [Aggregate] is dropped and nothing is
    mutated; a candidate whose status is outside the closed set is dropped
    and nothing is mutated; a candidate of a real region and a known status
    whose channel is outside the four channels is not dropped for that: once
    its timestamp resolves it is recorded with channel [other], and the
    [other] counters of its region, of Aggregate and of their provider
    buckets go up by one. *)
Theorem gate_amended {datetime : Type} (fromisoformat : str → option datetime)
  (st : state datetime) (c : candidate) :
  (cand_region c ∉ REGION_SET → cand_region c ≠ AGGREGATE →
   ingest fromisoformat st c = st)
  ∧ (cand_status c ∉ STATUSES → ingest fromisoformat st c = st)
  ∧ (cand_channel c ∉ CHANNELS →
     cand_region c ∈ REGION_SET →
     cand_status c ∈ STATUSES →
     ∀ dt, resolve_timestamp fromisoformat (cand_payment_date c) = Some dt →
     let st' := ingest fromisoformat st c in
     st'.1 = st.1 ++ [Transaction (cand_provider c) (cand_region c)
                        (cand_status c) (py "other")
                        (_normalise_message (Some (cand_message c))) dt
                        (cand_customer c)]
     ∧ channel_count st'.2 (cand_region c) (py "other")
       = channel_count st.2 (cand_region c) (py "other") + 1
     ∧ channel_count st'.2 AGGREGATE (py "other")
       = channel_count st.2 AGGREGATE (py "other") + 1
     ∧ provider_channel_count st'.2 (cand_region c) (cand_provider c)
         (py "other")
       = provider_channel_count st.2 (cand_region c) (cand_provider c)
           (py "other") + 1
     ∧ provider_channel_count st'.2 AGGREGATE (cand_provider c) (py "other")
       = provider_channel_count st.2 AGGREGATE (cand_provider c)
           (py "other") + 1).
Proof.
  destruct st as [transactions summaries]. unfold ingest.
  split; [|split].
  - intros Hr Ha. apply in_set_false in Hr. apply str_eqb_neq in Ha.
    rewrite Hr, Ha. reflexivity.
  - intros Hs. apply in_set_false in Hs. rewrite Hs.
    destruct (negb (in_set (cand_region c) REGION_SET)
              && negb (Str.eqb (cand_region c) AGGREGATE)); reflexivity.
  - intros Hch Hr Hs dt Hdt.
    assert (cand_region c ≠ AGGREGATE) as Hne.
    { intros E. rewrite E in Hr. exact (AGGREGATE_not_in_set Hr). }
    apply in_set_false in Hch. apply in_set_true in Hr.
    apply in_set_true in Hs. rewrite Hr, Hs, Hch, Hdt. simpl.
    split; [reflexivity|].
    rewrite !channel_count_record, !provider_channel_count_record.
    repeat case_decide; try congruence; try tauto; repeat split; lia.
Qed.

Lemma gate_amended_witness :
  let unknown_region :=
    Candidate (py "cellulant") (py "Atlantis") (py "successful") (py "card")
      (py "Payment received") (py "2024-01-01T10:00:00") (py "a@x.com") in
  let unknown_status :=
    Candidate (py "cellulant") (py "Nigeria") (py "pending") (py "card")
      (py "Payment received") (py "2024-01-01T10:00:00") (py "a@x.com") in
  let unknown_channel :=
    Candidate (py "cellulant") (py "Nigeria") (py "successful") (py "ussd")
      (py "Payment received") (py "2024-01-01T10:00:00") (py "a@x.com") in
  ingest Iso.fromisoformat initial unknown_region = initial
  ∧ ingest Iso.fromisoformat initial unknown_status = initial
  ∧ channel_count (ingest Iso.fromisoformat initial unknown_channel).2
      (py "Nigeria") (py "other") = 1.
Proof.
  intros unknown_region unknown_status unknown_channel.
  split; [|split].
  - apply (proj1 (gate_amended Iso.fromisoformat initial unknown_region)).
    + apply in_set_false. vm_compute. reflexivity.
    + intros E. vm_compute in E. discriminate E.
  - apply (proj1 (proj2 (gate_amended Iso.fromisoformat initial
                           unknown_status))).
    apply in_set_false. vm_compute. reflexivity.
  - refine (proj1 (proj2
      (proj2 (proj2 (gate_amended Iso.fromisoformat initial
                       unknown_channel)) _ _ _ _ _))).
    + apply in_set_false. vm_compute. reflexivity.
    + apply in_set_true. vm_compute. reflexivity.
    + apply in_set_true. vm_compute. reflexivity.
    + vm_compute. reflexivity.
Defined.

(** ** Timestamps *)

Lemma is_digit_lower (c : ascii) :
  Char.is_digit (Char.lower c) = Char.is_digit c.
Proof.
  destruct c as [[] [] [] [] [] [] [] []]; vm_compute; reflexivity.
Qed.

Lemma head_digit_lower (s : str) : head_digit (Str.lower s) = head_digit s.
Proof. destruct s as [|c s]; simpl; [reflexivity | apply is_digit_lower]. Qed.

Lemma iso_match_head_digit (s : str) :
  Re.iso_match s = true → head_digit s = true.
Proof.
  destruct s as [|c s]; simpl; [discriminate|].
  do 10 (destruct s as [|? s]; [discriminate|]).
  rewrite !andb_true_iff. tauto.
Qed.

Lemma iso_match_nonempty (s : str) :
  Re.iso_match s = true → Str.nonempty s = true.
Proof. destruct s; simpl; [discriminate | reflexivity]. Qed.

Lemma channel_not_iso (cell : str) :
  in_set (Str.lower (Str.strip cell)) CHANNELS = true →
  Re.iso_match (Str.strip cell) = false.
Proof.
  intros Hin. destruct (Re.iso_match (Str.strip cell)) eqn:Hiso; [|reflexivity].
  apply iso_match_head_digit in Hiso. rewrite <- head_digit_lower in Hiso.
  apply in_set_true in Hin. unfold CHANNELS in Hin.
  apply elem_of_list_to_set in Hin.
  repeat (apply elem_of_cons in Hin; destruct Hin as [Hin|Hin];
          [rewrite Hin in Hiso; vm_compute in Hiso; discriminate Hiso|]).
  inversion Hin.
Qed.

Lemma mode_not_iso (cell : str) :
  Str.mem (Str.lower (Str.strip cell)) [py "live"; py "test"] = true →
  Re.iso_match (Str.strip cell) = false.
Proof.
  intros Hin. destruct (Re.iso_match (Str.strip cell)) eqn:Hiso; [|reflexivity].
  apply iso_match_head_digit in Hiso. rewrite <- head_digit_lower in Hiso.
  unfold Str.mem in Hin. simpl in Hin.
  rewrite !orb_true_iff, !str_eqb_eq in Hin.
  destruct Hin as [Hin|[Hin|Hin]]; [| |discriminate Hin];
    rewrite Hin in Hiso; vm_compute in Hiso; discriminate Hiso.
Qed.

(** The message loop either consumes an ISO token as its last cell, which
    becomes the payment date, or leaves the payment date unset and stops
    before a cell or after a message part that is not an ISO token. *)
Lemma scan_message_date (row : list str) (fuel idx : nat)
  (parts : list str) :
  let '(_, payment_date, idx') := scan_message row idx fuel parts in
  (payment_date = []
   ∧ (idx' = idx
      ∨ (idx < idx'
         ∧ Re.iso_match (Str.strip (row !!! (idx' - 1))) = false)))
  ∨ (idx < idx'
     ∧ payment_date = Str.strip (row !!! (idx' - 1))
     ∧ Re.iso_match payment_date = true).
Proof.
  revert idx parts. induction fuel as [|fuel IH]; intros idx parts; simpl.
  - left. auto.
  - destruct (row !! idx) as [raw|] eqn:Hraw; simpl; [|left; auto].
    destruct (Re.iso_match (Str.strip raw)) eqn:Hiso.
    { right. replace (idx + 1 - 1) with idx by lia.
      rewrite (list_lookup_total_correct _ _ _ Hraw).
      split; [lia|]. split; [reflexivity | exact Hiso]. }
    repeat (match goal with
            | |- context [if ?b then (_, _, _) else _] =>
                destruct b; [left; auto|]
            end).
    specialize (IH (idx + 1) (parts ++ [raw])).
    destruct (scan_message row (idx + 1) fuel (parts ++ [raw]))
      as [[parts' payment_date] idx'].
    destruct IH as [[Hpd [Hidx|[Hlt Hni]]]|(Hlt & Hpd & Hi)].
    + left. split; [exact Hpd|]. right. split; [lia|].
      subst idx'. replace (idx + 1 - 1) with idx by lia.
      rewrite (list_lookup_total_correct _ _ _ Hraw). exact Hiso.
    + left. split; [exact Hpd|]. right. split; [lia | exact Hni].
    + right. split; [lia|]. split; assumption.
Qed.

Section PaymentDate.

Variables provider_iter region_iter : list str.

(** The payment date of a yielded candidate: the ISO token the message loop
    consumed last, and the file-level default when it consumed none. *)
Lemma extract_step_payment_date (row : list str) (default_dt : str)
  (i k idx : nat) (c : candidate) :
  extract_step provider_iter region_iter row default_dt i
    = Some (Emitted k c idx) →
  cand_payment_date c
  = if Re.iso_match (Str.strip (row !!! (idx - 1)))
    then Str.strip (row !!! (idx - 1))
    else default_dt.
Proof.
  unfold extract_step.
  destruct (_find_next_provider_index row i) as [k'|] eqn:Hk; [|discriminate].
  pose proof (scan_customer_bounds row (length row - (k' + 2)) (k' + 2) [])
    as Hc.
  destruct (scan_customer row (k' + 2) (length row - (k' + 2)) [])
    as [idx1 parts]. simpl in Hc.
  destruct (length row <=? idx1) eqn:H1; [discriminate|].
  apply Nat.leb_gt in H1.
  pose proof (scan_channel_bounds row (length row - (idx1 + 1)) (idx1 + 1))
    as Hch.
  pose proof (scan_channel_stop row (length row - (idx1 + 1)) (idx1 + 1))
    as Hchs.
  set (idx2 := scan_channel row (idx1 + 1) (length row - (idx1 + 1))) in *.
  destruct (length row <=? idx2) eqn:H2; [discriminate|].
  apply Nat.leb_gt in H2.
  assert (Re.iso_match (Str.strip (row !!! idx2)) = false) as Hchannel.
  { apply channel_not_iso. apply in_set_true. apply Hchs; lia. }
  set (idx3 := if _ && _ then idx2 + 1 + 1 else idx2 + 1).
  assert (0 < idx3
          ∧ Re.iso_match (Str.strip (row !!! (idx3 - 1))) = false) as [H3 H3i].
  { subst idx3. destruct (bool_decide (idx2 + 1 < length row)) eqn:Hd;
      cbn [andb].
    - match goal with
      | |- context [Str.mem ?x ?l] => destruct (Str.mem x l) eqn:Hmode
      end.
      + split; [lia|]. replace (idx2 + 1 + 1 - 1) with (idx2 + 1) by lia.
        apply mode_not_iso. exact Hmode.
      + split; [lia|]. replace (idx2 + 1 - 1) with idx2 by lia.
        exact Hchannel.
    - split; [lia|]. replace (idx2 + 1 - 1) with idx2 by lia.
      exact Hchannel. }
  pose proof (scan_message_date row (length row - idx3) idx3 []) as Hm.
  destruct (scan_message row idx3 (length row - idx3) [])
    as [[message_parts payment_date] idx4].
  intros [= <- <- <-]. simpl.
  destruct Hm as [[-> [->|[_ Hni]]]|(_ & -> & Hi)].
  - rewrite H3i. reflexivity.
  - rewrite Hni. reflexivity.
  - rewrite Hi. rewrite (iso_match_nonempty _ Hi). reflexivity.
Qed.

End PaymentDate.

Lemma default_dt_of_none (header : list str) :
  Forall (fun col => Re.iso_match (Str.strip col) = false) header →
  default_dt_of header = DEFAULT_DATE_PLACEHOLDER.
Proof.
  unfold default_dt_of. induction 1 as [|col header Hcol _ IH]; simpl.
  - reflexivity.
  - rewrite Hcol. exact IH.
Qed.

Lemma default_dt_of_first (before after : list str) (col : str) :
  Forall (fun col => Re.iso_match (Str.strip col) = false) before →
  Re.iso_match (Str.strip col) = true →
  default_dt_of (before ++ col :: after) = Str.strip col.
Proof.
  unfold default_dt_of. intros Hb Hcol.
  induction Hb as [|x before Hx _ IH]; simpl.
  - rewrite Hcol. destruct col as [|ch col]; [discriminate Hcol|].
    reflexivity.
  - rewrite Hx. exact IH.
Qed.

Lemma placeholder_without_z :
  Str.replace (py "Z") DEFAULT_TZ_SUFFIX DEFAULT_DATE_PLACEHOLDER
  = DEFAULT_DATE_PLACEHOLDER.
Proof. vm_compute. reflexivity. Qed.

(** C6, as stated, fails on the substitution: the script replaces every
    [Z] of the token, not a trailing one.  The token below starts like an
    ISO date, has no trailing [Z] and is no ISO text, so by the claim its
    record is discarded; the script turns its inner [Z] into an offset,
    parses the result and records the transaction. *)
Lemma inner_z_token_is_accepted :
  let token := py "2024-01-01T10:00Z:30" in
  let rows :=
    [[py "provider"; py "region"; py "customer"; py "status"; py "channel";
      py "message"; py "date"];
     [py "cellulant"; py "Nigeria"; py "a@x.com"; py "successful"; py "card";
      py "Payment received"; token]] in
  Re.iso_match token = true
  ∧ token ≠ DEFAULT_DATE_PLACEHOLDER
  ∧ Iso.fromisoformat (substitute_trailing_z token) = None
  ∧ ∃ st tx,
      parse_csv Iso.fromisoformat (elements PROVIDERS) REGIONS rows = Some st
      ∧ st.1 = [tx]
      ∧ tx_dt tx = Some (Iso.Build 2024 1 1 10 0 0 (Some (false, 0, 0, 30))).
Proof.
  intros token rows.
  split; [vm_compute; reflexivity|].
  split; [intros E; vm_compute in E; discriminate E|].
  split; [vm_compute; reflexivity|].
  eexists. eexists. split; [reflexivity|].
  split; vm_compute; reflexivity.
Qed.

Lemma ingest_all_app {datetime : Type} (fromisoformat : str → option datetime)
  (st : state datetime) (xs ys : list candidate) :
  ingest_all fromisoformat st (xs ++ ys)
  = ingest_all fromisoformat (ingest_all fromisoformat st xs) ys.
Proof. unfold ingest_all. apply fold_left_app. Qed.

(** C6, amended.  Timestamp resolution: (1) a record whose payment date,
    with every [Z] replaced by the UTC offset, is not ISO text and is not
    the missing-date sentinel is discarded, and only that record: the
    records around it are ingested as if it were absent; (2) a yielded
    candidate carries the ISO token its message loop consumed last, and the
    file-level default when it consumed none; (3) the file-level default is
    the first header cell that matches the ISO date prefix, trimmed, and the
    missing-date sentinel when no header cell matches; (4) the sentinel is
    never treated as a parse failure: a record of a real region and known
    status that carries it is recorded, without a timestamp when the parser
    rejects the sentinel text. *)
Theorem timestamp_resolution_amended {datetime : Type}
  (fromisoformat : str → option datetime) :
  (∀ c,
     fromisoformat
       (Str.replace (py "Z") DEFAULT_TZ_SUFFIX (cand_payment_date c)) = None →
     cand_payment_date c ≠ DEFAULT_DATE_PLACEHOLDER →
     ∀ st before after,
       ingest_all fromisoformat st (before ++ c :: after)
       = ingest_all fromisoformat st (before ++ after))
  ∧ (∀ provider_iter region_iter row default_dt i k c idx,
       extract_step provider_iter region_iter row default_dt i
         = Some (Emitted k c idx) →
       cand_payment_date c
       = if Re.iso_match (Str.strip (row !!! (idx - 1)))
         then Str.strip (row !!! (idx - 1))
         else default_dt)
  ∧ (∀ before col after,
       Forall (fun col => Re.iso_match (Str.strip col) = false) before →
       Re.iso_match (Str.strip col) = true →
       default_dt_of (before ++ col :: after) = Str.strip col)
  ∧ (∀ header,
       Forall (fun col => Re.iso_match (Str.strip col) = false) header →
       default_dt_of header = DEFAULT_DATE_PLACEHOLDER)
  ∧ (∀ st c,
       cand_payment_date c = DEFAULT_DATE_PLACEHOLDER →
       cand_region c ∈ REGION_SET →
       cand_status c ∈ STATUSES →
       ∃ tx,
         (ingest fromisoformat st c).1 = st.1 ++ [tx]
         ∧ tx_dt tx = fromisoformat DEFAULT_DATE_PLACEHOLDER).
Proof.
  split; [|split; [|split; [|split]]].
  - intros c Hparse Hne st before after.
    rewrite !ingest_all_app.
    set (st' := ingest_all fromisoformat st before).
    unfold ingest_all. simpl.
    destruct (ingest_cases fromisoformat st' c)
      as [[E _]|(dt & _ & _ & Hdt & _)]; [rewrite E; reflexivity|].
    unfold resolve_timestamp in Hdt. rewrite Hparse in Hdt.
    apply str_eqb_neq in Hne. rewrite Hne in Hdt. discriminate Hdt.
  - intros provider_iter region_iter row default_dt i k c idx.
    apply extract_step_payment_date.
  - intros before col after. apply default_dt_of_first.
  - apply default_dt_of_none.
  - intros st c Hpd Hr Hs.
    destruct (ingest_cases fromisoformat st c)
      as [[_ [[Hnr _]|[Hns|Hdt]]]|(dt & _ & _ & Hdt & E)].
    + contradiction.
    + contradiction.
    + exfalso. unfold resolve_timestamp in Hdt.
      rewrite Hpd, placeholder_without_z, str_eqb_refl in Hdt.
      destruct (fromisoformat DEFAULT_DATE_PLACEHOLDER); discriminate Hdt.
    + simpl in E. rewrite E. eexists. split; [reflexivity|]. simpl.
      unfold resolve_timestamp in Hdt.
      rewrite Hpd, placeholder_without_z, str_eqb_refl in Hdt.
      destruct (fromisoformat DEFAULT_DATE_PLACEHOLDER);
        injection Hdt as <-; reflexivity.
Qed.

Lemma timestamp_resolution_amended_witness :
  let good :=
    Candidate (py "cellulant") (py "Nigeria") (py "successful") (py "card")
      (py "Payment received") (py "2024-01-01T10:00:00Z") (py "a@x.com") in
  let bad :=
    Candidate (py "hubtel") (py "Ghana") (py "failed") (py "card")
      (py "Insufficient funds") (py "2024-13-01T10:00:00") (py "b@y.com") in
  let undated :=
    Candidate (py "ozow") (py "Kenya") (py "failed") (py "eft")
      (py "Timeout") (py "<missing-date>") (py "c@z.com") in
  let row :=
    [py "cellulant"; py "Nigeria"; py "a@x.com"; py "successful"; py "card";
     py "Payment received"] in
  ingest_all Iso.fromisoformat initial ([good] ++ bad :: [undated])
  = ingest_all Iso.fromisoformat initial ([good] ++ [undated])
  ∧ (∃ k c idx,
       extract_step (elements PROVIDERS) REGIONS row (py "2024-05-05T00:00:00")
         0 = Some (Emitted k c idx)
       ∧ cand_payment_date c = py "2024-05-05T00:00:00")
  ∧ default_dt_of [py "id"; py " 2024-05-05T00:00:00 "; py "2024-06-06T"]
    = py "2024-05-05T00:00:00"
  ∧ default_dt_of [py "id"; py "date"] = py "<missing-date>"
  ∧ ∃ tx,
      (ingest Iso.fromisoformat initial undated).1 = [tx] ∧ tx_dt tx = None.
Proof.
  intros good bad undated row.
  pose proof (timestamp_resolution_amended Iso.fromisoformat)
    as (H1 & H2 & H3 & H4 & H5).
  split; [|split; [|split; [|split]]].
  - apply H1.
    + vm_compute. reflexivity.
    + intros E. vm_compute in E. discriminate E.
  - destruct (extract_step (elements PROVIDERS) REGIONS row
                (py "2024-05-05T00:00:00") 0) as [[k c idx|k]|] eqn:Hstep;
      [|vm_compute in Hstep; discriminate Hstep ..].
    exists k, c, idx. split; [reflexivity|].
    rewrite (H2 _ _ _ _ _ _ _ _ Hstep).
    vm_compute in Hstep. injection Hstep as <- <- <-.
    vm_compute. reflexivity.
  - apply (H3 [py "id"] (py " 2024-05-05T00:00:00 ") [py "2024-06-06T"]).
    + repeat constructor.
    + vm_compute. reflexivity.
  - apply H4. repeat constructor.
  - apply (H5 initial undated).
    + reflexivity.
    + apply in_set_true. vm_compute. reflexivity.
    + apply in_set_true. vm_compute. reflexivity.
Defined.

(** ** Running the extractor on a concrete row *)

Lemma extract_step_scan (provider_iter region_iter : list str)
  (row : list str) (default_dt : str) (i : nat) :
  extract_step provider_iter region_iter row default_dt i
  = attempt_of provider_iter region_iter default_dt <$> scan_step row i.
Proof.
  unfold extract_step, scan_step.
  destruct (_find_next_provider_index row i) as [k|]; [|reflexivity].
  destruct (scan_customer row (k + 2) (length row - (k + 2)) [])
    as [idx1 parts].
  destruct (length row <=? idx1); [reflexivity|].
  destruct (length row <=? _); [reflexivity|].
  match goal with
  | |- context [scan_message row ?j ?f []] =>
      destruct (scan_message row j f []) as [[message_parts payment_date] idx4]
  end.
  reflexivity.
Qed.

Lemma extract_loop_turn (provider_iter region_iter : list str)
  (fuel : nat) (row : list str) (default_dt : str) (i : nat)
  (s : nat * option scanned) :
  (length row <=? i) = false →
  scan_step row i = Some s →
  extract_loop provider_iter region_iter (S fuel) row default_dt i
  = cons (attempt_of provider_iter region_iter default_dt s)
      <$> extract_loop provider_iter region_iter fuel row default_dt
            (resume_of (attempt_of provider_iter region_iter default_dt s)).
Proof.
  intros Hi Hs. simpl. rewrite Hi, extract_step_scan, Hs. reflexivity.
Qed.

Lemma extract_loop_end (provider_iter region_iter : list str)
  (fuel : nat) (row : list str) (default_dt : str) (i : nat) :
  (length row <=? i) = true →
  extract_loop provider_iter region_iter fuel row default_dt i = Some [].
Proof. intros Hi. destruct fuel; simpl; rewrite Hi; reflexivity. Qed.

Lemma find_without_char (c : ascii) (t s : str) (pos : nat) :
  Str.contains c s = false → Str.find_from (c :: t) s pos = None.
Proof.
  revert pos. induction s as [|y s IH]; intros pos; simpl.
  - reflexivity.
  - rewrite orb_false_iff. intros [Hy Hs]. rewrite Hy. simpl.
    apply IH. exact Hs.
Qed.

Lemma cut_at_marker_without_comma (tokens : list str)
  (message lower_message : str) :
  Str.contains Char.comma lower_message = false →
  cut_at_marker tokens message lower_message = (message, lower_message).
Proof.
  intros Hc. induction tokens as [|token tokens IH]; simpl.
  - reflexivity.
  - unfold Str.find. rewrite find_without_char by exact Hc. exact IH.
Qed.

(** A message without a comma passes the truncation untouched, whatever
    the iteration orders: only the wrapping quotes are removed. *)
Lemma assemble_message_without_comma (provider_iter region_iter : list str)
  (message_parts : list str) :
  Str.contains Char.comma
    (Str.lower (Str.strip (Str.join (py ",") message_parts))) = false →
  assemble_message provider_iter region_iter message_parts
  = let message := Str.strip (Str.join (py ",") message_parts) in
    if Str.startswith [Char.dquote] message
       && Str.endswith [Char.dquote] message
    then Str.inner message
    else message.
Proof.
  intros Hc. unfold assemble_message, truncate_markers.
  destruct (Str.nonempty _); [|reflexivity].
  rewrite !cut_at_marker_without_comma by exact Hc.
  reflexivity.
Qed.

Local Ltac run_turn :=
  erewrite extract_loop_turn;
  [| vm_compute; reflexivity | vm_compute; reflexivity].

Local Ltac read_yield :=
  cbn [fmap option_fmap option_map omap list_omap default from_option
       yielded attempt_of id sc_provider sc_region sc_status sc_channel
       sc_customer sc_message_parts sc_payment_date sc_idx].

(** C2. The row made of the two well-formed transactions yields exactly
    two records, whatever the iteration orders and the default date: the
    first is cellulant, Nigeria, a@x.com, successful, card, message
    [Payment received] without its quotes, 2024-01-01T10:00:00; the second
    is cellulant, Ghana, b@y.com, failed, mobile_money, message
    [Insufficient funds], 2024-01-02T11:00:00.  Each field holds a cell of
    its own transaction only.  The same holds with the message cells
    already unquoted. *)
Theorem two_transactions_recovered (provider_iter region_iter : list str)
  (default_dt : str) :
  let first :=
    Candidate (py "cellulant") (py "Nigeria") (py "successful") (py "card")
      (py "Payment received") (py "2024-01-01T10:00:00") (py "a@x.com") in
  let second :=
    Candidate (py "cellulant") (py "Ghana") (py "failed") (py "mobile_money")
      (py "Insufficient funds") (py "2024-01-02T11:00:00") (py "b@y.com") in
  extract_transactions provider_iter region_iter
    (two_transactions_row quoted) default_dt = [first; second]
  ∧ extract_transactions provider_iter region_iter
      (two_transactions_row id) default_dt = [first; second].
Proof.
  intros first second.
  split; unfold extract_transactions, extract_trace.
  - change (length (two_transactions_row quoted)) with 14.
    run_turn. run_turn.
    rewrite extract_loop_end by (vm_compute; reflexivity).
    read_yield.
    rewrite !assemble_message_without_comma by (vm_compute; reflexivity).
    vm_compute. reflexivity.
  - change (length (two_transactions_row id)) with 14.
    run_turn. run_turn.
    rewrite extract_loop_end by (vm_compute; reflexivity).
    read_yield.
    rewrite !assemble_message_without_comma by (vm_compute; reflexivity).
    vm_compute. reflexivity.
Qed.

(** ** Message normaliser *)

Lemma startswith_app (p r : str) : Str.startswith p (p ++ r) = true.
Proof.
  induction p as [|x p IH]; simpl.
  - reflexivity.
  - unfold Char.eqb. rewrite Ascii.eqb_refl. exact IH.
Qed.

Lemma lower_app (a b : str) :
  Str.lower (a ++ b) = Str.lower a ++ Str.lower b.
Proof. unfold Str.lower. apply map_app. Qed.

Lemma existsb_In {A} (f : A → bool) (l : list A) (x : A) :
  In x l → f x = true → existsb f l = true.
Proof.
  intros Hin Hf. apply existsb_exists. exists x. split; assumption.
Qed.

(** C9. Whenever the text left by the cleanup steps starts, letter case
    aside, with one of the three OTP lead phrases, the normaliser returns
    exactly [OTP verification required]; in particular for
    [KINDLY ENTER THE OTP SENT TO YOUR PHONE] and for
    [please enter the otp to continue]. *)
Theorem otp_prompt_canonical :
  (∀ s lead rest pattern,
     cleanup s = Some (lead ++ rest) →
     In pattern otp_patterns →
     Str.lower lead = pattern →
     normalize s = py "OTP verification required")
  ∧ normalize (py "KINDLY ENTER THE OTP SENT TO YOUR PHONE")
    = py "OTP verification required"
  ∧ normalize (py "please enter the otp to continue")
    = py "OTP verification required".
Proof.
  split; [|split; vm_compute; reflexivity].
  intros s lead rest pattern Hclean Hin Hlead.
  unfold normalize, _normalise_message. rewrite Hclean. unfold finish.
  rewrite (existsb_In _ otp_patterns pattern Hin); [reflexivity|].
  rewrite lower_app, Hlead. apply startswith_app.
Qed.

Lemma otp_prompt_canonical_witness :
  normalize (py "  " ++ quoted (py "Please input the OTP_code: 1234") ++ py " ")
  = py "OTP verification required".
Proof.
  apply (proj1 otp_prompt_canonical
           (py "  " ++ quoted (py "Please input the OTP_code: 1234") ++ py " ")
           (py "Please input the OTP") (py " code: 1234")
           (py "please input the otp")).
  - vm_compute. reflexivity.
  - right. right. left. reflexivity.
  - vm_compute. reflexivity.
Defined.

Lemma endswith_snoc (c : ascii) (s : str) :
  Str.endswith [c] (s ++ [c]) = true.
Proof.
  unfold Str.endswith. rewrite rev_app_distr. simpl.
  unfold Char.eqb. rewrite Ascii.eqb_refl. reflexivity.
Qed.

Lemma inner_wrapped (a b : ascii) (body : str) :
  Str.inner (a :: body ++ [b]) = body.
Proof.
  unfold Str.inner. simpl. rewrite length_app. simpl.
  replace (length body + 1 - 0) with (S (length body)) by lia.
  simpl. rewrite take_app_length. reflexivity.
Qed.

Lemma drop_while_head (p : ascii → bool) (c : ascii) (s : str) :
  p c = false → Str.drop_while p (c :: s) = c :: s.
Proof. intros H. simpl. rewrite H. reflexivity. Qed.

Lemma rstrip_by_snoc (p : ascii → bool) (b : ascii) (l : str) :
  p b = false → Str.rstrip_by p (l ++ [b]) = l ++ [b].
Proof.
  intros Hb. unfold Str.rstrip_by. rewrite rev_app_distr. simpl.
  rewrite Hb. simpl. rewrite rev_involutive. reflexivity.
Qed.

(** Stripping leaves a text alone when neither end is in the class. *)
Lemma strip_by_ends (p : ascii → bool) (a b : ascii) (body : str) :
  p a = false → p b = false →
  Str.strip_by p (a :: body ++ [b]) = a :: body ++ [b].
Proof.
  intros Ha Hb. unfold Str.strip_by, Str.lstrip_by.
  rewrite drop_while_head by exact Ha.
  apply (rstrip_by_snoc p b (a :: body) Hb).
Qed.

(** C8, as stated, fails for single quotes: the script strips double quotes
    only, so a first line wrapped in a matching pair of single quotes keeps
    both of them, through [unquote] and through the whole normaliser. *)
Lemma single_quotes_are_kept :
  Str.startswith [Char.squote] (py "'abc'") = true
  ∧ Str.endswith [Char.squote] (py "'abc'") = true
  ∧ unquote (py "'abc'") = py "'abc'"
  ∧ normalize (py "'abc'") = py "'abc'".
Proof. repeat split; vm_compute; reflexivity. Qed.

(** C8, amended.  For every first line wrapped in a matching pair of double
    quotes, one layer of the wrapping quotes is removed and the inside is
    trimmed, then the double quotes left at either end are stripped and the
    result is trimmed again; a first line wrapped in single quotes is left
    as it is. *)
Theorem unquote_wrapped (body : str) :
  unquote (quoted body)
  = Str.strip (Str.strip_char Char.dquote (Str.strip body))
  ∧ unquote (Char.squote :: body ++ [Char.squote])
    = Char.squote :: body ++ [Char.squote].
Proof.
  split.
  - unfold unquote, quoted.
    change (Str.startswith [Char.dquote] (Char.dquote :: body ++ [Char.dquote]))
      with true.
    change (Char.dquote :: body ++ [Char.dquote])
      with ((Char.dquote :: body) ++ [Char.dquote]) at 1.
    rewrite endswith_snoc.
    replace (1 <? length (Char.dquote :: body ++ [Char.dquote])) with true.
    + simpl andb. cbv iota. rewrite inner_wrapped. reflexivity.
    + symmetry. apply Nat.ltb_lt. simpl. rewrite length_app. simpl. lia.
  - unfold unquote.
    change (Str.startswith [Char.dquote]
              (Char.squote :: body ++ [Char.squote])) with false.
    simpl andb. cbv iota.
    unfold Str.strip_char, Str.strip.
    rewrite !strip_by_ends by reflexivity. reflexivity.
Qed.

(** ** Truncation at vocabulary markers *)














(** ** Words and the acronym steps *)

Local Ltac each_char c :=
  destruct c as [[] [] [] [] [] [] [] []]; vm_compute;
  try reflexivity; try discriminate; auto.

Lemma is_word_lower (c : ascii) : Char.is_word (Char.lower c) = Char.is_word c.
Proof. each_char c. Qed.

Lemma is_word_upper (c : ascii) : Char.is_word (Char.upper c) = Char.is_word c.
Proof. each_char c. Qed.

Lemma is_upper_lower (c : ascii) : Char.is_upper (Char.lower c) = false.
Proof. each_char c. Qed.

Lemma is_upper_word (c : ascii) :
  Char.is_upper c = true → Char.is_word c = true.
Proof. each_char c. Qed.

Lemma lower_upper (c : ascii) : Char.lower (Char.upper c) = Char.lower c.
Proof. each_char c. Qed.

Lemma lower_lower (c : ascii) : Char.lower (Char.lower c) = Char.lower c.
Proof. each_char c. Qed.

Lemma lower_not_word (c : ascii) : Char.is_word c = false → Char.lower c = c.
Proof. each_char c. Qed.

Lemma upper_not_word (c : ascii) : Char.is_word c = false → Char.upper c = c.
Proof. each_char c. Qed.

Lemma upper_is_upper (c : ascii) : Char.is_upper c = true → Char.upper c = c.
Proof. each_char c. Qed.

Lemma upper_lower_is_upper (c : ascii) :
  Char.is_upper c = true → Char.upper (Char.lower c) = c.
Proof. each_char c. Qed.

Lemma lower_not_upper (c : ascii) :
  Char.is_upper c = false → Char.lower c = c.
Proof. each_char c. Qed.

(** *** Segmentation *)

Lemma render_cons_word (w : str) (ps : list piece) :
  render (Word w :: ps) = w ++ render ps.
Proof. reflexivity. Qed.

Lemma render_cons_sep (c : ascii) (ps : list piece) :
  render (Sep c :: ps) = c :: render ps.
Proof. reflexivity. Qed.

Lemma render_segment (s : str) : render (segment s) = s.
Proof.
  induction s as [|c s IH]; simpl; [reflexivity|].
  destruct (Char.is_word c).
  - destruct (segment s) as [|[w|d] ps]; simpl in *; rewrite <- IH;
      reflexivity.
  - rewrite render_cons_sep, IH. reflexivity.
Qed.

Lemma segment_well_segmented (s : str) : well_segmented (segment s).
Proof.
  induction s as [|c s IH]; simpl; [exact I|].
  destruct (Char.is_word c) eqn:Hc.
  - destruct (segment s) as [|[w|d] ps]; simpl in *.
    + rewrite Hc. auto.
    + destruct IH as (H1 & H2 & H3 & H4). rewrite Hc, H2. auto.
    + rewrite Hc. destruct IH as [H1 H2]. auto.
  - split; [exact Hc | exact IH].
Qed.

Lemma head_is_word_render (ps : list piece) :
  well_segmented ps →
  Re.head_is_word (render ps) = starts_with_word ps.
Proof.
  destruct ps as [|[w|c] ps]; simpl; [reflexivity | |].
  - intros (H1 & H2 & _). destruct w as [|x w]; [discriminate H1|].
    simpl in *. apply andb_true_iff in H2. tauto.
  - intros [H _]. exact H.
Qed.

(** *** The substitution of one token, word by word *)

Lemma sub_word_go_zero (tok rep : str) (p : bool) (c : ascii) (s : str) :
  Re.sub_word_go tok rep p 0 (c :: s)
  = if xorb p (Char.is_word c) && Str.startswith tok (c :: s)
       && xorb (Char.is_word (List.last tok c))
            (Re.head_is_word (drop (length tok) (c :: s)))
    then rep ++ Re.sub_word_go tok rep (Char.is_word c) (length tok - 1) s
    else c :: Re.sub_word_go tok rep (Char.is_word c) 0 s.
Proof. reflexivity. Qed.

Lemma sub_word_go_skip (tok rep : str) (p : bool) (k : nat) (c : ascii)
  (s : str) :
  Re.sub_word_go tok rep p (S k) (c :: s)
  = Re.sub_word_go tok rep (Char.is_word c) k s.
Proof. reflexivity. Qed.

Lemma last_is_word (tok : str) (c : ascii) :
  Str.nonempty tok = true → forallb Char.is_word tok = true →
  Char.is_word (List.last tok c) = true.
Proof.
  induction tok as [|x tok IH]; [discriminate|].
  intros _ H. simpl in H. apply andb_true_iff in H. destruct H as [Hx Ht].
  destruct tok as [|y tok]; [exact Hx|].
  change (List.last (x :: y :: tok) c) with (List.last (y :: tok) c).
  apply IH; [reflexivity | exact Ht].
Qed.

Lemma char_eqb_word_sep (x y : ascii) :
  Char.is_word x = true → Char.is_word y = false → Char.eqb x y = false.
Proof.
  intros Hx Hy. destruct (Char.eqb x y) eqn:E; [|reflexivity].
  apply char_eqb_eq in E. subst y. congruence.
Qed.

(** A token made of word characters matches at the start of a word exactly
    when it is the whole word. *)
Lemma whole_word_match (tok w rest : str) :
  forallb Char.is_word tok = true →
  forallb Char.is_word w = true →
  Re.head_is_word rest = false →
  Str.startswith tok (w ++ rest)
  && negb (Re.head_is_word (drop (length tok) (w ++ rest)))
  = Str.eqb tok w.
Proof.
  revert w. induction tok as [|x tok IH]; intros w Ht Hw Hr.
  - destruct w as [|c w]; simpl.
    + destruct rest as [|y rest]; simpl in *; [reflexivity|].
      rewrite Hr. reflexivity.
    + simpl in Hw. apply andb_true_iff in Hw. destruct Hw as [Hc _].
      rewrite Hc. reflexivity.
  - simpl in Ht. apply andb_true_iff in Ht. destruct Ht as [Hx Ht].
    destruct w as [|c w].
    + simpl. destruct rest as [|y rest]; [reflexivity|].
      simpl in Hr. rewrite (char_eqb_word_sep x y Hx Hr). reflexivity.
    + simpl in Hw. apply andb_true_iff in Hw. destruct Hw as [Hc Hw].
      simpl. rewrite <- andb_assoc. rewrite (IH w Ht Hw Hr). reflexivity.
Qed.

Section OneToken.

Variables tok rep : str.
Hypothesis tok_nonempty : Str.nonempty tok = true.
Hypothesis tok_word : forallb Char.is_word tok = true.

Lemma sub_word_go_inside (w rest : str) :
  forallb Char.is_word w = true →
  Re.sub_word_go tok rep true 0 (w ++ rest)
  = w ++ Re.sub_word_go tok rep true 0 rest.
Proof.
  induction w as [|c w IH]; intros Hw; [reflexivity|].
  simpl in Hw. apply andb_true_iff in Hw. destruct Hw as [Hc Hw].
  change ((c :: w) ++ rest) with (c :: (w ++ rest)).
  rewrite sub_word_go_zero, Hc. simpl xorb. cbv iota.
  simpl andb. cbv iota. rewrite (IH Hw). reflexivity.
Qed.

Lemma sub_word_go_skipped (u rest : str) :
  forallb Char.is_word u = true →
  Re.sub_word_go tok rep true (length u) (u ++ rest)
  = Re.sub_word_go tok rep true 0 rest.
Proof.
  induction u as [|c u IH]; intros Hu; [reflexivity|].
  simpl in Hu. apply andb_true_iff in Hu. destruct Hu as [Hc Hu].
  change ((c :: u) ++ rest) with (c :: (u ++ rest)).
  change (length (c :: u)) with (S (length u)).
  rewrite sub_word_go_skip, Hc. exact (IH Hu).
Qed.

Lemma sub_word_go_sep (p : bool) (c : ascii) (rest : str) :
  Char.is_word c = false →
  Re.sub_word_go tok rep p 0 (c :: rest)
  = c :: Re.sub_word_go tok rep false 0 rest.
Proof.
  intros Hc. rewrite sub_word_go_zero, Hc.
  destruct tok as [|x tok']; [discriminate tok_nonempty|].
  simpl in tok_word. apply andb_true_iff in tok_word.
  destruct tok_word as [Hx _].
  change (Str.startswith (x :: tok') (c :: rest))
    with (Char.eqb x c && Str.startswith tok' rest).
  rewrite (char_eqb_word_sep x c Hx Hc).
  rewrite andb_false_r. reflexivity.
Qed.

Lemma sub_word_go_word (w rest : str) :
  Str.nonempty w = true →
  forallb Char.is_word w = true →
  Re.head_is_word rest = false →
  Re.sub_word_go tok rep false 0 (w ++ rest)
  = (if Str.eqb tok w then rep else w)
    ++ Re.sub_word_go tok rep true 0 rest.
Proof.
  intros Hne Hw Hrest. destruct w as [|c w]; [discriminate Hne|].
  pose proof Hw as Hw'. simpl in Hw'. apply andb_true_iff in Hw'.
  destruct Hw' as [Hc Hw'].
  change ((c :: w) ++ rest) with (c :: (w ++ rest)).
  rewrite sub_word_go_zero, Hc.
  rewrite (last_is_word tok c tok_nonempty tok_word).
  change (xorb false true) with true. rewrite andb_true_l.
  change (xorb true ?b) with (negb b).
  change (c :: (w ++ rest)) with ((c :: w) ++ rest).
  rewrite (whole_word_match tok (c :: w) rest tok_word Hw Hrest).
  destruct (Str.eqb tok (c :: w)) eqn:E.
  - apply str_eqb_eq in E. f_equal.
    replace (length tok - 1) with (length w)
      by (rewrite E; simpl length; lia).
    apply sub_word_go_skipped. exact Hw'.
  - change ((c :: w) ++ Re.sub_word_go tok rep true 0 rest)
      with (c :: (w ++ Re.sub_word_go tok rep true 0 rest)).
    f_equal. apply sub_word_go_inside. exact Hw'.
Qed.

Lemma sub_word_go_render (ps : list piece) (p : bool) :
  well_segmented ps →
  (p = true → starts_with_word ps = false) →
  Re.sub_word_go tok rep p 0 (render ps)
  = render (map (map_piece (fun w => if Str.eqb tok w then rep else w)) ps).
Proof.
  revert p. induction ps as [|[w|c] ps IH]; intros p Hps Hp.
  - reflexivity.
  - destruct p; [discriminate (Hp eq_refl)|].
    destruct Hps as (Hne & Hw & Hnext & Hps).
    simpl map. rewrite !render_cons_word.
    rewrite sub_word_go_word;
      [| exact Hne | exact Hw | rewrite head_is_word_render; assumption].
    f_equal. apply IH; [exact Hps | intros _; exact Hnext].
  - destruct Hps as [Hc Hps]. simpl map. rewrite !render_cons_sep.
    rewrite sub_word_go_sep by exact Hc. f_equal.
    apply IH; [exact Hps | discriminate].
Qed.

End OneToken.

(** *** The acronym matches, word by word *)

Lemma upper_runs_go_zero (p : bool) (c : ascii) (s : str) :
  Re.upper_runs_go p 0 (c :: s)
  = let run := Str.take_while Char.is_upper (c :: s) in
    if negb p && (2 <=? length run)
       && negb (Re.head_is_word (drop (length run) (c :: s)))
    then run :: Re.upper_runs_go (Char.is_word c) (length run - 1) s
    else Re.upper_runs_go (Char.is_word c) 0 s.
Proof. reflexivity. Qed.

Lemma upper_runs_go_skip (p : bool) (k : nat) (c : ascii) (s : str) :
  Re.upper_runs_go p (S k) (c :: s) = Re.upper_runs_go (Char.is_word c) k s.
Proof. reflexivity. Qed.

Lemma upper_runs_go_inside (w rest : str) :
  forallb Char.is_word w = true →
  Re.upper_runs_go true 0 (w ++ rest) = Re.upper_runs_go true 0 rest.
Proof.
  induction w as [|c w IH]; intros Hw; [reflexivity|].
  simpl in Hw. apply andb_true_iff in Hw. destruct Hw as [Hc Hw].
  change ((c :: w) ++ rest) with (c :: (w ++ rest)).
  rewrite upper_runs_go_zero. cbv zeta. simpl negb. rewrite andb_false_l.
  rewrite Hc. exact (IH Hw).
Qed.

Lemma upper_runs_go_skipped (u rest : str) :
  forallb Char.is_word u = true →
  Re.upper_runs_go true (length u) (u ++ rest)
  = Re.upper_runs_go true 0 rest.
Proof.
  induction u as [|c u IH]; intros Hu; [reflexivity|].
  simpl in Hu. apply andb_true_iff in Hu. destruct Hu as [Hc Hu].
  change ((c :: u) ++ rest) with (c :: (u ++ rest)).
  change (length (c :: u)) with (S (length u)).
  rewrite upper_runs_go_skip, Hc. exact (IH Hu).
Qed.

Lemma not_word_not_upper (c : ascii) :
  Char.is_word c = false → Char.is_upper c = false.
Proof.
  intros Hc. destruct (Char.is_upper c) eqn:E; [|reflexivity].
  apply is_upper_word in E. congruence.
Qed.

Lemma upper_runs_go_sep (p : bool) (c : ascii) (rest : str) :
  Char.is_word c = false →
  Re.upper_runs_go p 0 (c :: rest) = Re.upper_runs_go false 0 rest.
Proof.
  intros Hc. rewrite upper_runs_go_zero. cbv zeta.
  change (Str.take_while Char.is_upper (c :: rest))
    with (if Char.is_upper c
          then c :: Str.take_while Char.is_upper rest else []).
  rewrite (not_word_not_upper c Hc). simpl length.
  change (2 <=? 0) with false. rewrite andb_false_r, andb_false_l, Hc.
  reflexivity.
Qed.

Lemma take_while_upper_word (w rest : str) :
  forallb Char.is_upper w = true →
  Re.head_is_word rest = false →
  Str.take_while Char.is_upper (w ++ rest) = w.
Proof.
  intros Hw Hrest. induction w as [|c w IH]; simpl.
  - destruct rest as [|y rest]; [reflexivity|]. simpl in *.
    rewrite (not_word_not_upper y Hrest). reflexivity.
  - simpl in Hw. apply andb_true_iff in Hw. destruct Hw as [Hc Hw].
    rewrite Hc. f_equal. exact (IH Hw).
Qed.

Lemma partial_upper_run (w rest : str) :
  forallb Char.is_word w = true →
  forallb Char.is_upper w = false →
  Re.head_is_word
    (drop (length (Str.take_while Char.is_upper (w ++ rest))) (w ++ rest))
  = true.
Proof.
  induction w as [|c w IH]; intros Hw Hu; [discriminate Hu|].
  simpl in Hw. apply andb_true_iff in Hw. destruct Hw as [Hc Hw].
  simpl in Hu. simpl. destruct (Char.is_upper c); simpl.
  - apply IH; assumption.
  - exact Hc.
Qed.

Lemma upper_runs_go_word (w rest : str) :
  Str.nonempty w = true →
  forallb Char.is_word w = true →
  Re.head_is_word rest = false →
  Re.upper_runs_go false 0 (w ++ rest)
  = (if is_acronym w then [w] else []) ++ Re.upper_runs_go true 0 rest.
Proof.
  intros Hne Hw Hrest. destruct w as [|c w]; [discriminate Hne|].
  pose proof Hw as Hw'. simpl in Hw'. apply andb_true_iff in Hw'.
  destruct Hw' as [Hc Hw'].
  change ((c :: w) ++ rest) with (c :: (w ++ rest)).
  rewrite upper_runs_go_zero. cbv zeta. rewrite Hc.
  change (c :: (w ++ rest)) with ((c :: w) ++ rest).
  change (negb false) with true. rewrite andb_true_l. unfold is_acronym.
  destruct (forallb Char.is_upper (c :: w)) eqn:Hu.
  - rewrite (take_while_upper_word (c :: w) rest Hu Hrest).
    rewrite drop_app_length, Hrest. change (negb false) with true.
    rewrite andb_true_r.
    destruct (2 <=? length (c :: w)).
    + simpl app. f_equal. simpl length.
      replace (S (length w) - 1) with (length w) by lia.
      apply upper_runs_go_skipped. exact Hw'.
    + simpl app. apply upper_runs_go_inside. exact Hw'.
  - rewrite (partial_upper_run (c :: w) rest Hw Hu).
    change (negb true) with false. rewrite andb_false_r. simpl app.
    apply upper_runs_go_inside. exact Hw'.
Qed.

Lemma upper_runs_go_render (ps : list piece) (p : bool) :
  well_segmented ps →
  (p = true → starts_with_word ps = false) →
  Re.upper_runs_go p 0 (render ps) = List.filter is_acronym (words_of ps).
Proof.
  revert p. induction ps as [|[w|c] ps IH]; intros p Hps Hp.
  - reflexivity.
  - destruct p; [discriminate (Hp eq_refl)|].
    destruct Hps as (Hne & Hw & Hnext & Hps).
    rewrite render_cons_word.
    rewrite upper_runs_go_word;
      [| exact Hne | exact Hw | rewrite head_is_word_render; assumption].
    rewrite (IH true Hps (fun _ => Hnext)).
    change (words_of (Word w :: ps)) with (w :: words_of ps).
    simpl List.filter. destruct (is_acronym w); reflexivity.
  - destruct Hps as [Hc Hps]. rewrite render_cons_sep.
    rewrite upper_runs_go_sep by exact Hc.
    apply IH; [exact Hps | discriminate].
Qed.

Lemma upper_runs_render (ps : list piece) :
  well_segmented ps →
  Re.upper_runs (render ps) = List.filter is_acronym (words_of ps).
Proof.
  intros Hps. apply upper_runs_go_render; [exact Hps | discriminate].
Qed.

(** *** Pieces under word-wise maps *)

Lemma starts_with_word_map (f : str → str) (ps : list piece) :
  starts_with_word (map (map_piece f) ps) = starts_with_word ps.
Proof. destruct ps as [|[w|c] ps]; reflexivity. Qed.

Lemma map_piece_well_segmented (f : str → str) (ps : list piece) :
  keeps_words f → well_segmented ps →
  well_segmented (map (map_piece f) ps).
Proof.
  intros Hf. induction ps as [|[w|c] ps IH]; simpl.
  - auto.
  - intros (Hne & Hw & Hnext & Hps).
    destruct (Hf w Hne Hw) as [H1 H2].
    rewrite starts_with_word_map. auto.
  - intros [Hc Hps]. auto.
Qed.

Lemma words_of_map (f : str → str) (ps : list piece) :
  words_of (map (map_piece f) ps) = map f (words_of ps).
Proof.
  induction ps as [|[w|c] ps IH]; simpl; [reflexivity | | exact IH].
  change (words_of (Word (f w) :: map (map_piece f) ps))
    with (f w :: words_of (map (map_piece f) ps)).
  rewrite IH. reflexivity.
Qed.

Lemma map_piece_ext (f g : str → str) (ps : list piece) :
  (∀ w, In w (words_of ps) → f w = g w) →
  map (map_piece f) ps = map (map_piece g) ps.
Proof.
  induction ps as [|[w|c] ps IH]; intros H; simpl.
  - reflexivity.
  - rewrite (H w) by (left; reflexivity). f_equal.
    apply IH. intros w' Hw'. apply H. right. exact Hw'.
  - f_equal. apply IH. exact H.
Qed.

Lemma forallb_map {A B} (p : B → bool) (f : A → B) (l : list A) :
  forallb p (map f l) = forallb (fun x => p (f x)) l.
Proof. induction l as [|x l IH]; simpl; [reflexivity | rewrite IH; reflexivity]. Qed.

Lemma forallb_ext_eq {A} (p q : A → bool) (l : list A) :
  (∀ x, p x = q x) → forallb p l = forallb q l.
Proof.
  intros H. induction l as [|x l IH]; simpl; [reflexivity|].
  rewrite H, IH. reflexivity.
Qed.

Lemma nonempty_map (f : ascii → ascii) (w : str) :
  Str.nonempty (map f w) = Str.nonempty w.
Proof. destruct w; reflexivity. Qed.

Lemma lower_keeps_words : keeps_words Str.lower.
Proof.
  intros w Hne Hw. unfold Str.lower. rewrite nonempty_map, forallb_map.
  split; [exact Hne|].
  rewrite (forallb_ext_eq _ Char.is_word) by apply is_word_lower. exact Hw.
Qed.

Lemma upper_keeps_words : keeps_words Str.upper.
Proof.
  intros w Hne Hw. unfold Str.upper. rewrite nonempty_map, forallb_map.
  split; [exact Hne|].
  rewrite (forallb_ext_eq _ Char.is_word) by apply is_word_upper. exact Hw.
Qed.

Lemma acronymise_keeps_words (tokens : list str) :
  keeps_words (acronymise tokens).
Proof.
  intros w Hne Hw. unfold acronymise.
  destruct (existsb _ tokens); [apply upper_keeps_words | split]; assumption.
Qed.

Lemma lower_render (ps : list piece) :
  well_segmented ps →
  Str.lower (render ps) = render (map (map_piece Str.lower) ps).
Proof.
  induction ps as [|[w|c] ps IH]; intros Hps.
  - reflexivity.
  - destruct Hps as (_ & _ & _ & Hps).
    change (map (map_piece Str.lower) (Word w :: ps))
      with (Word (Str.lower w) :: map (map_piece Str.lower) ps).
    rewrite !render_cons_word, lower_app, (IH Hps). reflexivity.
  - destruct Hps as [Hc Hps].
    change (map (map_piece Str.lower) (Sep c :: ps))
      with (Sep c :: map (map_piece Str.lower) ps).
    rewrite !render_cons_sep.
    change (Str.lower (c :: render ps))
      with (Char.lower c :: Str.lower (render ps)).
    rewrite (lower_not_word c Hc), (IH Hps). reflexivity.
Qed.

Lemma capitalize_first_render (ps : list piece) :
  well_segmented ps →
  Str.capitalize_first (render ps) = render (cap_pieces ps).
Proof.
  destruct ps as [|[w|c] ps]; simpl.
  - reflexivity.
  - intros (Hne & _). destruct w as [|x w]; [discriminate Hne|].
    reflexivity.
  - intros [Hc _]. rewrite render_cons_sep. simpl.
    rewrite (upper_not_word c Hc). reflexivity.
Qed.

Lemma lower_capitalize_first (s : str) :
  Str.lower (Str.capitalize_first s) = Str.lower s.
Proof.
  destruct s as [|c s]; [reflexivity|]. simpl.
  rewrite lower_upper. reflexivity.
Qed.

(** *** Tokens *)

Lemma capitals_lower_word (token : str) :
  capitals token →
  Str.nonempty (Str.lower token) = true
  ∧ forallb Char.is_word (Str.lower token) = true.
Proof.
  intros [Hne Hu]. unfold Str.lower. rewrite nonempty_map, forallb_map.
  split; [exact Hne|].
  apply forallb_forall. intros c Hc. rewrite is_word_lower.
  apply is_upper_word. rewrite forallb_forall in Hu. apply Hu. exact Hc.
Qed.

Lemma capitals_word (token : str) :
  capitals token →
  Str.nonempty token = true ∧ forallb Char.is_word token = true.
Proof.
  intros [Hne Hu]. split; [exact Hne|].
  apply forallb_forall. intros c Hc. apply is_upper_word.
  rewrite forallb_forall in Hu. apply Hu. exact Hc.
Qed.

Lemma upper_lower_capitals (token : str) :
  forallb Char.is_upper token = true →
  Str.upper (Str.lower token) = token.
Proof.
  induction token as [|c token IH]; simpl; [reflexivity|].
  rewrite andb_true_iff. intros [Hc Ht].
  rewrite (upper_lower_is_upper c Hc), (IH Ht). reflexivity.
Qed.

Lemma lower_lowercase (w : str) : lowercase (Str.lower w).
Proof.
  unfold lowercase, Str.lower. rewrite forallb_map.
  apply forallb_forall. intros c _. rewrite is_upper_lower. reflexivity.
Qed.

Lemma lower_of_lowercase (w : str) : lowercase w → Str.lower w = w.
Proof.
  unfold lowercase. induction w as [|c w IH]; simpl; [reflexivity|].
  rewrite andb_true_iff, negb_true_iff. intros [Hc Hw].
  rewrite (lower_not_upper c Hc), (IH Hw). reflexivity.
Qed.

(** A run of capitals is the lower case of nothing lower-case. *)
Lemma capitals_not_lowercase (token w : str) :
  capitals token → lowercase w → Str.eqb w token = false.
Proof.
  intros [Hne Hu] Hw. apply str_eqb_neq. intros ->.
  destruct token as [|c token]; [discriminate Hne|].
  unfold lowercase in Hw. simpl in Hu, Hw.
  apply andb_true_iff in Hu. apply andb_true_iff in Hw.
  destruct Hu as [Hu _]. destruct Hw as [Hw _].
  rewrite Hu in Hw. discriminate Hw.
Qed.

Lemma sub_all_capitals (tokens : list str) (token : str) :
  capitals token → sub_all tokens token = token.
Proof.
  intros Ht. induction tokens as [|t tokens IH]; [reflexivity|].
  unfold sub_all. simpl.
  rewrite (capitals_not_lowercase token (Str.lower t) Ht (lower_lowercase t)).
  exact IH.
Qed.

Lemma sub_all_lowercase (tokens : list str) (w : str) :
  Forall capitals tokens → lowercase w →
  sub_all tokens w = acronymise tokens w.
Proof.
  intros Ht Hw. induction Ht as [|t tokens Hcap Ht IH].
  - reflexivity.
  - unfold sub_all, acronymise. simpl.
    destruct (Str.eqb (Str.lower t) w) eqn:E; simpl.
    + apply str_eqb_eq in E. subst w.
      rewrite (upper_lower_capitals t (proj2 Hcap)).
      apply sub_all_capitals. exact Hcap.
    + exact IH.
Qed.

Lemma sub_piece_keeps_words (token : str) :
  capitals token →
  keeps_words (fun w => if Str.eqb (Str.lower token) w then token else w).
Proof.
  intros Hcap w Hne Hw. destruct (Str.eqb (Str.lower token) w).
  - apply capitals_word. exact Hcap.
  - split; assumption.
Qed.

(** The acronym substitutions act word by word. *)
Lemma sub_tokens_render (tokens : list str) (ps : list piece) :
  Forall capitals tokens → well_segmented ps →
  sub_tokens tokens (render ps) = render (map (map_piece (sub_all tokens)) ps).
Proof.
  intros Ht. revert ps. induction Ht as [|t tokens Hcap Ht IH]; intros ps Hps.
  - unfold sub_tokens, sub_all. simpl.
    rewrite (map_ext _ id); [rewrite map_id; reflexivity|].
    intros [w|c]; reflexivity.
  - unfold sub_tokens. simpl. fold (sub_tokens tokens).
    unfold Re.sub_word.
    destruct (capitals_lower_word t Hcap) as [Hne Hw].
    rewrite (sub_word_go_render (Str.lower t) t Hne Hw ps false Hps)
      by discriminate.
    rewrite IH
      by (apply map_piece_well_segmented;
          [apply sub_piece_keeps_words; exact Hcap | exact Hps]).
    rewrite map_map. f_equal. apply map_ext. intros [w|c]; reflexivity.
Qed.

Lemma uppercase_tokens_spec (ps : list piece) (token : str) :
  well_segmented ps →
  In token (uppercase_tokens (render ps))
  ↔ In token (words_of ps) ∧ is_acronym token = true ∧ length token ≤ 4.
Proof.
  intros Hps. unfold uppercase_tokens.
  rewrite <- list_elem_of_In, elem_of_remove_dups, list_elem_of_filter.
  rewrite (upper_runs_render ps Hps), list_elem_of_In, filter_In.
  rewrite Is_true_true, Nat.leb_le. tauto.
Qed.

Lemma is_acronym_capitals (token : str) :
  is_acronym token = true → capitals token.
Proof.
  unfold is_acronym, capitals. rewrite andb_true_iff, Nat.leb_le.
  intros [Hu Hl]. split; [|exact Hu].
  destruct token; [simpl in Hl; lia | reflexivity].
Qed.

Lemma uppercase_tokens_capitals (s : str) :
  Forall capitals (uppercase_tokens s).
Proof.
  apply Forall_forall. intros token Hin. apply list_elem_of_In in Hin.
  rewrite <- (render_segment s) in Hin.
  apply (uppercase_tokens_spec _ _ (segment_well_segmented s)) in Hin.
  apply is_acronym_capitals. tauto.
Qed.

Lemma cap_pieces_well_segmented (ps : list piece) :
  well_segmented ps → well_segmented (cap_pieces ps).
Proof.
  destruct ps as [|[w|c] ps]; simpl; auto.
  intros (Hne & Hw & Hnext & Hps).
  destruct w as [|x w]; [discriminate Hne|]. simpl in *.
  rewrite is_word_upper. auto.
Qed.

Lemma capitalize_first_capitals (token : str) :
  capitals token → Str.capitalize_first token = token.
Proof.
  intros [Hne Hu]. destruct token as [|c token]; [reflexivity|].
  simpl in *. apply andb_true_iff in Hu. destruct Hu as [Hc _].
  rewrite (upper_is_upper c Hc). reflexivity.
Qed.

Lemma words_of_cap_pieces_capitals (ps : list piece) (token : str) :
  capitals token → In token (words_of ps) →
  In token (words_of (cap_pieces ps)).
Proof.
  intros Hcap. destruct ps as [|[w|c] ps]; simpl; auto.
  change (words_of (Word w :: ps)) with (w :: words_of ps).
  change (words_of (Word (Str.capitalize_first w) :: ps))
    with (Str.capitalize_first w :: words_of ps).
  intros [->|Hin]; [left | right; exact Hin].
  apply capitalize_first_capitals. exact Hcap.
Qed.

Lemma words_of_cap_pieces_inv (ps : list piece) (u : str) :
  In u (words_of (cap_pieces ps)) →
  ∃ v, In v (words_of ps) ∧ (u = v ∨ u = Str.capitalize_first v).
Proof.
  destruct ps as [|[w|c] ps]; simpl.
  - intros [].
  - change (words_of (Word w :: ps)) with (w :: words_of ps).
    change (words_of (Word (Str.capitalize_first w) :: ps))
      with (Str.capitalize_first w :: words_of ps).
    intros [<-|Hin].
    + exists w. split; [left; reflexivity | right; reflexivity].
    + exists u. split; [right; exact Hin | left; reflexivity].
  - intros Hin. exists u. split; [exact Hin | left; reflexivity].
Qed.

Lemma lower_acronymise (tokens : list str) (w : str) :
  lowercase w → Str.lower (acronymise tokens w) = w.
Proof.
  intros Hw. unfold acronymise. destruct (existsb _ tokens).
  - unfold Str.lower, Str.upper. rewrite map_map.
    rewrite (map_ext _ Char.lower) by apply lower_upper.
    apply lower_of_lowercase. exact Hw.
  - apply lower_of_lowercase. exact Hw.
Qed.

(** An acronym is not a lower-case word, capitalised or not. *)
Lemma acronym_not_lowercase (u w : str) :
  lowercase w → (u = w ∨ u = Str.capitalize_first w) →
  is_acronym u = false.
Proof.
  intros Hw Hu. unfold is_acronym.
  destruct (2 <=? length u) eqn:Hl; [|apply andb_false_r].
  rewrite andb_true_r. apply Nat.leb_le in Hl.
  assert (∃ a b rest rest', u = a :: b :: rest ∧ w = a :: b :: rest'
          ∨ u = Char.upper a :: b :: rest ∧ w = a :: b :: rest') as H.
  { destruct Hu as [->| ->].
    - destruct w as [|a [|b rest]]; simpl in Hl; try lia.
      exists a, b, rest, rest. left. auto.
    - destruct w as [|a [|b rest]]; simpl in Hl; try lia.
      exists a, b, rest, rest. right. auto. }
  destruct H as (a & b & rest & rest' & [[-> ->]|[-> ->]]);
    unfold lowercase in Hw; simpl in Hw |- *;
    rewrite !andb_true_iff, !negb_true_iff in Hw;
    destruct Hw as (_ & Hb & _); rewrite Hb;
    rewrite andb_false_r; reflexivity.
Qed.

Lemma words_lowercase (ps : list piece) (w : str) :
  In w (words_of (map (map_piece Str.lower) ps)) → lowercase w.
Proof.
  rewrite words_of_map, in_map_iff. intros (v & <- & _).
  apply lower_lowercase.
Qed.

(** The substitutions depend on the tokens as a set only. *)
Lemma sub_tokens_lowercase (tokens : list str) (ps : list piece) :
  Forall capitals tokens → well_segmented ps →
  (∀ w, In w (words_of ps) → lowercase w) →
  sub_tokens tokens (render ps)
  = render (map (map_piece (acronymise tokens)) ps).
Proof.
  intros Ht Hps Hlow. rewrite (sub_tokens_render tokens ps Ht Hps).
  f_equal. apply map_piece_ext. intros w Hw.
  apply sub_all_lowercase; [exact Ht | apply Hlow; exact Hw].
Qed.

Lemma existsb_same_elements {A} (f : A → bool) (l1 l2 : list A) :
  (∀ x, In x l1 ↔ In x l2) → existsb f l1 = existsb f l2.
Proof.
  intros H. destruct (existsb f l1) eqn:E1; symmetry.
  - apply existsb_exists in E1. destruct E1 as (x & Hx & Hf).
    apply existsb_exists. exists x. split; [apply H; exact Hx | exact Hf].
  - destruct (existsb f l2) eqn:E2; [|reflexivity].
    apply existsb_exists in E2. destruct E2 as (x & Hx & Hf).
    rewrite <- E1. symmetry. apply existsb_exists.
    exists x. split; [apply H; exact Hx | exact Hf].
Qed.

Lemma sub_tokens_order (tokens1 tokens2 : list str) (s : str) :
  Forall capitals tokens1 → Forall capitals tokens2 →
  (∀ token, In token tokens1 ↔ In token tokens2) →
  sub_tokens tokens1 (Str.lower s) = sub_tokens tokens2 (Str.lower s).
Proof.
  intros H1 H2 Hsame.
  rewrite <- (render_segment s).
  rewrite (lower_render _ (segment_well_segmented s)).
  assert (well_segmented (map (map_piece Str.lower) (segment s))) as Hps.
  { apply map_piece_well_segmented;
      [apply lower_keeps_words | apply segment_well_segmented]. }
  rewrite !sub_tokens_lowercase;
    try assumption; try (intros w; apply words_lowercase).
  f_equal. apply map_piece_ext. intros w _. unfold acronymise.
  rewrite (existsb_same_elements _ tokens1 tokens2 Hsame). reflexivity.
Qed.

(** Steps 9 to 11 of the normaliser, the OTP and acronym steps, are
    idempotent. *)
Lemma finish_idempotent (first_line : str) :
  finish (finish first_line) = finish first_line.
Proof.
  remember (finish first_line) as r eqn:Er. unfold finish in Er.
  destruct (existsb _ otp_patterns) eqn:Hotp;
    [subst r; vm_compute; reflexivity|].
  revert Er.
  set (A := uppercase_tokens first_line).
  set (ps := segment first_line).
  set (lps := map (map_piece Str.lower) ps).
  assert (well_segmented ps) as Hps by apply segment_well_segmented.
  assert (well_segmented lps) as Hlps.
  { apply map_piece_well_segmented; [apply lower_keeps_words | exact Hps]. }
  assert (∀ w, In w (words_of lps) → lowercase w) as Hlow.
  { intros w. apply words_lowercase. }
  assert (Str.lower first_line = render lps) as Hl.
  { rewrite <- (render_segment first_line) at 1. apply lower_render.
    exact Hps. }
  assert (Forall capitals A) as HA by apply uppercase_tokens_capitals.
  rewrite Hl in *.
  rewrite (sub_tokens_lowercase A lps HA Hlps Hlow).
  set (rps0 := map (map_piece (acronymise A)) lps).
  assert (well_segmented rps0) as Hrps0.
  { apply map_piece_well_segmented;
      [apply acronymise_keeps_words | exact Hlps]. }
  rewrite (capitalize_first_render rps0 Hrps0).
  set (rps := cap_pieces rps0). intros ->.
  assert (well_segmented rps) as Hrps
    by (apply cap_pieces_well_segmented; exact Hrps0).
  assert (Str.lower (render rps) = render lps) as Hlr.
  { unfold rps. rewrite <- (capitalize_first_render rps0 Hrps0).
    rewrite lower_capitalize_first, (lower_render rps0 Hrps0).
    unfold rps0. rewrite map_map. f_equal.
    rewrite <- (map_id lps) at 2. apply map_ext_in.
    intros [w|c] Hin; simpl; [|reflexivity].
    f_equal. apply lower_acronymise. apply Hlow.
    unfold words_of. apply list_elem_of_In, list_elem_of_omap.
    exists (Word w). split; [apply list_elem_of_In; exact Hin | reflexivity]. }
  unfold finish. rewrite Hlr, Hotp.
  set (B := uppercase_tokens (render rps)).
  assert (Forall capitals B) as HB by apply uppercase_tokens_capitals.
  rewrite (sub_tokens_lowercase B lps HB Hlps Hlow).
  replace (map (map_piece (acronymise B)) lps) with rps0.
  { fold rps0. apply capitalize_first_render. exact Hrps0. }
  unfold rps0. apply map_piece_ext. intros w Hw.
  pose proof (Hlow w Hw) as Hwl.
  unfold acronymise.
  destruct (existsb (fun token => Str.eqb (Str.lower token) w) A) eqn:EA;
    destruct (existsb (fun token => Str.eqb (Str.lower token) w) B) eqn:EB;
    try reflexivity; exfalso.
  - apply existsb_exists in EA. destruct EA as (T & HT & E).
    apply str_eqb_eq in E.
    assert (capitals T) as HcT.
    { rewrite Forall_forall in HA. apply HA. apply list_elem_of_In. exact HT. }
    assert (In T B) as HTB.
    { unfold B. apply (uppercase_tokens_spec rps T Hrps).
      pose proof HT as HT'. unfold A in HT'.
      rewrite <- (render_segment first_line) in HT'.
      apply (uppercase_tokens_spec ps T Hps) in HT'.
      destruct HT' as (_ & Hacr & Hlen).
      split; [|split; assumption].
      apply words_of_cap_pieces_capitals; [exact HcT|].
      unfold rps0. rewrite words_of_map. apply in_map_iff.
      exists w. split; [|exact Hw].
      unfold acronymise.
      assert (existsb (fun token => Str.eqb (Str.lower token) w) A = true)
        as ->.
      { apply existsb_exists. exists T. split; [exact HT|].
        apply str_eqb_eq. exact E. }
      rewrite <- E. apply upper_lower_capitals. exact (proj2 HcT). }
    assert (existsb (fun token => Str.eqb (Str.lower token) w) B = true)
      as EB'.
    { apply existsb_exists. exists T. split; [exact HTB|].
      apply str_eqb_eq. exact E. }
    congruence.
  - apply existsb_exists in EB. destruct EB as (U & HU & E).
    apply str_eqb_eq in E. unfold B in HU.
    apply (uppercase_tokens_spec rps U Hrps) in HU.
    destruct HU as (HUw & Hacr & _).
    apply words_of_cap_pieces_inv in HUw.
    destruct HUw as (v & Hv & HUv).
    unfold rps0 in Hv. rewrite words_of_map in Hv.
    apply in_map_iff in Hv. destruct Hv as (w' & Hv & Hw').
    assert (w' = w) as ->.
    { rewrite <- E.
      assert (Str.lower U = Str.lower v) as ->.
      { destruct HUv as [->| ->];
          [reflexivity | apply lower_capitalize_first]. }
      rewrite <- Hv. symmetry. apply lower_acronymise. apply Hlow.
      exact Hw'. }
    unfold acronymise in Hv. rewrite EA in Hv. subst v.
    rewrite (acronym_not_lowercase U w Hwl HUv) in Hacr. discriminate Hacr.
Qed.

(** ** Texts the cleanup steps leave alone *)

Lemma replace_go_absent (x : ascii) (old new s : str) :
  Str.contains x s = false → Str.replace_go (x :: old) new 0 s = s.
Proof.
  induction s as [|c s IH]; simpl; [reflexivity|].
  rewrite orb_false_iff. intros [Hc Hs]. rewrite Hc. simpl.
  rewrite (IH Hs). reflexivity.
Qed.

Lemma take_while_all (p : ascii → bool) (s : str) :
  forallb p s = true → Str.take_while p s = s.
Proof.
  induction s as [|c s IH]; simpl; [reflexivity|].
  rewrite andb_true_iff. intros [Hc Hs]. rewrite Hc, (IH Hs). reflexivity.
Qed.

Lemma rstrip_by_last (p : ascii → bool) (s : str) (d : ascii) :
  Str.nonempty s = true → p (List.last s d) = false →
  Str.rstrip_by p s = s.
Proof.
  destruct s as [|c s] using rev_ind; [discriminate|].
  intros _. rewrite last_last. apply rstrip_by_snoc.
Qed.

Lemma lstrip_by_head (p : ascii → bool) (s : str) :
  match s with c :: _ => p c = false | [] => True end →
  Str.lstrip_by p s = s.
Proof.
  destruct s as [|c s]; [reflexivity|]. intros Hc.
  unfold Str.lstrip_by. apply drop_while_head. exact Hc.
Qed.

Lemma strip_by_fixed (p : ascii → bool) (s : str) (d : ascii) :
  Str.nonempty s = true →
  match s with c :: _ => p c = false | [] => True end →
  p (List.last s d) = false →
  Str.strip_by p s = s.
Proof.
  intros Hne Hhead Hlast. unfold Str.strip_by.
  rewrite (lstrip_by_head p s Hhead). apply (rstrip_by_last p s d Hne Hlast).
Qed.

Lemma stray_split_without_quote (s : str) :
  Str.contains Char.dquote s = false → Re.stray_split s = (s, None).
Proof.
  induction s as [|c s IH]; [reflexivity|].
  simpl Str.contains. rewrite orb_false_iff. intros [Hc Hs].
  assert (Char.eqb c Char.dquote = false) as Hc'.
  { destruct (Char.eqb c Char.dquote) eqn:E; [|reflexivity].
    apply char_eqb_eq in E. subst c. exact Hc. }
  cbn [Re.stray_split Re.stray_at]. rewrite Hc'. rewrite (IH Hs).
  reflexivity.
Qed.

Lemma collapse_go_single_spaced (in_run : bool) (s : str) :
  single_spaced in_run s = true → Re.collapse_go in_run s = s.
Proof.
  revert in_run. induction s as [|c s IH]; intros in_run; simpl;
    [reflexivity|].
  destruct (Char.is_space c).
  - rewrite !andb_true_iff, negb_true_iff.
    intros [[Hc ->] Hs]. apply char_eqb_eq in Hc. subst c.
    rewrite (IH true Hs). reflexivity.
  - intros Hs. rewrite (IH false Hs). reflexivity.
Qed.

Lemma single_spaced_contains (x : ascii) (p : bool) (s : str) :
  single_spaced p s = true →
  Char.is_space x = true → Char.eqb x Char.space = false →
  Str.contains x s = false.
Proof.
  intros Hs Hx Hne. revert p Hs.
  induction s as [|c s IH]; intros p; simpl; [reflexivity|].
  destruct (Char.is_space c) eqn:Hc.
  - rewrite !andb_true_iff. intros [[Hsp _] Hs].
    apply char_eqb_eq in Hsp. subst c. rewrite Hne. simpl. exact (IH _ Hs).
  - intros Hs. rewrite (IH _ Hs), orb_false_r.
    destruct (Char.eqb x c) eqn:E; [|reflexivity].
    apply char_eqb_eq in E. subst c. congruence.
Qed.

Lemma forallb_last {A} (p : A → bool) (l : list A) (d : A) :
  l ≠ [] → forallb p l = true → p (List.last l d) = true.
Proof.
  intros Hne Hp. rewrite forallb_forall in Hp. apply Hp.
  destruct l as [|x l]; [congruence|].
  destruct (exists_last (l := x :: l) ltac:(discriminate)) as (l' & y & ->).
  rewrite last_last. apply in_or_app. right. left. reflexivity.
Qed.

Lemma contains_forallb (x : ascii) (s : str) :
  forallb (fun c => negb (Char.eqb x c)) s = true →
  Str.contains x s = false.
Proof.
  induction s as [|c s IH]; simpl; [reflexivity|].
  rewrite andb_true_iff, negb_true_iff. intros [-> Hs]. exact (IH Hs).
Qed.

Lemma char_eqb_sym (a b : ascii) : Char.eqb a b = Char.eqb b a.
Proof. unfold Char.eqb. apply Ascii.eqb_sym. Qed.

Section CleanText.

Variable r : str.
Hypothesis r_clean : clean_text r = true.

Lemma clean_nonempty : Str.nonempty r = true.
Proof.
  unfold clean_text in r_clean. rewrite !andb_true_iff in r_clean. tauto.
Qed.

Lemma clean_chars :
  forallb (fun c => negb (Char.eqb Char.dquote c)
                    && negb (Char.eqb Char.underscore c)) r = true.
Proof.
  unfold clean_text in r_clean. rewrite !andb_true_iff in r_clean. tauto.
Qed.

Lemma clean_single_spaced : single_spaced true r = true.
Proof.
  unfold clean_text in r_clean. rewrite !andb_true_iff in r_clean. tauto.
Qed.

Lemma clean_last : Re.is_trailing_punct (List.last r Char.space) = false.
Proof.
  unfold clean_text in r_clean. rewrite !andb_true_iff in r_clean.
  apply negb_true_iff. tauto.
Qed.

Lemma clean_no_dquote : Str.contains Char.dquote r = false.
Proof.
  apply contains_forallb. pose proof clean_chars as H.
  rewrite forallb_forall in H. apply forallb_forall. intros c Hc.
  specialize (H c Hc). apply andb_true_iff in H. tauto.
Qed.

Lemma clean_no_underscore : Str.contains Char.underscore r = false.
Proof.
  apply contains_forallb. pose proof clean_chars as H.
  rewrite forallb_forall in H. apply forallb_forall. intros c Hc.
  specialize (H c Hc). apply andb_true_iff in H. tauto.
Qed.

Lemma clean_head_not_space :
  match r with c :: _ => Char.is_space c = false | [] => True end.
Proof.
  pose proof clean_single_spaced as H. destruct r as [|c s]; [exact I|].
  simpl in H. destruct (Char.is_space c); [|reflexivity].
  rewrite andb_false_r in H. discriminate H.
Qed.

Lemma clean_last_not_space : Char.is_space (List.last r Char.space) = false.
Proof.
  pose proof clean_last as H. unfold Re.is_trailing_punct in H.
  rewrite !orb_false_iff in H. tauto.
Qed.

Lemma clean_strip : Str.strip r = r.
Proof.
  apply (strip_by_fixed _ r Char.space).
  - exact clean_nonempty.
  - exact clean_head_not_space.
  - exact clean_last_not_space.
Qed.

Lemma clean_not_in (l : list str) :
  forallb (fun x => negb (clean_text x)) l = true → Str.mem r l = false.
Proof.
  intros Hl. unfold Str.mem.
  destruct (existsb (Str.eqb r) l) eqn:E; [|reflexivity].
  apply existsb_exists in E. destruct E as (x & Hx & E).
  apply str_eqb_eq in E. subst x.
  rewrite forallb_forall in Hl. specialize (Hl r Hx).
  rewrite r_clean in Hl. discriminate Hl.
Qed.

Lemma clean_strip_dquote : Str.strip_char Char.dquote r = r.
Proof.
  pose proof clean_chars as H. pose proof clean_nonempty as Hne.
  apply (strip_by_fixed _ r Char.space); [exact Hne | |].
  - destruct r as [|c s]; [exact I|]. simpl in H.
    rewrite !andb_true_iff, !negb_true_iff in H. tauto.
  - assert (r ≠ []) as Hr by (destruct r; [discriminate Hne | discriminate]).
    pose proof (forallb_last _ r Char.space Hr H) as Hl. simpl in Hl.
    rewrite !andb_true_iff, !negb_true_iff in Hl. tauto.
Qed.

Lemma clean_not_quoted : Str.startswith [Char.dquote] r = false.
Proof.
  pose proof clean_chars as H. destruct r as [|c s]; [reflexivity|].
  simpl in H |- *. rewrite !andb_true_iff, !negb_true_iff in H.
  rewrite andb_true_r. tauto.
Qed.

(** The cleanup steps return a clean text as it is. *)
Lemma cleanup_clean_text : cleanup r = Some r.
Proof.
  unfold cleanup. cbv zeta. unfold Str.replace.
  rewrite (replace_go_absent Char.cr)
    by (apply (single_spaced_contains _ true);
        [exact clean_single_spaced | reflexivity | reflexivity]).
  rewrite clean_strip, clean_nonempty.
  rewrite clean_not_in by (vm_compute; reflexivity).
  cbn [negb orb].
  unfold Str.split_head. rewrite take_while_all.
  2:{ apply forallb_forall. intros c Hc. apply negb_true_iff.
      pose proof (single_spaced_contains Char.newline true r
                    clean_single_spaced eq_refl eq_refl) as Hn.
      unfold Str.contains in Hn.
      destruct (Char.eqb Char.newline c) eqn:E; [|reflexivity].
      rewrite <- Hn. symmetry. apply existsb_exists.
      exists c. split; assumption. }
  rewrite clean_strip. unfold unquote.
  rewrite clean_not_quoted. cbn [andb].
  rewrite clean_strip_dquote, clean_strip, clean_nonempty.
  rewrite clean_not_in by (vm_compute; reflexivity).
  cbn [negb orb].
  rewrite (replace_go_absent Char.nbsp)
    by (apply (single_spaced_contains _ true);
        [exact clean_single_spaced | reflexivity | reflexivity]).
  unfold Re.collapse_ws. rewrite collapse_go_single_spaced.
  2:{ pose proof clean_single_spaced as H. pose proof clean_head_not_space.
      destruct r as [|c s]; [reflexivity|]. simpl in *.
      destruct (Char.is_space c); [discriminate|]. exact H. }
  rewrite clean_strip.
  rewrite (stray_split_without_quote r clean_no_dquote).
  cbn [snd fst]. rewrite bool_decide_eq_false_2 by (intros [x Hx]; discriminate).
  cbn [andb].
  unfold Re.strip_trailing_punct.
  rewrite (rstrip_by_last _ r Char.space clean_nonempty clean_last).
  rewrite clean_strip, clean_no_underscore. reflexivity.
Qed.

End CleanText.

(** C5, as stated, fails: the normaliser is not idempotent on its non-blank
    outputs.  The underscore step runs after the trailing punctuation has
    been stripped and can expose punctuation again, and a line of
    punctuation other than the listed tokens normalises to the empty text,
    which is not the blank sentinel but normalises to it. *)
Lemma normalize_not_idempotent :
  normalize (py "foo,_") = py "Foo,"
  ∧ Str.eqb (normalize (py "foo,_")) BLANK_MESSAGE = false
  ∧ normalize (normalize (py "foo,_")) = py "Foo"
  ∧ normalize (py ";") = []
  ∧ normalize (normalize (py ";")) = BLANK_MESSAGE.
Proof. repeat split; vm_compute; reflexivity. Qed.

(** C5, amended.  On a text free of Latin-1 letters the normaliser is
    idempotent on every output that its cleanup steps (1 to 8) leave
    unchanged: if those steps, applied to [normalize s], return
    [normalize s] itself, then normalising again changes nothing.  That is so in particular for every output that is
    not empty and not a pair of single quotes, holds no double quote and no
    underscore, has single spaces as its only whitespace, none of them
    first, and does not end with whitespace or trailing punctuation.  The
    input is a text of ASCII characters and Latin-1 symbols ([exact_text]);
    on such a text the OTP and acronym steps (9 to 11) are idempotent
    ([finish_idempotent]).  A Latin-1 letter can break the property even on
    a clean output: Python upper-cases the sharp s to two letters, of which
    the second normalisation lower-cases the second. *)
Theorem normalize_idempotent_on_clean_output (s : str) :
  exact_text s = true →
  (cleanup (normalize s) = Some (normalize s) →
   normalize (normalize s) = normalize s)
  ∧ (clean_text (normalize s) = true →
     normalize (normalize s) = normalize s).
Proof.
  intros _.
  assert (cleanup (normalize s) = Some (normalize s) →
          normalize (normalize s) = normalize s) as H.
  { intros Hclean. unfold normalize at 1, _normalise_message at 1.
    rewrite Hclean. unfold normalize, _normalise_message.
    destruct (cleanup s) as [first_line|].
    - apply finish_idempotent.
    - vm_compute. reflexivity. }
  split; [exact H|].
  intros Hclean. apply H. apply cleanup_clean_text. exact Hclean.
Qed.

Lemma normalize_idempotent_on_clean_output_witness :
  let s := py "  ATM" ++ [Char.nbsp] ++ py "  card DECLINED by bank;  " in
  let s' := py "PIN_ERROR" in
  exact_text s = true
  ∧ normalize s = py "ATM card declined by bank"
  ∧ normalize (normalize s) = normalize s
  ∧ exact_text s' = true
  ∧ normalize s' = py "Pin error"
  ∧ normalize (normalize s') = normalize s'.
Proof.
  intros s s'.
  assert (exact_text s = true) as Hs by (vm_compute; reflexivity).
  assert (exact_text s' = true) as Hs' by (vm_compute; reflexivity).
  split; [exact Hs|]. split; [vm_compute; reflexivity|].
  split; [|split; [exact Hs'|split; [vm_compute; reflexivity|]]].
  - apply (proj1 (normalize_idempotent_on_clean_output s Hs)).
    vm_compute. reflexivity.
  - apply (proj2 (normalize_idempotent_on_clean_output s' Hs')).
    vm_compute. reflexivity.
Defined.

(** * Further properties of the scan, the normaliser and the summaries *)

(** ** The first boundary *)

Lemma is_boundary_range (row : list str) (j : nat) :
  is_boundary row j = true → j + 1 < length row.
Proof.
  unfold is_boundary. destruct (row !! j) eqn:E1; [|discriminate].
  destruct (row !! (j + 1)) eqn:E2; [|discriminate]. intros _.
  apply lookup_lt_Some in E2. exact E2.
Qed.

Lemma find_provider_loop_first (row : list str) (count idx k : nat) :
  find_provider_loop row idx count = Some k →
  ∀ j, idx ≤ j → j < k → is_boundary row j = false.
Proof.
  revert idx. induction count as [|count IH]; intros idx; simpl.
  - discriminate.
  - destruct (is_boundary row idx) eqn:Hb.
    + intros [= <-] j H1 H2. lia.
    + intros H j H1 H2. destruct (decide (j = idx)) as [->|Hne];
        [exact Hb|]. apply (IH _ H); lia.
Qed.

Lemma find_provider_loop_none (row : list str) (count idx : nat) :
  find_provider_loop row idx count = None →
  ∀ j, idx ≤ j → j < idx + count → is_boundary row j = false.
Proof.
  revert idx. induction count as [|count IH]; intros idx; simpl.
  - intros _ j H1 H2. lia.
  - destruct (is_boundary row idx) eqn:Hb; [discriminate|].
    intros H j H1 H2. destruct (decide (j = idx)) as [->|Hne];
      [exact Hb|]. apply (IH _ H); lia.
Qed.

Lemma find_next_provider_index_none (row : list str) (start : nat) :
  _find_next_provider_index row start = None →
  ∀ j, start ≤ j → is_boundary row j = false.
Proof.
  intros Hk j Hj. destruct (is_boundary row j) eqn:Hb; [|reflexivity].
  apply is_boundary_range in Hb as Hr.
  unfold _find_next_provider_index in Hk.
  rewrite <- Hb. apply (find_provider_loop_none _ _ _ Hk); lia.
Qed.

(** X1. [_find_next_provider_index] returns the first boundary at or after
    [start]: the index it returns is one, no index between [start] and it
    is one, and when it returns [None] there is no boundary at or after
    [start] at all. *)
Theorem find_next_provider_index_first (row : list str) (start : nat) :
  match _find_next_provider_index row start with
  | Some k =>
      start ≤ k ∧ k + 1 < length row ∧ is_boundary row k = true
      ∧ ∀ j, start ≤ j → j < k → is_boundary row j = false
  | None => ∀ j, start ≤ j → is_boundary row j = false
  end.
Proof.
  destruct (_find_next_provider_index row start) as [k|] eqn:Hk.
  - pose proof (find_next_provider_index_spec _ _ _ Hk) as (H1 & H2 & H3).
    repeat split; try assumption.
    unfold _find_next_provider_index in Hk.
    exact (find_provider_loop_first _ _ _ _ Hk).
  - exact (find_next_provider_index_none _ _ Hk).
Qed.

(** ** Rows without a boundary *)

Lemma extract_step_none (provider_iter region_iter : list str)
  (row : list str) (default_dt : str) (i : nat) :
  extract_step provider_iter region_iter row default_dt i = None
  ↔ _find_next_provider_index row i = None.
Proof.
  rewrite extract_step_scan. unfold scan_step.
  destruct (_find_next_provider_index row i) as [k|]; [|done].
  destruct (scan_customer row (k + 2) (length row - (k + 2)) [])
    as [idx1 parts].
  destruct (length row <=? idx1); [done|].
  destruct (length row <=? _); [done|].
  match goal with
  | |- context [scan_message row ?j ?f []] =>
      destruct (scan_message row j f []) as [[message_parts payment_date] idx4]
  end.
  done.
Qed.

(** X2. The scan of a row makes no turn exactly when the row has no
    adjacent (provider, region) pair; such a row yields no candidate. *)
Theorem no_turn_iff_no_boundary (provider_iter region_iter : list str)
  (row : list str) (default_dt : str) :
  (extract_trace provider_iter region_iter row default_dt = Some []
   ↔ ∀ j, is_boundary row j = false)
  ∧ ((∀ j, is_boundary row j = false) →
     extract_transactions provider_iter region_iter row default_dt = []).
Proof.
  assert ((∀ j, is_boundary row j = false) →
          extract_trace provider_iter region_iter row default_dt = Some [])
    as Hback.
  { intros Hno. unfold extract_trace.
    destruct (length row) as [|n] eqn:Hn; simpl; rewrite Hn; simpl;
      [reflexivity|].
    assert (extract_step provider_iter region_iter row default_dt 0 = None)
      as ->; [|reflexivity].
    apply extract_step_none.
    destruct (_find_next_provider_index row 0) as [k|] eqn:Hk;
      [|reflexivity].
    apply find_next_provider_index_spec in Hk.
    destruct Hk as (_ & _ & Hb). rewrite Hno in Hb. discriminate. }
  split; [split; [|exact Hback]|].
  - unfold extract_trace. intros Hrun j.
    destruct (length row) as [|n] eqn:Hn.
    + destruct (is_boundary row j) eqn:Hb; [|reflexivity].
      apply is_boundary_range in Hb. lia.
    + simpl in Hrun. rewrite Hn in Hrun. simpl in Hrun.
      destruct (extract_step provider_iter region_iter row default_dt 0)
        as [a|] eqn:Ha.
      * destruct (extract_loop _ _ n row default_dt (resume_of a));
          discriminate.
      * apply extract_step_none in Ha.
        apply (find_next_provider_index_none _ _ Ha). lia.
  - intros Hno. unfold extract_transactions. rewrite (Hback Hno).
    reflexivity.
Qed.

Lemma no_turn_iff_no_boundary_witness :
  let row := [py "id"; py "cellulant"; py "Lagos"; py "Nigeria"] in
  extract_transactions (elements PROVIDERS) REGIONS row (py "<missing-date>")
  = [].
Proof.
  intros row.
  apply (no_turn_iff_no_boundary (elements PROVIDERS) REGIONS row
           (py "<missing-date>")).
  intros j. destruct (is_boundary row j) eqn:Hb; [|reflexivity].
  apply is_boundary_range in Hb as Hr. simpl in Hr.
  destruct j as [|[|[|j]]]; [vm_compute in Hb; discriminate ..|lia].
Defined.

(** ** The layout of a scanned record *)

Lemma scan_customer_spec (row : list str) (fuel idx : nat)
  (parts : list str) :
  length row - idx ≤ fuel →
  let r := scan_customer row idx fuel parts in
  idx ≤ r.1 ∧ r.1 ≤ length row `max` idx
  ∧ r.2 = parts ++ customer_parts_of row idx r.1
  ∧ (∀ j, idx ≤ j → j < r.1 →
       Str.lower (Str.strip (row !!! j)) ∉ STATUSES)
  ∧ (r.1 < length row →
     Str.lower (Str.strip (row !!! r.1)) ∈ STATUSES).
Proof.
  unfold customer_parts_of.
  revert idx parts. induction fuel as [|fuel IH]; intros idx parts Hf; simpl.
  - replace (idx - idx) with 0 by lia. simpl. rewrite app_nil_r.
    repeat split; try lia.
  - destruct (row !! idx) as [cell|] eqn:Hcell; simpl.
    + apply lookup_lt_Some in Hcell as Hlt.
      destruct (in_set _ STATUSES) eqn:Hs; simpl.
      * replace (idx - idx) with 0 by lia. simpl. rewrite app_nil_r.
        repeat split; try lia.
        intros _. rewrite (list_lookup_total_correct _ _ _ Hcell).
        apply in_set_true. exact Hs.
      * match goal with |- context [scan_customer row (idx + 1) fuel ?p] =>
          specialize (IH (idx + 1) p) end.
        destruct IH as (I1 & I2 & I3 & I4 & I5); [lia|].
        set (r := scan_customer row (idx + 1) fuel _) in *.
        split; [lia|]. split; [lia|]. split; [|split].
        -- rewrite I3.
           replace (r.1 - idx) with (S (r.1 - (idx + 1))) by lia.
           rewrite (drop_S _ _ _ Hcell). simpl.
           replace (S idx) with (idx + 1) by lia.
           destruct (Str.nonempty (Str.strip cell)); simpl;
             [rewrite <- app_assoc|]; reflexivity.
        -- intros j H1 H2. destruct (decide (j = idx)) as [->|Hne].
           ++ rewrite (list_lookup_total_correct _ _ _ Hcell).
              apply in_set_false. exact Hs.
           ++ apply I4; lia.
        -- exact I5.
    + apply lookup_ge_None in Hcell.
      replace (idx - idx) with 0 by lia. simpl. rewrite app_nil_r.
      repeat split; try lia.
Qed.

Lemma scan_channel_spec (row : list str) (fuel idx : nat) :
  length row - idx ≤ fuel →
  let r := scan_channel row idx fuel in
  idx ≤ r ∧ r ≤ length row `max` idx
  ∧ (∀ j, idx ≤ j → j < r →
       Str.lower (Str.strip (row !!! j)) ∉ CHANNELS)
  ∧ (r < length row → Str.lower (Str.strip (row !!! r)) ∈ CHANNELS).
Proof.
  revert idx. induction fuel as [|fuel IH]; intros idx Hf; simpl.
  - repeat split; try lia.
  - destruct (row !! idx) as [cell|] eqn:Hcell; simpl.
    + apply lookup_lt_Some in Hcell as Hlt.
      destruct (in_set _ CHANNELS) eqn:Hs; simpl.
      * repeat split; try lia.
        intros _. rewrite (list_lookup_total_correct _ _ _ Hcell).
        apply in_set_true. exact Hs.
      * specialize (IH (idx + 1)).
        destruct IH as (I1 & I2 & I3 & I4); [lia|].
        set (r := scan_channel row (idx + 1) fuel) in *.
        split; [lia|]. split; [lia|]. split.
        -- intros j H1 H2. destruct (decide (j = idx)) as [->|Hne].
           ++ rewrite (list_lookup_total_correct _ _ _ Hcell).
              apply in_set_false. exact Hs.
           ++ apply I3; lia.
        -- exact I4.
    + apply lookup_ge_None in Hcell. repeat split; try lia.
Qed.

Lemma is_number_nonempty (token : str) :
  Str.nonempty token && _is_number token = _is_number token.
Proof. destruct token; reflexivity. Qed.

Lemma scan_message_spec (row : list str) (fuel idx : nat)
  (parts : list str) :
  length row - idx ≤ fuel →
  let r := scan_message row idx fuel parts in
  ∃ len,
    idx + len ≤ length row `max` idx
    ∧ r.1.1 = parts ++ take len (drop idx row)
    ∧ length r.1.1 = length parts + len
    ∧ r.2 = idx + len + (if Str.nonempty r.1.2 then 1 else 0)
    ∧ r.2 ≤ length row `max` idx
    ∧ (∀ j, idx ≤ j → j < idx + len → joins_message row j)
    ∧ (Str.nonempty r.1.2 = true →
       Re.iso_match (Str.strip (row !!! (idx + len))) = true).
Proof.
  revert idx parts. induction fuel as [|fuel IH]; intros idx parts Hf.
  - exists 0. simpl. rewrite app_nil_r. repeat split; try lia; try discriminate.
  - simpl. destruct (row !! idx) as [raw|] eqn:Hraw.
    2:{ exists 0. simpl. rewrite app_nil_r. repeat split; try lia; try discriminate. }
    apply lookup_lt_Some in Hraw as Hlt.
    destruct (Re.iso_match (Str.strip raw)) eqn:Hiso.
    { exists 0. simpl. rewrite app_nil_r.
      rewrite (iso_match_nonempty _ Hiso). repeat split; try lia.
      rewrite Nat.add_0_r, (list_lookup_total_correct _ _ _ Hraw).
      intros _. exact Hiso. }
    destruct (bool_decide (_find_next_provider_index row idx = Some idx))
      eqn:Hlook.
    { exists 0. simpl. rewrite app_nil_r. repeat split; try lia; try discriminate. }
    destruct (in_set (Str.lower (Str.strip raw)) PROVIDERS) eqn:Hp.
    { exists 0. simpl. rewrite app_nil_r. repeat split; try lia; try discriminate. }
    destruct (in_set (Str.strip raw) REGION_SET) eqn:Hr.
    { exists 0. simpl. rewrite app_nil_r. repeat split; try lia; try discriminate. }
    cbn [orb].
    destruct (Str.contains Char.at_sign (Str.strip raw)) eqn:Hat.
    { exists 0. simpl. rewrite app_nil_r. repeat split; try lia; try discriminate. }
    destruct (in_set (Str.lower (Str.strip raw)) STATUSES) eqn:Hs.
    { exists 0. simpl. rewrite app_nil_r. repeat split; try lia; try discriminate. }
    destruct (in_set (Str.lower (Str.strip raw)) CHANNELS) eqn:Hc.
    { exists 0. simpl. rewrite app_nil_r. repeat split; try lia; try discriminate. }
    cbn [orb]. rewrite is_number_nonempty.
    destruct (_is_number _) eqn:Hnum.
    { exists 0. simpl. rewrite app_nil_r. repeat split; try lia; try discriminate. }
    destruct (IH (idx + 1) (parts ++ [raw]))
      as (len & I1 & I2 & I3 & I4 & I5 & I6 & I7); [lia|].
    set (r := scan_message row (idx + 1) fuel (parts ++ [raw])) in *.
    exists (S len). split; [lia|].
    split; [|split; [|split; [|split; [|split]]]].
    + rewrite I2, <- app_assoc. simpl. rewrite (drop_S _ _ _ Hraw).
      replace (S idx) with (idx + 1) by lia. reflexivity.
    + rewrite I3, length_app. simpl. lia.
    + rewrite I4. lia.
    + lia.
    + intros j H1 H2. destruct (decide (j = idx)) as [->|Hne];
        [|apply I6; lia].
      unfold joins_message. rewrite (list_lookup_total_correct _ _ _ Hraw).
      cbv zeta. rewrite <- !in_set_false.
      repeat split; try assumption.
      intros cell Hcell. rewrite Hcell in Hnum. exact Hnum.
    + intros Hd. replace (idx + S len) with (idx + 1 + len) by lia.
      apply I7. exact Hd.
Qed.

Lemma scan_step_layout (row : list str) (i k : nat) (sc : scanned) :
  scan_step row i = Some (k, Some sc) →
  ∃ s ch m,
    k + 2 ≤ s ∧ s < ch ∧ ch < m ∧ m ≤ sc_idx sc ∧ sc_idx sc ≤ length row
    ∧ i ≤ k ∧ is_boundary row k = true
    ∧ sc_provider sc = Str.lower (Str.strip (row !!! k))
    ∧ sc_region sc = Str.strip (row !!! (k + 1))
    ∧ sc_status sc = Str.lower (Str.strip (row !!! s))
    ∧ sc_channel sc = Str.lower (Str.strip (row !!! ch))
    ∧ sc_customer sc = pick_customer (customer_parts_of row (k + 2) s)
    ∧ (∀ j, k + 2 ≤ j → j < s →
         Str.lower (Str.strip (row !!! j)) ∉ STATUSES)
    ∧ (∀ j, s < j → j < ch →
         Str.lower (Str.strip (row !!! j)) ∉ CHANNELS)
    ∧ (∀ j, ch < j → j < m →
         Str.mem (Str.lower (Str.strip (row !!! j))) [py "live"; py "test"]
         = true)
    ∧ scan_message row m (length row - m) []
      = (sc_message_parts sc, sc_payment_date sc, sc_idx sc).
Proof.
  unfold scan_step.
  destruct (_find_next_provider_index row i) as [k'|] eqn:Hk;
    [|discriminate].
  apply find_next_provider_index_spec in Hk. destruct Hk as (Hk1 & Hk2 & Hb).
  pose proof (scan_customer_spec row (length row - (k' + 2)) (k' + 2) []
                ltac:(lia)) as Hc.
  destruct (scan_customer row (k' + 2) (length row - (k' + 2)) [])
    as [idx1 parts]. cbv zeta in Hc. simpl in Hc.
  destruct Hc as (C1 & C2 & C3 & C4 & C5).
  destruct (length row <=? idx1) eqn:H1; [discriminate|].
  apply Nat.leb_gt in H1.
  pose proof (scan_channel_spec row (length row - (idx1 + 1)) (idx1 + 1)
                ltac:(lia)) as Hch.
  cbv zeta in Hch.
  set (idx2 := scan_channel row (idx1 + 1) (length row - (idx1 + 1))) in *.
  destruct Hch as (D1 & D2 & D3 & D4).
  destruct (length row <=? idx2) eqn:H2; [discriminate|].
  apply Nat.leb_gt in H2.
  set (idx3 := if _ && _ then idx2 + 1 + 1 else idx2 + 1).
  assert (idx2 + 1 ≤ idx3 ∧ idx3 ≤ length row
          ∧ ∀ j, idx2 < j → j < idx3 →
              Str.mem (Str.lower (Str.strip (row !!! j)))
                [py "live"; py "test"] = true) as (M1 & M2 & M3).
  { subst idx3. destruct (bool_decide (idx2 + 1 < length row)) eqn:Hd;
      cbn [andb]; [|repeat split; try lia].
    apply bool_decide_eq_true in Hd.
    match goal with |- context [Str.mem ?x ?l] =>
      destruct (Str.mem x l) eqn:Hm end; repeat split; try lia.
    intros j J1 J2. replace j with (idx2 + 1) by lia. exact Hm. }
  pose proof (scan_message_bounds row (length row - idx3) idx3 []) as Hm.
  destruct (scan_message row idx3 (length row - idx3) [])
    as [[message_parts payment_date] idx4] eqn:Hscan. simpl in Hm.
  intros [= <- <-]. simpl.
  exists idx1, idx2, idx3.
  split; [lia|]. split; [lia|]. split; [lia|]. split; [lia|].
  split; [lia|]. split; [exact Hk1|]. split; [exact Hb|].
  do 4 (split; [reflexivity|]).
  split; [rewrite C3; reflexivity|].
  split; [exact C4|]. split; [intros j J1 J2; apply D3; lia|].
  split; [exact M3|]. exact Hscan.
Qed.

Lemma extract_step_emitted (provider_iter region_iter : list str)
  (row : list str) (default_dt : str) (i k idx : nat) (c : candidate) :
  extract_step provider_iter region_iter row default_dt i
    = Some (Emitted k c idx) →
  ∃ sc,
    scan_step row i = Some (k, Some sc)
    ∧ idx = sc_idx sc
    ∧ c = Candidate (sc_provider sc) (sc_region sc) (sc_status sc)
            (sc_channel sc)
            (assemble_message provider_iter region_iter
               (sc_message_parts sc))
            (if Str.nonempty (sc_payment_date sc) then sc_payment_date sc
             else default_dt)
            (sc_customer sc).
Proof.
  rewrite extract_step_scan.
  destruct (scan_step row i) as [[k' [sc|]]|]; simpl; try discriminate.
  intros [= <- <- <-]. exists sc. repeat split.
Qed.

(** X3. In the turn that yields a candidate, the provider and the region are
    the two boundary cells, the status is the first status word after them,
    the channel the first channel word after the status, all four at
    increasing positions before the offset the scan resumes from, and the
    customer is chosen among the non-empty cells between the region and the
    status. *)
Theorem yielded_fields_located (provider_iter region_iter : list str)
  (row : list str) (default_dt : str) (i k idx : nat) (c : candidate) :
  extract_step provider_iter region_iter row default_dt i
    = Some (Emitted k c idx) →
  ∃ s ch,
    i ≤ k ∧ k + 2 ≤ s ∧ s < ch ∧ ch < idx ∧ idx ≤ length row
    ∧ cand_provider c = Str.lower (Str.strip (row !!! k))
    ∧ cand_region c = Str.strip (row !!! (k + 1))
    ∧ cand_status c = Str.lower (Str.strip (row !!! s))
    ∧ (∀ j, k + 2 ≤ j → j < s →
         Str.lower (Str.strip (row !!! j)) ∉ STATUSES)
    ∧ cand_channel c = Str.lower (Str.strip (row !!! ch))
    ∧ (∀ j, s < j → j < ch →
         Str.lower (Str.strip (row !!! j)) ∉ CHANNELS)
    ∧ cand_customer c = pick_customer (customer_parts_of row (k + 2) s).
Proof.
  intros H. apply extract_step_emitted in H.
  destruct H as (sc & Hs & -> & ->).
  apply scan_step_layout in Hs.
  destruct Hs as (s & ch & m & L1 & L2 & L3 & L4 & L5 & L6 & L7 & L8 & L9
                  & L10 & L11 & L12 & L13 & L14 & L15 & L16).
  exists s, ch. simpl.
  split; [lia|]. split; [lia|]. split; [lia|]. split; [lia|].
  split; [lia|]. repeat split; assumption.
Qed.

Lemma yielded_fields_located_witness :
  let row :=
    [py "x"; py " Paystack "; py "Ghana"; py ""; py "Ama"; py "ama@x.com";
     py "FAILED"; py "ref-1"; py "Card"; py "live"; py "Declined"] in
  let c :=
    Candidate (py "paystack") (py "Ghana") (py "failed") (py "card")
      (py "Declined") (py "<missing-date>") (py "ama@x.com") in
  extract_step (elements PROVIDERS) REGIONS row (py "<missing-date>") 0
  = Some (Emitted 1 c 11)
  ∧ ∃ s ch,
      3 ≤ s ∧ s < ch ∧ ch < 11
      ∧ cand_status c = Str.lower (Str.strip (row !!! s))
      ∧ cand_channel c = Str.lower (Str.strip (row !!! ch))
      ∧ cand_customer c = pick_customer (customer_parts_of row 3 s).
Proof.
  intros row c.
  assert (extract_step (elements PROVIDERS) REGIONS row (py "<missing-date>")
            0 = Some (Emitted 1 c 11)) as Hrun by (vm_compute; reflexivity).
  split; [exact Hrun|].
  destruct (yielded_fields_located _ _ _ _ _ _ _ _ Hrun)
    as (s & ch & _ & H1 & H2 & H3 & _ & _ & _ & Hs & _ & Hc & _ & Hcust).
  exists s, ch.
  split; [lia|]. split; [lia|]. split; [lia|]. split; [exact Hs|].
  split; [exact Hc|]. exact Hcust.
Defined.

(** X4. The message of a yielded candidate is assembled from a contiguous
    run of raw cells that starts after the channel (and the mode column):
    none of these cells is a timestamp, a vocabulary word or an e-mail
    address, none is followed by a number, and the scan resumes right after
    the run, or one cell later when the run ends at a timestamp. *)
Theorem message_from_contiguous_cells (provider_iter region_iter : list str)
  (row : list str) (default_dt : str) (i k idx : nat) (c : candidate) :
  extract_step provider_iter region_iter row default_dt i
    = Some (Emitted k c idx) →
  ∃ start len,
    k + 4 ≤ start ∧ start + len ≤ idx ∧ idx ≤ start + len + 1
    ∧ idx ≤ length row
    ∧ cand_message c
      = assemble_message provider_iter region_iter
          (take len (drop start row))
    ∧ length (take len (drop start row)) = len
    ∧ (∀ j, start ≤ j → j < start + len → joins_message row j)
    ∧ (idx = start + len + 1 →
       Re.iso_match (Str.strip (row !!! (start + len))) = true).
Proof.
  intros H. apply extract_step_emitted in H.
  destruct H as (sc & Hs & -> & ->).
  apply scan_step_layout in Hs.
  destruct Hs as (s & ch & m & L1 & L2 & L3 & L4 & L5 & L6 & L7 & L8 & L9
                  & L10 & L11 & L12 & L13 & L14 & L15 & L16).
  pose proof (scan_message_spec row (length row - m) m [] ltac:(lia)) as Hm.
  cbv zeta in Hm. rewrite L16 in Hm. simpl in Hm.
  destruct Hm as (len & M1 & M2 & M3 & M4 & M5 & M6 & M7).
  exists m, len. simpl.
  split; [lia|]. split; [lia|]. split.
  { rewrite M4. destruct (Str.nonempty _); lia. }
  split; [lia|]. split; [rewrite M2; reflexivity|].
  split; [rewrite <- M2; exact M3|]. split; [exact M6|].
  intros Hd. apply M7. destruct (Str.nonempty _); [reflexivity|lia].
Qed.

Lemma message_from_contiguous_cells_witness :
  let row :=
    [py "hubtel"; py "Ghana"; py "k@x.com"; py "failed"; py "card";
     py "test"; py "Insufficient funds"; py " try again";
     py "2024-02-03T08:00:00"; py "ozow"; py "South Africa"] in
  let c :=
    Candidate (py "hubtel") (py "Ghana") (py "failed") (py "card")
      (py "Insufficient funds, try again") (py "2024-02-03T08:00:00")
      (py "k@x.com") in
  extract_step (elements PROVIDERS) REGIONS row (py "<missing-date>") 0
  = Some (Emitted 0 c 9)
  ∧ ∃ start len,
      4 ≤ start ∧ start + len ≤ 9 ∧ 9 ≤ start + len + 1
      ∧ cand_message c
        = assemble_message (elements PROVIDERS) REGIONS
            (take len (drop start row))
      ∧ (∀ j, start ≤ j → j < start + len → joins_message row j).
Proof.
  intros row c.
  assert (extract_step (elements PROVIDERS) REGIONS row (py "<missing-date>")
            0 = Some (Emitted 0 c 9)) as Hrun by (vm_compute; reflexivity).
  split; [exact Hrun|].
  destruct (message_from_contiguous_cells _ _ _ _ _ _ _ _ Hrun)
    as (start & len & H1 & H2 & H3 & _ & Hmsg & _ & Hjoin & _).
  exists start, len.
  split; [lia|]. split; [lia|]. split; [lia|]. split; [exact Hmsg|].
  exact Hjoin.
Defined.

(** ** Cells per record *)

Lemma extract_loop_yield_bound (provider_iter region_iter : list str)
  (row : list str) (default_dt : str) (fuel i : nat) (turns : list attempt) :
  extract_loop provider_iter region_iter fuel row default_dt i = Some turns →
  4 * length (omap yielded turns) ≤ length row - i.
Proof.
  revert i turns. induction fuel as [|fuel IH]; intros i turns; simpl.
  - destruct (length row <=? i); [|discriminate].
    intros [= <-]. simpl. lia.
  - destruct (length row <=? i) eqn:Hn; [intros [= <-]; simpl; lia|].
    apply Nat.leb_gt in Hn.
    destruct (extract_step _ _ row default_dt i) as [a|] eqn:Ha;
      [|intros [= <-]; simpl; lia].
    destruct (extract_loop _ _ fuel row default_dt (resume_of a))
      as [rest|] eqn:Hrest; [|discriminate].
    simpl. intros [= <-]. apply IH in Hrest.
    pose proof (extract_step_progress _ _ _ _ _ _ Ha) as (P1 & P2 & P3 & _).
    destruct a as [k c idx|k];
      cbn [omap list_omap yielded resume_of boundary_of length] in *;
      [|lia].
    apply extract_step_emitted in Ha. destruct Ha as (sc & Hs & -> & _).
    apply scan_step_layout in Hs.
    destruct Hs as (s & ch & m & ?). lia.
Qed.

(** X5. A yielded candidate takes at least four cells of its row, so a row
    of [n] cells yields at most [n / 4] candidates, and a row of fewer than
    four cells none. *)
Theorem four_cells_per_candidate (provider_iter region_iter : list str)
  (row : list str) (default_dt : str) :
  4 * length (extract_transactions provider_iter region_iter row default_dt)
  ≤ length row.
Proof.
  unfold extract_transactions, extract_trace.
  destruct (extract_loop _ _ (length row) row default_dt 0) as [turns|]
    eqn:Hrun; simpl; [|lia].
  apply extract_loop_yield_bound in Hrun. lia.
Qed.

(** ** Stripping *)

Lemma drop_while_all (p : ascii → bool) (s : str) :
  forallb p s = true → Str.drop_while p s = [].
Proof.
  induction s as [|c s IH]; simpl; [reflexivity|].
  destruct (p c); simpl; [exact IH | discriminate].
Qed.

Lemma drop_while_snoc (p : ascii → bool) (s : str) (c : ascii) :
  Str.drop_while p (s ++ [c])
  = if forallb p s then (if p c then [] else [c])
    else Str.drop_while p s ++ [c].
Proof.
  induction s as [|x s IH]; simpl; [reflexivity|].
  destruct (p x); simpl; [exact IH | reflexivity].
Qed.

Lemma forallb_rev {A} (p : A → bool) (l : list A) :
  forallb p (rev l) = forallb p l.
Proof.
  induction l as [|x l IH]; simpl; [reflexivity|].
  rewrite forallb_app, IH. simpl. rewrite andb_true_r. apply andb_comm.
Qed.

Lemma rstrip_by_cons (p : ascii → bool) (c : ascii) (s : str) :
  Str.rstrip_by p (c :: s)
  = if forallb p s then (if p c then [] else [c])
    else c :: Str.rstrip_by p s.
Proof.
  unfold Str.rstrip_by. simpl. rewrite drop_while_snoc.
  rewrite forallb_rev.
  destruct (forallb p s); [destruct (p c); reflexivity|].
  rewrite rev_app_distr. reflexivity.
Qed.

Lemma rstrip_by_all (p : ascii → bool) (s : str) :
  forallb p s = true → Str.rstrip_by p s = [].
Proof.
  intros H. unfold Str.rstrip_by. rewrite drop_while_all; [reflexivity|].
  rewrite forallb_rev. exact H.
Qed.

Lemma strip_by_all (p : ascii → bool) (s : str) :
  forallb p s = true → Str.strip_by p s = [].
Proof.
  intros H. unfold Str.strip_by, Str.lstrip_by.
  rewrite (drop_while_all _ _ H). reflexivity.
Qed.

Lemma drop_while_head_clear (p : ascii → bool) (s : str) :
  match Str.drop_while p s with c :: _ => p c = false | [] => True end.
Proof.
  induction s as [|c s IH]; simpl; [exact I|].
  destruct (p c) eqn:E; [exact IH | exact E].
Qed.

Lemma rstrip_by_head (p : ascii → bool) (s : str) :
  match s with c :: _ => p c = false | [] => True end →
  match Str.rstrip_by p s with c :: _ => p c = false | [] => True end.
Proof.
  destruct s as [|c s]; [intros _; exact I|].
  intros Hc. rewrite rstrip_by_cons, Hc.
  destruct (forallb p s); exact Hc.
Qed.

Lemma strip_by_ends_clear (p : ascii → bool) (s : str) :
  ends_clear p (Str.strip_by p s).
Proof.
  split.
  - apply rstrip_by_head. apply drop_while_head_clear.
  - unfold Str.strip_by, Str.rstrip_by. rewrite rev_involutive.
    apply drop_while_head_clear.
Qed.

Lemma ends_clear_fixed (p : ascii → bool) (s : str) :
  ends_clear p s → Str.strip_by p s = s.
Proof.
  intros [Hh Hl]. unfold Str.strip_by.
  rewrite (lstrip_by_head p s Hh). unfold Str.rstrip_by.
  destruct (rev s) as [|c r] eqn:Er; simpl.
  - apply (f_equal (@rev _)) in Er. rewrite rev_involutive in Er.
    subst s. reflexivity.
  - rewrite Hl. rewrite <- Er. apply rev_involutive.
Qed.

Lemma strip_by_idem (p : ascii → bool) (s : str) :
  Str.strip_by p (Str.strip_by p s) = Str.strip_by p s.
Proof. apply ends_clear_fixed, strip_by_ends_clear. Qed.

Lemma strip_idem (s : str) : Str.strip (Str.strip s) = Str.strip s.
Proof. apply strip_by_idem. Qed.

(** ** Characters kept by the string operations *)

Lemma forallb_drop_while (P p : ascii → bool) (s : str) :
  forallb P s = true → forallb P (Str.drop_while p s) = true.
Proof.
  induction s as [|c s IH]; simpl; [reflexivity|].
  intros H. apply andb_true_iff in H as [H1 H2].
  destruct (p c); [apply IH; exact H2|]. simpl. rewrite H1, H2. reflexivity.
Qed.

Lemma forallb_rstrip_by (P p : ascii → bool) (s : str) :
  forallb P s = true → forallb P (Str.rstrip_by p s) = true.
Proof.
  intros H. unfold Str.rstrip_by. rewrite forallb_rev.
  apply forallb_drop_while. rewrite forallb_rev. exact H.
Qed.

Lemma forallb_strip_by (P p : ascii → bool) (s : str) :
  forallb P s = true → forallb P (Str.strip_by p s) = true.
Proof.
  intros H. apply forallb_rstrip_by, forallb_drop_while. exact H.
Qed.

Lemma forallb_replace_go (P : ascii → bool) (old new : str) (skip : nat)
  (s : str) :
  forallb P new = true → forallb P s = true →
  forallb P (Str.replace_go old new skip s) = true.
Proof.
  intros Hnew. revert skip. induction s as [|c s IH]; intros skip; simpl;
    [reflexivity|].
  intros H. apply andb_true_iff in H as [H1 H2].
  destruct skip as [|k]; [|apply IH; exact H2].
  destruct (Str.startswith old (c :: s)).
  - rewrite forallb_app, Hnew. apply IH. exact H2.
  - simpl. rewrite H1. apply IH. exact H2.
Qed.

Lemma forallb_stray_split (P : ascii → bool) (s : str) :
  forallb P s = true → forallb P (Re.stray_split s).1 = true.
Proof.
  induction s as [|c s IH]; simpl.
  - reflexivity.
  - destruct (Char.eqb c Char.dquote).
    + destruct (drop _ s) as [|d rest]; simpl.
      * intros H. apply andb_true_iff in H as [H1 H2].
        destruct (Re.stray_split s) as [h t] eqn:E. simpl in *.
        rewrite H1. apply IH. exact H2.
      * destruct (Char.eqb d Char.comma); simpl; [reflexivity|].
        intros H. apply andb_true_iff in H as [H1 H2].
        destruct (Re.stray_split s) as [h t] eqn:E. simpl in *.
        rewrite H1. apply IH. exact H2.
    + intros H. apply andb_true_iff in H as [H1 H2].
      destruct (Re.stray_split s) as [h t] eqn:E. simpl in *.
      rewrite H1. apply IH. exact H2.
Qed.

Lemma plain_space_collapse (in_run : bool) (s : str) :
  forallb plain_space (Re.collapse_go in_run s) = true.
Proof.
  revert in_run. induction s as [|c s IH]; intros in_run; simpl;
    [reflexivity|].
  destruct (Char.is_space c) eqn:Hc.
  - destruct in_run; [apply IH|]. simpl. apply IH.
  - simpl. unfold plain_space at 1. rewrite Hc. simpl. apply IH.
Qed.

(** ** Case changes *)

Lemma is_space_lower (c : ascii) :
  Char.is_space (Char.lower c) = Char.is_space c.
Proof. each_char c. Qed.

Lemma plain_space_lower (c : ascii) :
  plain_space (Char.lower c) = plain_space c.
Proof. each_char c. Qed.

Lemma lower_title_go (b : bool) (s : str) :
  Str.lower (Str.title_go b s) = Str.lower s.
Proof.
  revert b. induction s as [|c s IH]; intros b; simpl; [reflexivity|].
  unfold Str.lower in IH. rewrite IH.
  destruct b; [rewrite lower_lower | rewrite lower_upper]; reflexivity.
Qed.

Lemma ends_clear_lower (s : str) :
  ends_clear Char.is_space (Str.lower s) ↔ ends_clear Char.is_space s.
Proof.
  unfold ends_clear, Str.lower. rewrite <- map_rev.
  destruct s as [|c s]; simpl; [tauto|].
  rewrite is_space_lower.
  destruct (rev s ++ [c]) as [|d r]; simpl; [tauto|].
  rewrite is_space_lower. tauto.
Qed.

Lemma strip_fixed_ends (s : str) :
  Str.strip s = s ↔ ends_clear Char.is_space s.
Proof.
  split.
  - intros <-. apply strip_by_ends_clear.
  - apply ends_clear_fixed.
Qed.

Lemma tidy_lower (a b : str) :
  Str.lower a = Str.lower b → tidy b → tidy a.
Proof.
  intros Hab [H1 H2]. split.
  - rewrite <- (forallb_ext_eq _ _ a plain_space_lower).
    rewrite <- (forallb_map plain_space Char.lower a).
    fold (Str.lower a). rewrite Hab. unfold Str.lower.
    rewrite forallb_map, (forallb_ext_eq _ _ b plain_space_lower).
    exact H1.
  - apply strip_fixed_ends, ends_clear_lower. rewrite Hab.
    apply ends_clear_lower, strip_fixed_ends. exact H2.
Qed.

(** ** The acronym steps change the case only *)

Lemma lower_finish (first_line : str) :
  existsb (fun pattern => Str.startswith pattern (Str.lower first_line))
    otp_patterns = false →
  Str.lower (finish first_line) = Str.lower first_line.
Proof.
  intros Hotp. unfold finish. rewrite Hotp.
  set (A := uppercase_tokens first_line).
  set (ps := segment first_line).
  set (lps := map (map_piece Str.lower) ps).
  assert (well_segmented ps) as Hps by apply segment_well_segmented.
  assert (well_segmented lps) as Hlps.
  { apply map_piece_well_segmented; [apply lower_keeps_words | exact Hps]. }
  assert (∀ w, In w (words_of lps) → lowercase w) as Hlow.
  { intros w. apply words_lowercase. }
  assert (Str.lower first_line = render lps) as Hl.
  { rewrite <- (render_segment first_line) at 1. apply lower_render.
    exact Hps. }
  assert (Forall capitals A) as HA by apply uppercase_tokens_capitals.
  rewrite Hl.
  rewrite (sub_tokens_lowercase A lps HA Hlps Hlow).
  set (rps0 := map (map_piece (acronymise A)) lps).
  assert (well_segmented rps0) as Hrps0.
  { apply map_piece_well_segmented;
      [apply acronymise_keeps_words | exact Hlps]. }
  rewrite lower_capitalize_first, (lower_render rps0 Hrps0).
  unfold rps0. rewrite map_map. f_equal.
  rewrite <- (map_id lps) at 2. apply map_ext_in.
  intros [w|c] Hin; simpl; [|reflexivity].
  f_equal. apply lower_acronymise. apply Hlow.
  unfold words_of. apply list_elem_of_In, list_elem_of_omap.
  exists (Word w). split; [apply list_elem_of_In; exact Hin | reflexivity].
Qed.

(** X6. On a text of ASCII characters and Latin-1 symbols, the OTP, acronym
    and capitalisation steps of the normaliser either return the OTP
    sentence or change nothing but the case of letters.  (On a Latin-1
    letter Python's case mapping can do more: it upper-cases the sharp s to
    two letters.) *)
Theorem finish_changes_case_only (first_line : str) :
  exact_text first_line = true →
  finish first_line = OTP_MESSAGE
  ∨ Str.lower (finish first_line) = Str.lower first_line.
Proof.
  intros _.
  destruct (existsb (fun pattern =>
              Str.startswith pattern (Str.lower first_line)) otp_patterns)
    eqn:Hotp.
  - left. unfold finish. rewrite Hotp. reflexivity.
  - right. apply lower_finish. exact Hotp.
Qed.

Lemma finish_changes_case_only_witness :
  let first_line := py "ATM card DECLINED, enter PIN" in
  exact_text first_line = true
  ∧ finish first_line = py "ATM card declined, enter PIN"
  ∧ (finish first_line = OTP_MESSAGE
     ∨ Str.lower (finish first_line) = Str.lower first_line).
Proof.
  intros first_line.
  assert (exact_text first_line = true) as H by (vm_compute; reflexivity).
  split; [exact H|]. split; [vm_compute; reflexivity|].
  exact (finish_changes_case_only first_line H).
Defined.

(** ** The normalised message is tidy *)

Lemma tidy_strip (s : str) :
  forallb plain_space s = true → tidy (Str.strip s).
Proof.
  intros H. split; [apply forallb_strip_by; exact H | apply strip_idem].
Qed.

Lemma cleanup_tidy (message first_line : str) :
  cleanup message = Some first_line → tidy first_line.
Proof.
  unfold cleanup.
  destruct (negb _ || Str.mem _ _); [discriminate|].
  destruct (negb _ || Str.mem _ _); [discriminate|].
  set (fl2 := Str.strip (Re.collapse_ws _)).
  assert (forallb plain_space fl2 = true) as H2.
  { apply forallb_strip_by, plain_space_collapse. }
  set (fl3 := if _ && _ then Str.strip (Re.stray_split fl2).1 else fl2).
  assert (forallb plain_space fl3 = true) as H3.
  { subst fl3. destruct (_ && _); [|exact H2].
    apply forallb_strip_by, forallb_stray_split. exact H2. }
  set (fl4 := Str.strip (Re.strip_trailing_punct fl3)).
  assert (tidy fl4) as H4.
  { apply tidy_strip. apply forallb_rstrip_by. exact H3. }
  set (candidate := Str.strip (Str.replace (py "_") (py " ") fl4)).
  assert (tidy candidate) as Hc.
  { apply tidy_strip. apply forallb_replace_go; [reflexivity|].
    exact (proj1 H4). }
  destruct (Str.contains Char.underscore fl4); [|intros [= <-]; exact H4].
  destruct (Str.nonempty candidate); [|intros [= <-]; exact H4].
  destruct (Str.eqb (Str.upper fl4) fl4); intros [= <-]; [|exact Hc].
  apply (tidy_lower _ candidate); [apply lower_title_go | exact Hc].
Qed.

(** X7. Whatever the input, the normalised message is on one line: its only
    whitespace characters are ordinary spaces and it neither starts nor ends
    with one. *)
Theorem normalize_tidy (s : str) :
  forallb plain_space (normalize s) = true
  ∧ Str.strip (normalize s) = normalize s.
Proof.
  change (tidy (normalize s)).
  unfold normalize, _normalise_message.
  destruct (cleanup s) as [first_line|] eqn:Hc;
    [|split; vm_compute; reflexivity].
  apply cleanup_tidy in Hc.
  destruct (existsb (fun pattern =>
              Str.startswith pattern (Str.lower first_line)) otp_patterns)
    eqn:Hotp.
  - unfold finish. rewrite Hotp. split; vm_compute; reflexivity.
  - apply (tidy_lower _ first_line); [|exact Hc].
    apply lower_finish. exact Hotp.
Qed.

(** X8. Empty and whitespace-only messages, like a missing one, normalise
    to the blank sentinel. *)
Theorem normalize_blank (s : str) :
  forallb Char.is_space s = true →
  normalize s = BLANK_MESSAGE ∧ _normalise_message None = BLANK_MESSAGE.
Proof.
  intros H. split; [|reflexivity].
  assert (Str.strip
            (Str.replace [Char.cr; Char.newline] [Char.newline] s) = [])
    as Hc.
  { apply strip_by_all. apply forallb_replace_go; [reflexivity | exact H]. }
  unfold normalize, _normalise_message, cleanup. rewrite Hc. reflexivity.
Qed.

Lemma normalize_blank_witness :
  let s := [Char.space; Char.cr; Char.newline; Char.nbsp; "009"%char] in
  forallb Char.is_space s = true ∧ normalize s = py "<blank>".
Proof.
  intros s. split; [reflexivity|].
  apply (normalize_blank s). reflexivity.
Defined.

(** ** The customer *)

Lemma contains_drop_while (c : ascii) (p : ascii → bool) (s : str) :
  p c = false → Str.contains c (Str.drop_while p s) = Str.contains c s.
Proof.
  intros Hc. induction s as [|x s IH]; simpl; [reflexivity|].
  destruct (p x) eqn:Hx; [|reflexivity].
  rewrite IH. destruct (Char.eqb c x) eqn:E; [|reflexivity].
  apply char_eqb_eq in E. subst x. congruence.
Qed.

Lemma contains_rev (c : ascii) (s : str) :
  Str.contains c (rev s) = Str.contains c s.
Proof.
  unfold Str.contains. induction s as [|x s IH]; simpl; [reflexivity|].
  rewrite existsb_app, IH. simpl. rewrite orb_false_r. apply orb_comm.
Qed.

Lemma contains_strip_by (c : ascii) (p : ascii → bool) (s : str) :
  p c = false → Str.contains c (Str.strip_by p s) = Str.contains c s.
Proof.
  intros Hc. unfold Str.strip_by, Str.rstrip_by, Str.lstrip_by.
  rewrite contains_rev, (contains_drop_while _ _ _ Hc), contains_rev.
  apply contains_drop_while. exact Hc.
Qed.

Lemma find_first_match {A} (f : A → bool) (before after : list A) (x : A) :
  Forall (fun y => f y = false) before → f x = true →
  List.find f (before ++ x :: after) = Some x.
Proof.
  intros Hb Hx. induction Hb as [|y before Hy _ IH]; simpl.
  - rewrite Hx. reflexivity.
  - rewrite Hy. exact IH.
Qed.

Lemma find_no_match {A} (f : A → bool) (l : list A) :
  Forall (fun y => f y = false) l → List.find f l = None.
Proof.
  intros H. induction H as [|y l Hy _ IH]; simpl; [reflexivity|].
  rewrite Hy. exact IH.
Qed.

Lemma contains_nonempty (c : ascii) (s : str) :
  Str.contains c s = true → Str.nonempty s = true.
Proof. destruct s; [discriminate | reflexivity]. Qed.

(** X9. The customer of a record is the first candidate cell that holds an
    at-sign, and it still holds it after the quotes are trimmed; without
    such a cell it is the first candidate cell, and the empty text when
    there is none.  The chosen text never starts or ends with a double
    quote. *)
Theorem pick_customer_prefers_email :
  (∀ before token after,
     Forall (fun t => Str.contains Char.at_sign t = false) before →
     Str.contains Char.at_sign token = true →
     pick_customer (before ++ token :: after)
     = Str.strip_char Char.dquote (Str.strip token)
     ∧ Str.contains Char.at_sign (pick_customer (before ++ token :: after))
       = true)
  ∧ (∀ first rest,
       Forall (fun t => Str.contains Char.at_sign t = false) (first :: rest) →
       pick_customer (first :: rest)
       = Str.strip_char Char.dquote (Str.strip first))
  ∧ pick_customer [] = []
  ∧ (∀ customer_parts,
       Str.startswith [Char.dquote] (pick_customer customer_parts) = false
       ∧ Str.endswith [Char.dquote] (pick_customer customer_parts) = false).
Proof.
  split; [|split; [|split; [reflexivity|]]].
  - intros before token after Hb Ht.
    assert (pick_customer (before ++ token :: after)
            = Str.strip_char Char.dquote (Str.strip token)) as E.
    { unfold pick_customer. rewrite (find_first_match _ _ _ _ Hb Ht).
      rewrite (contains_nonempty _ _ Ht). reflexivity. }
    split; [exact E|]. rewrite E. unfold Str.strip_char, Str.strip.
    rewrite !contains_strip_by; [exact Ht | reflexivity | reflexivity].
  - intros first rest H. unfold pick_customer.
    rewrite (find_no_match _ _ H). reflexivity.
  - intros customer_parts. unfold pick_customer.
    set (customer := if negb _ then _ else _).
    pose proof (strip_by_ends_clear (Char.eqb Char.dquote)
                  (Str.strip customer)) as [Hh Hl].
    unfold Str.strip_char, Str.endswith.
    destruct (Str.strip_by _ (Str.strip customer)) as [|c r]; [split; reflexivity|].
    split.
    + cbn [Str.startswith]. rewrite Hh. reflexivity.
    + destruct (rev (c :: r)) as [|d r']; [reflexivity|].
      cbn [rev app Str.startswith]. rewrite Hl. reflexivity.
Qed.

Lemma pick_customer_prefers_email_witness :
  pick_customer [py "Ama Mensah"; quoted (py "ama@x.com"); py "b@y.com"]
  = py "ama@x.com"
  ∧ pick_customer [quoted (py "Ama Mensah"); py "0244"] = py "Ama Mensah".
Proof.
  split.
  - apply (proj1 pick_customer_prefers_email [py "Ama Mensah"]
             (quoted (py "ama@x.com")) [py "b@y.com"]).
    + repeat constructor.
    + reflexivity.
  - apply (proj1 (proj2 pick_customer_prefers_email)
             (quoted (py "Ama Mensah")) [py "0244"]).
    repeat constructor.
Defined.

(** ** Numbers *)

Lemma replace_char_filter (c : ascii) (s : str) :
  Str.replace [c] [] s = List.filter (fun x => negb (Char.eqb c x)) s.
Proof.
  unfold Str.replace. induction s as [|x s IH]; [reflexivity|].
  cbn [Str.replace_go Str.startswith List.filter length Nat.sub app].
  rewrite andb_true_r.
  destruct (Char.eqb c x); cbn [negb]; rewrite IH; reflexivity.
Qed.

Lemma eat_digitpart_digits (s : str) :
  Str.nonempty s = true → forallb Char.is_digit s = true →
  Float.eat_digitpart s = Some [].
Proof.
  induction s as [|c s IH]; [discriminate|]. intros _ H.
  simpl in H. apply andb_true_iff in H as [Hc Hs].
  cbn [Float.eat_digitpart]. rewrite Hc.
  destruct s as [|u s']; [reflexivity|].
  assert (Char.eqb u Char.underscore = false) as ->.
  { simpl in Hs. apply andb_true_iff in Hs as [Hu _].
    destruct (Char.eqb u Char.underscore) eqn:E; [|reflexivity].
    apply char_eqb_eq in E. subst u. discriminate. }
  rewrite IH; [reflexivity | reflexivity | exact Hs].
Qed.

Lemma digit_not_float_space (c : ascii) :
  Char.is_digit c = true → Float.is_space c = false.
Proof. each_char c. Qed.

Lemma digit_not_sign (c : ascii) :
  Char.is_digit c = true → Char.eqb c "+" || Char.eqb c "-" = false.
Proof. each_char c. Qed.

Lemma digit_lower_not_letter (c : ascii) :
  Char.is_digit c = true →
  Char.eqb (Char.lower c) "i" = false ∧ Char.eqb (Char.lower c) "n" = false.
Proof. each_char c. Qed.

Lemma accepts_digits (s : str) :
  Str.nonempty s = true → forallb Char.is_digit s = true →
  Float.accepts s = true.
Proof.
  intros Hne Hd. unfold Float.accepts.
  assert (Str.strip_by Float.is_space s = s) as ->.
  { apply ends_clear_fixed. split.
    - destruct s as [|c s]; [exact I|]. simpl in Hd.
      apply andb_true_iff in Hd as [Hc _]. apply digit_not_float_space, Hc.
    - rewrite <- forallb_rev in Hd. destruct (rev s) as [|c r]; [exact I|].
      simpl in Hd. apply andb_true_iff in Hd as [Hc _].
      apply digit_not_float_space, Hc. }
  destruct s as [|c s]; [discriminate|].
  pose proof Hd as Hd'. simpl in Hd'. apply andb_true_iff in Hd' as [Hc _].
  unfold Float.drop_sign. rewrite (digit_not_sign c Hc).
  destruct (digit_lower_not_letter c Hc) as [Hi Hn].
  assert (Str.mem (Str.lower (c :: s)) [py "inf"; py "infinity"; py "nan"]
          = false) as ->.
  { unfold Str.mem. cbn [existsb py list_ascii_of_string Str.lower map Str.eqb].
    rewrite Hi, Hn. reflexivity. }
  rewrite (eat_digitpart_digits _ Hne Hd). reflexivity.
Qed.

Lemma filter_commas_digits (token : str) :
  forallb (fun c => Char.is_digit c || Char.eqb Char.comma c) token = true →
  forallb Char.is_digit
    (List.filter (fun x => negb (Char.eqb Char.comma x)) token) = true
  ∧ Str.nonempty (List.filter (fun x => negb (Char.eqb Char.comma x)) token)
    = existsb Char.is_digit token.
Proof.
  induction token as [|c s IH]; [intros _; split; reflexivity|].
  cbn [forallb List.filter existsb]. intros H.
  apply andb_true_iff in H as [Hc Hs]. destruct (IH Hs) as [I1 I2].
  destruct (Char.eqb Char.comma c) eqn:E; cbn [negb].
  - apply char_eqb_eq in E. subst c.
    change (Char.is_digit Char.comma) with false. cbn [orb].
    split; assumption.
  - rewrite orb_false_r in Hc. cbn [forallb Str.nonempty]. rewrite Hc.
    split; [exact I1 | reflexivity].
Qed.

(** X10. A cell made of decimal digits and thousands separators, with at
    least one digit, is a number for the message loop, which ends the
    message before the cell in front of it; a cell of commas alone, like
    an empty one, is not. *)
Theorem is_number_digits_and_commas (token : str) :
  forallb (fun c => Char.is_digit c || Char.eqb Char.comma c) token = true →
  _is_number token = existsb Char.is_digit token.
Proof.
  intros H. unfold _is_number.
  destruct (Str.nonempty token) eqn:Hne; cbn [negb];
    [|destruct token; [reflexivity | discriminate]].
  change (py ",") with [Char.comma].
  rewrite replace_char_filter.
  destruct (filter_commas_digits token H) as [Hd Hn].
  rewrite <- Hn.
  destruct (Str.nonempty (List.filter _ token)) eqn:Hf.
  - apply accepts_digits; assumption.
  - destruct (List.filter _ token); [reflexivity | discriminate].
Qed.

Lemma is_number_digits_and_commas_witness :
  _is_number (py "1,250,000") = true ∧ _is_number (py ",,") = false.
Proof.
  split.
  - rewrite (is_number_digits_and_commas (py "1,250,000")); reflexivity.
  - rewrite (is_number_digits_and_commas (py ",,")); reflexivity.
Defined.

(** ** The order of the acronyms *)

(** X11. The acronyms are put back in the order the set yields them; the
    result is the same in every order. *)
Theorem acronym_order_irrelevant (first_line : str) (tokens : list str) :
  tokens ≡ₚ uppercase_tokens first_line →
  sub_tokens tokens (Str.lower first_line)
  = sub_tokens (uppercase_tokens first_line) (Str.lower first_line).
Proof.
  intros Hp. apply sub_tokens_order.
  - rewrite Hp. apply uppercase_tokens_capitals.
  - apply uppercase_tokens_capitals.
  - intros token. rewrite <- !list_elem_of_In. rewrite Hp. reflexivity.
Qed.

Lemma acronym_order_irrelevant_witness :
  let first_line := py "ATM declined, PIN retries exceeded at ATM" in
  uppercase_tokens first_line = [py "PIN"; py "ATM"]
  ∧ sub_tokens [py "ATM"; py "PIN"] (Str.lower first_line)
    = py "ATM declined, PIN retries exceeded at ATM".
Proof.
  intros first_line.
  assert (uppercase_tokens first_line = [py "PIN"; py "ATM"]) as E
    by (vm_compute; reflexivity).
  split; [exact E|].
  rewrite (acronym_order_irrelevant first_line [py "ATM"; py "PIN"]).
  - vm_compute. reflexivity.
  - rewrite E. apply perm_swap.
Defined.

(** ** The payment date of a candidate *)

Lemma find_some_holds {A} (f : A → bool) (l : list A) (x : A) :
  List.find f l = Some x → f x = true.
Proof.
  induction l as [|y l IH]; simpl; [discriminate|].
  destruct (f y) eqn:E; [intros [= <-]; exact E | exact IH].
Qed.

Lemma default_dt_of_shape (header : list str) :
  Re.iso_match (default_dt_of header) = true
  ∨ default_dt_of header = DEFAULT_DATE_PLACEHOLDER.
Proof.
  unfold default_dt_of.
  destruct (List.find _ header) as [col|] eqn:E; [|right; reflexivity].
  apply find_some_holds in E.
  destruct (Str.nonempty col); [left; exact E | right; reflexivity].
Qed.

(** X12. The payment date of every candidate of a file is a text that
    starts like an ISO timestamp or the placeholder for a missing date: the
    default date read from the header is one or the other, and a candidate
    carries either its own timestamp cell or that default. *)
Theorem payment_date_shape (provider_iter region_iter : list str)
  (header row : list str) :
  (Re.iso_match (default_dt_of header) = true
   ∨ default_dt_of header = DEFAULT_DATE_PLACEHOLDER)
  ∧ Forall (fun c =>
              Re.iso_match (cand_payment_date c) = true
              ∨ cand_payment_date c = DEFAULT_DATE_PLACEHOLDER)
      (extract_transactions provider_iter region_iter row
         (default_dt_of header)).
Proof.
  split; [apply default_dt_of_shape|].
  unfold extract_transactions, extract_trace.
  destruct (extract_loop _ _ (length row) row (default_dt_of header) 0)
    as [turns|] eqn:Hrun; simpl; [|constructor].
  revert Hrun. generalize 0 at 1. generalize (length row) at 1.
  intros fuel. revert turns.
  induction fuel as [|fuel IH]; intros turns i; simpl.
  - destruct (length row <=? i); [|discriminate].
    intros [= <-]. constructor.
  - destruct (length row <=? i); [intros [= <-]; constructor|].
    destruct (extract_step _ _ row (default_dt_of header) i) as [a|] eqn:Ha;
      [|intros [= <-]; constructor].
    destruct (extract_loop _ _ fuel row (default_dt_of header) (resume_of a))
      as [rest|] eqn:Hrest; [|discriminate].
    simpl. intros [= <-]. apply IH in Hrest.
    destruct a as [k c idx|k]; simpl; [|exact Hrest].
    constructor; [|exact Hrest].
    rewrite (extract_step_payment_date _ _ _ _ _ _ _ _ Ha).
    destruct (Re.iso_match (Str.strip (row !!! (idx - 1)))) eqn:E;
      [left; exact E | apply default_dt_of_shape].
Qed.

(** ** The transactions of a file *)

Section Transactions.

Context {datetime : Type}.
Variable fromisoformat : str → option datetime.
Variables provider_iter region_iter : list str.

Lemma ingest_well_formed (st : state datetime) (c : candidate) :
  well_formed c →
  ingest fromisoformat st c
  = match resolve_timestamp fromisoformat (cand_payment_date c) with
    | Some dt =>
        (st.1 ++ [Transaction (cand_provider c) (cand_region c)
                    (cand_status c) (cand_channel c)
                    (_normalise_message (Some (cand_message c))) dt
                    (cand_customer c)],
         record (cand_provider c) (cand_region c) (cand_status c)
           (cand_channel c) (_normalise_message (Some (cand_message c))) dt
           st.2)
    | None => st
    end.
Proof.
  intros (_ & Hr & Hs & Hc). destruct st as [transactions summaries].
  unfold ingest.
  apply in_set_true in Hr, Hs, Hc. rewrite Hr, Hs, Hc. cbn [negb andb].
  reflexivity.
Qed.

Lemma ingest_transactions (st : state datetime) (c : candidate) :
  well_formed c →
  (ingest fromisoformat st c).1 = st.1 ++ option_list (dated fromisoformat c).
Proof.
  intros H. rewrite (ingest_well_formed _ _ H). unfold dated.
  destruct (resolve_timestamp fromisoformat (cand_payment_date c)); simpl;
    [reflexivity | rewrite app_nil_r; reflexivity].
Qed.

Lemma ingest_all_transactions (st : state datetime) (cs : list candidate) :
  Forall well_formed cs →
  (ingest_all fromisoformat st cs).1 = st.1 ++ omap (dated fromisoformat) cs.
Proof.
  intros H. revert st. induction H as [|c cs Hc _ IH]; intros st.
  - simpl. rewrite app_nil_r. reflexivity.
  - unfold ingest_all in *. cbn [fold_left]. rewrite IH.
    rewrite (ingest_transactions _ _ Hc). rewrite <- app_assoc. f_equal.
    cbn [omap list_omap]. destruct (dated fromisoformat c); reflexivity.
Qed.

Lemma ingest_row_all (default_dt : str) (st : state datetime)
  (row : list str) :
  ingest_row fromisoformat provider_iter region_iter default_dt st row
  = ingest_all fromisoformat st
      (extract_transactions provider_iter region_iter row default_dt).
Proof. destruct row; reflexivity. Qed.

Lemma fold_rows_transactions (default_dt : str) (rows : list (list str))
  (st : state datetime) :
  (fold_left (ingest_row fromisoformat provider_iter region_iter default_dt)
     rows st).1
  = st.1
    ++ concat
         (map (fun row =>
                 omap (dated fromisoformat)
                   (extract_transactions provider_iter region_iter row
                      default_dt))
            rows).
Proof.
  revert st. induction rows as [|row rows IH]; intros st; simpl.
  - rewrite app_nil_r. reflexivity.
  - rewrite IH, ingest_row_all, ingest_all_transactions, <- app_assoc;
      [reflexivity|].
    apply extract_transactions_well_formed.
Qed.

Lemma dated_fields (c : candidate) (tx : transaction datetime) :
  dated fromisoformat c = Some tx →
  tx_provider tx = cand_provider c ∧ tx_region tx = cand_region c
  ∧ tx_status tx = cand_status c ∧ tx_channel tx = cand_channel c
  ∧ tx_message tx = normalize (cand_message c)
  ∧ tx_customer tx = cand_customer c.
Proof.
  unfold dated.
  destruct (resolve_timestamp fromisoformat (cand_payment_date c));
    [|discriminate].
  intros [= <-]. repeat split.
Qed.

End Transactions.

(** X13. The transactions of a file are, row after row and in the order
    they are yielded, the candidates whose timestamp resolves: the gate never
    drops an extractor candidate for its region, status or channel, copies
    the provider, region, status, channel and customer unchanged and stores
    the normalised message.  Every transaction has its four vocabulary fields
    in their sets. *)
Theorem parse_csv_transactions {datetime : Type}
  (fromisoformat : str → option datetime)
  (provider_iter region_iter : list str)
  (header : list str) (rows : list (list str)) :
  ∃ st,
    parse_csv fromisoformat provider_iter region_iter (header :: rows)
      = Some st
    ∧ st.1
      = concat
          (map (fun row =>
                  omap (dated fromisoformat)
                    (extract_transactions provider_iter region_iter row
                       (default_dt_of header)))
             rows)
    ∧ Forall (fun tx =>
                tx_provider tx ∈ PROVIDERS ∧ tx_region tx ∈ REGION_SET
                ∧ tx_status tx ∈ STATUSES ∧ tx_channel tx ∈ CHANNELS)
        st.1.
Proof.
  eexists. split; [reflexivity|].
  assert (∀ st0 : state datetime, st0.1 = [] →
    (fold_left (ingest_row fromisoformat provider_iter region_iter
                  (default_dt_of header)) rows st0).1
    = concat
        (map (fun row =>
                omap (dated fromisoformat)
                  (extract_transactions provider_iter region_iter row
                     (default_dt_of header)))
           rows)) as E.
  { intros st0 H0. rewrite fold_rows_transactions, H0. reflexivity. }
  split; [apply E; reflexivity|].
  rewrite E by reflexivity.
  apply Forall_concat, Forall_map, Forall_forall. intros row _.
  pose proof (extract_transactions_well_formed provider_iter region_iter row
                (default_dt_of header)) as Hwf.
  induction Hwf as [|c cs Hc _ IH]; [constructor|].
  cbn [omap list_omap].
  destruct (dated fromisoformat c) as [tx|] eqn:Hd; [|exact IH].
  constructor; [|exact IH].
  apply dated_fields in Hd. destruct Hd as (-> & -> & -> & -> & _).
  exact Hc.
Qed.

(** ** The summaries count the transactions *)

Section Agreement.

Context {datetime : Type}.
Variable fromisoformat : str → option datetime.
Variables provider_iter region_iter : list str.

Lemma bucket_snoc (R : str) (txs : list (transaction datetime))
  (tx : transaction datetime) :
  bucket R (txs ++ [tx])
  = bucket R txs
    ++ (if decide (R = AGGREGATE ∨ tx_region tx = R) then [tx] else []).
Proof.
  unfold bucket. rewrite filter_app, filter_cons, filter_nil. reflexivity.
Qed.

Lemma filter_length_snoc {A} (P : A → Prop) `{!∀ x, Decision (P x)}
  (Q : Prop) `{!Decision Q} (l : list A) (x : A) :
  length (filter P (l ++ (if decide Q then [x] else [])))
  = length (filter P l) + (if decide (Q ∧ P x) then 1 else 0).
Proof.
  rewrite filter_app, length_app. f_equal.
  destruct (decide Q) as [HQ|HQ].
  - rewrite filter_cons, filter_nil.
    destruct (decide (P x)); destruct (decide (Q ∧ P x)); simpl;
      try reflexivity; tauto.
  - rewrite filter_nil. destruct (decide (Q ∧ P x)); [tauto | reflexivity].
Qed.

Local Ltac count_cases :=
  repeat case_decide;
  cbn [tx_provider tx_region tx_status tx_channel tx_message] in *;
  try reflexivity; exfalso; subst; intuition (auto; congruence).

Lemma record_agree (txs : list (transaction datetime))
  (summaries : gmap str (RegionSummary.t datetime))
  (provider region status channel norm_message customer : str)
  (dt : option datetime) :
  region ≠ AGGREGATE →
  summaries_agree (txs, summaries) →
  summaries_agree
    (txs ++ [Transaction provider region status channel norm_message dt
               customer],
     record provider region status channel norm_message dt summaries).
Proof.
  intros Hne Hag R. specialize (Hag R). cbv zeta in *.
  cbn [fst snd] in *.
  destruct Hag as (H1 & H2 & H3 & H4 & H5 & H6 & H7).
  rewrite bucket_snoc. cbn [tx_region].
  split; [|split; [|split; [|split; [|split; [|split]]]]].
  - intros key. rewrite status_count_record, filter_length_snoc, H1.
    rewrite <- Nat.add_assoc. f_equal. count_cases.
  - intros key. rewrite channel_count_record, filter_length_snoc, H2.
    rewrite <- Nat.add_assoc. f_equal. count_cases.
  - intros s m. rewrite message_count_record, filter_length_snoc, H3.
    rewrite <- Nat.add_assoc. f_equal. count_cases.
  - intros P key. rewrite provider_status_count_record, filter_length_snoc, H4.
    rewrite <- Nat.add_assoc. f_equal. count_cases.
  - intros P key.
    rewrite provider_channel_count_record, filter_length_snoc, H5.
    rewrite <- Nat.add_assoc. f_equal. count_cases.
  - intros P s m.
    rewrite provider_message_count_record, filter_length_snoc, H6.
    rewrite <- Nat.add_assoc. f_equal. count_cases.
  - rewrite times_of_record, H7, omap_app, <- app_assoc. f_equal.
    repeat case_decide; cbn [tx_dt omap list_omap app];
      try (destruct dt; reflexivity);
      exfalso; subst; intuition (auto; congruence).
Qed.

Lemma initial_agree : summaries_agree (datetime := datetime) initial.
Proof.
  intros R. cbv zeta. cbn [fst snd].
  unfold status_count, channel_count, message_count, provider_status_count,
    provider_channel_count, provider_message_count, provider_of, times_of.
  rewrite summary_of_initial. repeat split.
Qed.

Lemma ingest_agree (st : state datetime) (c : candidate) :
  well_formed c →
  summaries_agree st → summaries_agree (ingest fromisoformat st c).
Proof.
  intros Hwf Hag. rewrite (ingest_well_formed _ _ _ Hwf).
  destruct (resolve_timestamp fromisoformat (cand_payment_date c)) as [dt|];
    [|exact Hag].
  destruct st as [txs summaries]. apply record_agree; [|exact Hag].
  apply well_formed_not_aggregate. exact Hwf.
Qed.

Lemma ingest_all_agree (st : state datetime) (cs : list candidate) :
  Forall well_formed cs →
  summaries_agree st → summaries_agree (ingest_all fromisoformat st cs).
Proof.
  intros H. revert st. induction H as [|c cs Hc _ IH]; intros st Hag.
  - exact Hag.
  - unfold ingest_all in *. cbn [fold_left]. apply IH.
    apply ingest_agree; assumption.
Qed.

Lemma fold_rows_agree (default_dt : str) (rows : list (list str))
  (st : state datetime) :
  summaries_agree st →
  summaries_agree
    (fold_left (ingest_row fromisoformat provider_iter region_iter default_dt)
       rows st).
Proof.
  revert st. induction rows as [|row rows IH]; intros st Hag; simpl.
  - exact Hag.
  - apply IH. rewrite ingest_row_all. apply ingest_all_agree; [|exact Hag].
    apply extract_transactions_well_formed.
Qed.

End Agreement.

(** X14. The summaries of a file are a function of its list of
    transactions: in every bucket, each status, channel and message counter,
    overall and per provider, holds the number of the bucket's transactions
    with that key, and the list of times holds their timestamps in file
    order.  The Aggregate bucket counts all transactions, a regional bucket
    those of its region. *)
Theorem summaries_count_transactions {datetime : Type}
  (fromisoformat : str → option datetime)
  (provider_iter region_iter : list str)
  (header : list str) (rows : list (list str)) :
  ∃ st,
    parse_csv fromisoformat provider_iter region_iter (header :: rows)
      = Some st
    ∧ summaries_agree st.
Proof.
  eexists. split; [reflexivity|].
  apply fold_rows_agree, initial_agree.
Qed.

(** ** Totals *)

Lemma counter_total_insert (k : str) (v : nat) (c : gmap str nat) :
  c !! k = None → counter_total (<[k := v]> c) = v + counter_total c.
Proof.
  intros H. unfold counter_total.
  apply (map_fold_insert_L (fun _ v acc => v + acc)); [|exact H].
  intros. lia.
Qed.

Lemma sum_list_zero {A} (f : A → nat) (l : list A) :
  (∀ x, f x = 0) → sum_list (map f l) = 0.
Proof.
  intros H. induction l as [|x l IH]; simpl; [reflexivity|].
  rewrite H, IH. reflexivity.
Qed.

Lemma counter_total_sum (L : list str) (c : gmap str nat) :
  NoDup L →
  (∀ k, k ∉ L → counter_get c k = 0) →
  counter_total c = sum_list (map (counter_get c) L).
Proof.
  intros HL. induction c as [|i x m Hi IH] using map_ind.
  - intros _. unfold counter_total. rewrite map_fold_empty.
    symmetry. apply sum_list_zero. intros k. reflexivity.
  - intros Hout. rewrite (counter_total_insert _ _ _ Hi).
    assert (∀ k, counter_get (<[i := x]> m) k
                 = counter_get m k + (if decide (i = k) then x else 0)) as E.
    { intros k. unfold counter_get. rewrite lookup_insert.
      destruct (decide (i = k)) as [<-|]; simpl; [rewrite Hi|]; simpl; lia. }
    rewrite (map_ext _ _ E), sum_list_map_plus, (sum_list_indicator _ _ _ HL).
    rewrite IH.
    + destruct (decide (i ∈ L)) as [|Hni]; [lia|].
      specialize (Hout i Hni). rewrite E in Hout.
      rewrite decide_True in Hout by reflexivity. lia.
    + intros k Hk. specialize (Hout k Hk). rewrite E in Hout. lia.
Qed.

Lemma filter_all {A} (P : A → Prop) `{!∀ x, Decision (P x)} (l : list A) :
  Forall P l → filter P l = l.
Proof.
  intros Hall. induction Hall as [|x l Hx _ IH]; [reflexivity|].
  rewrite filter_cons, decide_True by exact Hx. rewrite IH. reflexivity.
Qed.

Lemma sum_filter_keys {A} (f : A → str) (L : list str) (B : list A) :
  NoDup L → Forall (fun x => f x ∈ L) B →
  sum_list (map (fun k => length (filter (fun x => f x = k) B)) L)
  = length B.
Proof.
  intros HL HB. induction HB as [|x B Hx _ IH].
  - apply sum_list_zero. intros k. reflexivity.
  - assert (∀ k, length (filter (fun y => f y = k) (x :: B))
                 = length (filter (fun y => f y = k) B)
                   + (if decide (f x = k) then 1 else 0)) as E.
    { intros k. rewrite filter_cons.
      destruct (decide (f x = k)); simpl; lia. }
    rewrite (map_ext _ _ E), sum_list_map_plus, IH.
    rewrite (sum_list_indicator _ _ _ HL), decide_True by exact Hx.
    simpl. lia.
Qed.

Lemma length_filter_pos {A} (P : A → Prop) `{!∀ x, Decision (P x)}
  (l : list A) :
  0 < length (filter P l) ↔ Exists P l.
Proof.
  induction l as [|x l IH].
  - simpl. rewrite Exists_nil. lia.
  - rewrite filter_cons, Exists_cons.
    destruct (decide (P x)); simpl; [|rewrite IH; tauto].
    split; [tauto | lia].
Qed.

Lemma omap_guard {A B} (P : A → Prop) `{!∀ x, Decision (P x)} (g : A → B)
  (l : list A) :
  omap (fun x => if bool_decide (P x) then Some (g x) else None) l
  = map g (filter P l).
Proof.
  induction l as [|x l IH]; [reflexivity|].
  cbn [omap list_omap]. rewrite filter_cons.
  fold (omap (fun x => if bool_decide (P x) then Some (g x) else None) l).
  rewrite IH. destruct (decide (P x)) as [Hx|Hx].
  - rewrite bool_decide_eq_true_2 by exact Hx. reflexivity.
  - rewrite bool_decide_eq_false_2 by exact Hx. reflexivity.
Qed.

(** ** Positive counts *)

Lemma counter_incr_positive (k : str) (c : gmap str nat) :
  counts_positive c → counts_positive (counter_incr k c).
Proof.
  intros H. unfold counter_incr. apply map_Forall_insert_2; [lia | exact H].
Qed.

Section Printing.

Context {datetime : Type}.
Variable fromisoformat : str → option datetime.
Variables provider_iter region_iter : list str.

Lemma status_counts_record (provider region status channel norm_message : str)
  (dt : option datetime) (summaries : gmap str (RegionSummary.t datetime))
  (R : str) :
  RegionSummary.status_counts
    (summary_of (record provider region status channel norm_message dt
                   summaries) R)
  = (if decide (AGGREGATE = R) then counter_incr status else id)
      ((if decide (region = R) then counter_incr status else id)
         (RegionSummary.status_counts (summary_of summaries R))).
Proof.
  rewrite summary_of_record.
  destruct (decide (AGGREGATE = R)); destruct (decide (region = R));
    destruct dt; reflexivity.
Qed.

Lemma dom_modify (key : str)
  (f : RegionSummary.t datetime → RegionSummary.t datetime)
  (summaries : gmap str (RegionSummary.t datetime)) :
  dom (modify key f summaries) = {[key]} ∪ dom summaries.
Proof. unfold modify. apply dom_insert_L. Qed.

Lemma dom_record (provider region status channel norm_message : str)
  (dt : option datetime) (summaries : gmap str (RegionSummary.t datetime))
  (R : str) :
  R = AGGREGATE ∨ region = R ∨ R ∈ dom summaries →
  R ∈ dom (record provider region status channel norm_message dt summaries).
Proof.
  intros H. unfold record. destruct dt; rewrite !dom_modify;
    rewrite !elem_of_union, !elem_of_singleton; intuition auto.
Qed.

Lemma initial_printable : printable (datetime := datetime) initial.
Proof.
  split; [apply initial_agree|]. split; [|split].
  - intros R. rewrite summary_of_initial. apply map_Forall_empty.
  - constructor.
  - intros R H. simpl in H. lia.
Qed.

Lemma ingest_printable (st : state datetime) (c : candidate) :
  well_formed c → printable st → printable (ingest fromisoformat st c).
Proof.
  intros Hwf (Hag & Hpos & Hvoc & Hdom).
  split; [apply ingest_agree; assumption|].
  rewrite (ingest_well_formed _ _ _ Hwf).
  destruct (resolve_timestamp fromisoformat (cand_payment_date c)) as [dt|];
    [|split; [|split]; assumption].
  destruct st as [txs summaries]. cbn [fst snd] in *.
  split; [|split].
  - intros R. rewrite status_counts_record.
    destruct (decide (AGGREGATE = R)); destruct (decide (cand_region c = R));
      repeat apply counter_incr_positive; apply Hpos.
  - apply Forall_app. split; [exact Hvoc|]. constructor; [|constructor].
    destruct Hwf as (_ & _ & Hs & Hc). split; assumption.
  - intros R HR. apply dom_record.
    rewrite bucket_snoc, length_app in HR. cbn [tx_region] in HR.
    destruct (decide (R = AGGREGATE ∨ cand_region c = R)) as [[H|H]|H];
      [left; exact H | right; left; exact H |].
    right; right. apply Hdom. simpl in HR. lia.
Qed.

Lemma ingest_all_printable (st : state datetime) (cs : list candidate) :
  Forall well_formed cs →
  printable st → printable (ingest_all fromisoformat st cs).
Proof.
  intros H. revert st. induction H as [|c cs Hc _ IH]; intros st Hp.
  - exact Hp.
  - unfold ingest_all in *. cbn [fold_left]. apply IH.
    apply ingest_printable; assumption.
Qed.

Lemma fold_rows_printable (default_dt : str) (rows : list (list str))
  (st : state datetime) :
  printable st →
  printable
    (fold_left (ingest_row fromisoformat provider_iter region_iter default_dt)
       rows st).
Proof.
  revert st. induction rows as [|row rows IH]; intros st Hp; simpl.
  - exact Hp.
  - apply IH. rewrite ingest_row_all. apply ingest_all_printable; [|exact Hp].
    apply extract_transactions_well_formed.
Qed.

Lemma bucket_vocabulary (st : state datetime) (R : str) :
  printable st →
  Forall (fun tx => tx_status tx ∈ STATUS_LINES) (bucket R st.1)
  ∧ Forall (fun tx => tx_channel tx ∈ CHANNEL_LINES) (bucket R st.1).
Proof.
  intros (_ & _ & Hvoc & _). rewrite Forall_forall in Hvoc.
  split; apply Forall_forall; intros tx Htx; unfold bucket in Htx;
    apply list_elem_of_filter in Htx as [_ Htx];
    destruct (Hvoc tx Htx) as [Hs Hc].
  - unfold STATUSES in Hs. apply elem_of_list_to_set in Hs. exact Hs.
  - unfold CHANNELS in Hc. apply elem_of_list_to_set in Hc.
    unfold CHANNEL_LINES.
    change (tx_channel tx ∈ [py "card"; py "bank_transfer"; py "eft";
                             py "mobile_money"] ++ [py "other"]).
    apply elem_of_app. left. exact Hc.
Qed.

Lemma status_block_printable (st : state datetime) (R : str) :
  printable st →
  let txs := bucket R st.1 in
  _print_status_block (RegionSummary.status_counts (summary_of st.2 R))
  = total_line (length txs)
    :: map (fun status =>
              status_line status
                (length (filter (fun tx => tx_status tx = status) txs)))
         (filter (fun status =>
                    Exists (fun tx => tx_status tx = status) txs)
            STATUS_LINES).
Proof.
  intros Hp txs.
  pose proof (bucket_vocabulary st R Hp) as [Hvoc _].
  destruct Hp as (Hag & Hpos & _ & _).
  specialize (Hag R). cbv zeta in Hag. destruct Hag as (Hst & _).
  fold txs in Hst, Hvoc. specialize (Hpos R).
  set (c := RegionSummary.status_counts (summary_of st.2 R)) in *.
  assert (∀ k, counter_get c k
               = length (filter (fun tx => tx_status tx = k) txs)) as Hget.
  { intros k. rewrite <- Hst. reflexivity. }
  assert (NoDup STATUS_LINES) as HL
    by (apply (bool_decide_unpack _); vm_compute; exact I).
  unfold _print_status_block. cbv zeta. f_equal.
  - f_equal. rewrite (counter_total_sum STATUS_LINES c HL).
    + rewrite (map_ext _ _ Hget). apply sum_filter_keys; assumption.
    + intros k Hk. rewrite Hget.
      destruct (length (filter (fun tx => tx_status tx = k) txs)) eqn:E;
        [reflexivity|exfalso].
      assert (Exists (fun tx => tx_status tx = k) txs) as Hex
        by (apply (proj1 (length_filter_pos _ _)); lia).
      apply Exists_exists in Hex. destruct Hex as (tx & Htx & <-).
      rewrite Forall_forall in Hvoc. apply Hk, Hvoc, Htx.
  - rewrite (omap_guard (fun status => status ∈ dom c)
               (fun status => status_line status (counter_get c status))).
    rewrite (map_ext _ _ (fun status =>
               f_equal (status_line status) (Hget status))).
    f_equal. apply list_filter_iff. intros k.
    rewrite <- length_filter_pos, <- Hget, elem_of_dom.
    unfold counter_get. split.
    + intros [v Hv]. rewrite Hv. simpl. exact (Hpos k v Hv).
    + destruct (c !! k) as [v|]; simpl; [eauto | lia].
Qed.

Lemma channel_block_printable (st : state datetime) (R : str) :
  printable st →
  let txs := bucket R st.1 in
  _print_channel_block (RegionSummary.channel_counts (summary_of st.2 R))
  = py "  Channels:"
    :: map (fun channel =>
              channel_line channel
                (length (filter (fun tx => tx_channel tx = channel) txs)))
         (filter (fun channel =>
                    Exists (fun tx => tx_channel tx = channel) txs)
            CHANNEL_LINES).
Proof.
  intros Hp txs.
  destruct Hp as (Hag & _ & _ & _).
  specialize (Hag R). cbv zeta in Hag. destruct Hag as (_ & Hch & _).
  fold txs in Hch.
  set (c := RegionSummary.channel_counts (summary_of st.2 R)) in *.
  assert (∀ k, counter_get c k
               = length (filter (fun tx => tx_channel tx = k) txs)) as Hget.
  { intros k. rewrite <- Hch. reflexivity. }
  unfold _print_channel_block. cbv zeta. f_equal.
  rewrite (omap_guard (fun channel => counter_get c channel ≠ 0)
             (fun channel => channel_line channel (counter_get c channel))).
  rewrite (map_ext _ _ (fun channel =>
             f_equal (channel_line channel) (Hget channel))).
  f_equal. apply list_filter_iff. intros k.
  rewrite <- length_filter_pos, <- Hget. lia.
Qed.

End Printing.

(** X15. For the summaries of a file, the status block of a bucket prints
    the number of the bucket's transactions as the total and then, in the
    fixed order of the five statuses, one line for each status that occurs
    among them with the number of its occurrences; these numbers add up to
    the total. *)
Theorem status_block_counts_transactions {datetime : Type}
  (fromisoformat : str → option datetime)
  (provider_iter region_iter : list str)
  (header : list str) (rows : list (list str)) :
  ∃ st,
    parse_csv fromisoformat provider_iter region_iter (header :: rows)
      = Some st
    ∧ ∀ R,
        let txs := bucket R st.1 in
        _print_status_block (RegionSummary.status_counts (summary_of st.2 R))
        = total_line (length txs)
          :: map (fun status =>
                    status_line status
                      (length (filter (fun tx => tx_status tx = status) txs)))
               (filter (fun status =>
                          Exists (fun tx => tx_status tx = status) txs)
                  STATUS_LINES)
        ∧ sum_list
            (map (fun status =>
                    length (filter (fun tx => tx_status tx = status) txs))
               STATUS_LINES)
          = length txs.
Proof.
  eexists. split; [reflexivity|]. intros R txs.
  pose proof (fold_rows_printable fromisoformat provider_iter region_iter
                (default_dt_of header) rows initial initial_printable) as Hp.
  split; [apply status_block_printable; exact Hp|].
  apply sum_filter_keys.
  - apply (bool_decide_unpack _). vm_compute. exact I.
  - apply (bucket_vocabulary _ R Hp).
Qed.

(** X16. The channel block of a bucket prints, in the fixed order of the
    channels, one line for each channel that occurs among the bucket's
    transactions with the number of its occurrences, and no line for a
    channel with none; the numbers add up to the number of the bucket's
    transactions. *)
Theorem channel_block_counts_transactions {datetime : Type}
  (fromisoformat : str → option datetime)
  (provider_iter region_iter : list str)
  (header : list str) (rows : list (list str)) :
  ∃ st,
    parse_csv fromisoformat provider_iter region_iter (header :: rows)
      = Some st
    ∧ ∀ R,
        let txs := bucket R st.1 in
        _print_channel_block
          (RegionSummary.channel_counts (summary_of st.2 R))
        = py "  Channels:"
          :: map (fun channel =>
                    channel_line channel
                      (length
                         (filter (fun tx => tx_channel tx = channel) txs)))
               (filter (fun channel =>
                          Exists (fun tx => tx_channel tx = channel) txs)
                  CHANNEL_LINES)
        ∧ sum_list
            (map (fun channel =>
                    length (filter (fun tx => tx_channel tx = channel) txs))
               CHANNEL_LINES)
          = length txs.
Proof.
  eexists. split; [reflexivity|]. intros R txs.
  pose proof (fold_rows_printable fromisoformat provider_iter region_iter
                (default_dt_of header) rows initial initial_printable) as Hp.
  split; [apply channel_block_printable; exact Hp|].
  apply sum_filter_keys.
  - apply (bool_decide_unpack _). vm_compute. exact I.
  - apply (bucket_vocabulary _ R Hp).
Qed.

(** ** The blocks of the summary *)

Lemma block_printed_iff {datetime : Type} (st : state datetime) (R : str) :
  printable st →
  (R ∈ dom st.2
   ∧ RegionSummary.status_counts (summary_of st.2 R) ≠ ∅)
  ↔ 0 < length (bucket R st.1).
Proof.
  intros (Hag & Hpos & _ & Hdom).
  specialize (Hag R). cbv zeta in Hag. destruct Hag as (Hst & _).
  specialize (Hpos R).
  set (c := RegionSummary.status_counts (summary_of st.2 R)) in *.
  split.
  - intros [_ Hne]. apply map_choose in Hne. destruct Hne as (k & v & Hv).
    pose proof (Hpos k v Hv) as Hvpos. cbv beta in Hvpos.
    specialize (Hst k). unfold status_count in Hst. fold c in Hst.
    unfold counter_get in Hst. rewrite Hv in Hst. simpl in Hst.
    pose proof (length_filter (fun tx => tx_status tx = k)
                  (bucket R st.1)). lia.
  - intros Hlen. split; [apply Hdom; exact Hlen|]. intros Hempty.
    destruct (bucket R st.1) as [|tx txs] eqn:Eb; [simpl in Hlen; lia|].
    specialize (Hst (tx_status tx)). unfold status_count in Hst.
    fold c in Hst. rewrite Hempty in Hst. rewrite filter_cons in Hst.
    rewrite decide_True in Hst by reflexivity. discriminate Hst.
Qed.

Lemma sorted_raises_nonempty {datetime : Type} (aware : datetime → bool)
  (times : list datetime) :
  match times with
  | [] => false
  | _ :: _ => sorted_raises aware times
  end = sorted_raises aware times.
Proof. destruct times; reflexivity. Qed.

Lemma print_summary_loop_printable {datetime : Type}
  (aware : datetime → bool) (st : state datetime)
  (ordered_regions : list str) :
  printable st →
  let eligible :=
    filter (fun R => 0 < length (bucket R st.1)) ordered_regions in
  let mixed := fun R => sorted_raises aware (omap tx_dt (bucket R st.1)) in
  (Forall (fun R => mixed R = false) eligible →
   print_summary_loop aware st.2 ordered_regions = (eligible, Returned))
  ∧ (∀ before R after,
       eligible = before ++ R :: after →
       Forall (fun R' => mixed R' = false) before →
       mixed R = true →
       print_summary_loop aware st.2 ordered_regions
       = (before ++ [R], Raised_TypeError)).
Proof.
  intros Hp. cbv zeta.
  induction ordered_regions as [|region rest IH].
  - split; [reflexivity|]. intros before R after E.
    destruct before; discriminate E.
  - destruct IH as [IH1 IH2].
    pose proof (block_printed_iff st region Hp) as Hiff.
    assert (RegionSummary.times (summary_of st.2 region)
            = omap tx_dt (bucket region st.1)) as Htimes.
    { destruct Hp as (Hag & _). specialize (Hag region). cbv zeta in Hag.
      destruct Hag as (_ & _ & _ & _ & _ & _ & Ht). exact Ht. }
    rewrite filter_cons. cbn [print_summary_loop].
    rewrite sorted_raises_nonempty, Htimes.
    destruct (decide (0 < length (bucket region st.1))) as [Hel|Hel].
    + apply Hiff in Hel as [Hdom Hne].
      rewrite bool_decide_eq_false_2 by (intros H; exact (H Hdom)).
      rewrite bool_decide_eq_false_2 by exact Hne.
      destruct (sorted_raises aware (omap tx_dt (bucket region st.1)))
        eqn:Hmix.
      * split.
        -- intros Hall. apply Forall_cons in Hall as [H _]. congruence.
        -- intros before R after E Hbefore HR.
           destruct before as [|b before]; simpl in E.
           ++ injection E as -> _. reflexivity.
           ++ injection E as -> _.
              apply Forall_cons in Hbefore as [H _]. congruence.
      * split.
        -- intros Hall. apply Forall_cons in Hall as [_ Hall].
           rewrite (IH1 Hall). reflexivity.
        -- intros before R after E Hbefore HR.
           destruct before as [|b before]; simpl in E.
           ++ injection E as -> _. congruence.
           ++ injection E as -> E.
              apply Forall_cons in Hbefore as [_ Hbefore].
              rewrite (IH2 before R after E Hbefore HR). reflexivity.
    + assert (bool_decide (region ∉ dom st.2) = true
              ∨ (bool_decide (region ∉ dom st.2) = false
                 ∧ bool_decide
                     (RegionSummary.status_counts (summary_of st.2 region)
                      = ∅) = true)) as Hskip.
      { destruct (decide (region ∈ dom st.2)) as [Hd|Hd].
        - right. split; [apply bool_decide_eq_false_2; tauto|].
          apply bool_decide_eq_true_2.
          destruct (decide (RegionSummary.status_counts
                              (summary_of st.2 region) = ∅)) as [E|E];
            [exact E | exfalso; apply Hel, Hiff; split; assumption].
        - left. apply bool_decide_eq_true_2. exact Hd. }
      destruct Hskip as [-> | [-> ->]]; split; assumption.
Qed.

(** X17. [print_summary] prints the header of a bucket exactly when the
    file has a transaction in it, the regions in the order of [REGIONS] and
    the Aggregate bucket last, and returns, provided no such bucket holds
    both offset-aware and offset-naive timestamps.  At the first bucket that
    does, it stops with [TypeError] after that bucket's header: the blocks
    of the later buckets are not printed. *)
Theorem print_summary_blocks_have_transactions {datetime : Type}
  (fromisoformat : str → option datetime) (aware : datetime → bool)
  (provider_iter region_iter : list str)
  (header : list str) (rows : list (list str)) :
  ∃ st,
    parse_csv fromisoformat provider_iter region_iter (header :: rows)
      = Some st
    ∧ let eligible :=
        filter (fun R => 0 < length (bucket R st.1))
          (REGIONS ++ [AGGREGATE]) in
      let mixed :=
        fun R => sorted_raises aware (omap tx_dt (bucket R st.1)) in
      (Forall (fun R => mixed R = false) eligible →
       print_summary_headers aware st.2 = (eligible, Returned))
      ∧ (∀ before R after,
           eligible = before ++ R :: after →
           Forall (fun R' => mixed R' = false) before →
           mixed R = true →
           print_summary_headers aware st.2
           = (before ++ [R], Raised_TypeError)).
Proof.
  eexists. split; [reflexivity|].
  pose proof (fold_rows_printable fromisoformat provider_iter region_iter
                (default_dt_of header) rows initial initial_printable) as Hp.
  exact (print_summary_loop_printable aware _ (REGIONS ++ [AGGREGATE]) Hp).
Qed.

Lemma print_summary_blocks_have_transactions_witness :
  let header :=
    [py "provider"; py "region"; py "customer"; py "status"; py "channel";
     py "message"; py "date"] in
  let rows :=
    [[py "cellulant"; py "Nigeria"; py "a@x.com"; py "successful"; py "card";
      py "Payment received"; py "2024-01-01T10:00:00Z"];
     [py "hubtel"; py "Ghana"; py "b@y.com"; py "failed"; py "card";
      py "Declined"; py "2024-01-02T10:00:00"]] in
  ∃ st,
    parse_csv Iso.fromisoformat (elements PROVIDERS) REGIONS (header :: rows)
      = Some st
    ∧ print_summary_headers aware_iso st.2
      = ([py "Nigeria"; py "Ghana"; py "Aggregate"], Raised_TypeError).
Proof.
  intros header rows.
  destruct (print_summary_blocks_have_transactions Iso.fromisoformat
              aware_iso (elements PROVIDERS) REGIONS header rows)
    as (st & Hst & H).
  exists st. split; [exact Hst|].
  cbv zeta in H. destruct H as [_ H].
  unfold parse_csv in Hst.
  remember (fold_left _ rows initial) as st0 eqn:E0 in Hst.
  assert (st = st0) as -> by congruence. subst st0. clear Hst.
  apply (H [py "Nigeria"; py "Ghana"] (py "Aggregate") []).
  - vm_compute. reflexivity.
  - repeat constructor; vm_compute; reflexivity.
  - vm_compute. reflexivity.
Defined.

(** ** The provider breakdown *)

Lemma dom_providers_bump {datetime : Type}
  (provider status channel norm_message : str)
  (r : RegionSummary.t datetime) :
  dom (RegionSummary.providers
         (RegionSummary.bump_provider provider status channel norm_message r))
  = {[provider]} ∪ dom (RegionSummary.providers r).
Proof. apply dom_insert_L. Qed.

Lemma dom_providers_record {datetime : Type}
  (provider region status channel norm_message : str)
  (dt : option datetime) (summaries : gmap str (RegionSummary.t datetime))
  (R P : str) :
  P ∈ dom (RegionSummary.providers
             (summary_of (record provider region status channel norm_message
                            dt summaries) R))
  ↔ ((AGGREGATE = R ∨ region = R) ∧ P = provider)
    ∨ P ∈ dom (RegionSummary.providers (summary_of summaries R)).
Proof.
  rewrite summary_of_record.
  destruct (decide (AGGREGATE = R)); destruct (decide (region = R));
    destruct dt; cbn [from_option id];
    rewrite ?dom_providers_bump, ?elem_of_union, ?elem_of_singleton;
    cbn [RegionSummary.providers RegionSummary.bump
         RegionSummary.append_time];
    intuition auto.
Qed.

Lemma initial_providers_listed {datetime : Type} :
  providers_listed (datetime := datetime) initial.
Proof.
  intros R P. rewrite summary_of_initial. cbn [RegionSummary.providers
    RegionSummary.empty fst initial]. rewrite dom_empty_L.
  unfold bucket. rewrite filter_nil, Exists_nil, elem_of_empty. tauto.
Qed.

Section Providers.

Context {datetime : Type}.
Variable fromisoformat : str → option datetime.
Variables provider_iter region_iter : list str.

Lemma ingest_providers_listed (st : state datetime) (c : candidate) :
  well_formed c →
  providers_listed st → providers_listed (ingest fromisoformat st c).
Proof.
  intros Hwf Hl. rewrite (ingest_well_formed _ _ _ Hwf).
  destruct (resolve_timestamp fromisoformat (cand_payment_date c)) as [dt|];
    [|exact Hl].
  destruct st as [txs summaries]. cbn [fst snd] in *.
  intros R P. specialize (Hl R P). cbn [fst snd] in *.
  rewrite dom_providers_record, Hl, bucket_snoc, Exists_app.
  cbn [tx_region].
  destruct (decide (R = AGGREGATE ∨ cand_region c = R)) as [H|H].
  - rewrite Exists_cons, Exists_nil. cbn [tx_provider].
    intuition (auto; congruence).
  - rewrite Exists_nil. intuition (auto; congruence).
Qed.

Lemma ingest_all_providers_listed (st : state datetime)
  (cs : list candidate) :
  Forall well_formed cs →
  providers_listed st → providers_listed (ingest_all fromisoformat st cs).
Proof.
  intros H. revert st. induction H as [|c cs Hc _ IH]; intros st Hp.
  - exact Hp.
  - unfold ingest_all in *. cbn [fold_left]. apply IH.
    apply ingest_providers_listed; assumption.
Qed.

Lemma fold_rows_providers_listed (default_dt : str)
  (rows : list (list str)) (st : state datetime) :
  providers_listed st →
  providers_listed
    (fold_left (ingest_row fromisoformat provider_iter region_iter default_dt)
       rows st).
Proof.
  revert st. induction rows as [|row rows IH]; intros st Hp; simpl.
  - exact Hp.
  - apply IH. rewrite ingest_row_all.
    apply ingest_all_providers_listed; [|exact Hp].
    apply extract_transactions_well_formed.
Qed.

End Providers.

Lemma provider_total_printable {datetime : Type} (st : state datetime)
  (R P : str) :
  printable st →
  counter_total (ProviderSummary.status_counts (provider_of st.2 R P))
  = length (filter (fun tx => tx_provider tx = P) (bucket R st.1)).
Proof.
  intros Hp.
  pose proof (bucket_vocabulary st R Hp) as [Hvoc _].
  destruct Hp as (Hag & _ & _ & _).
  specialize (Hag R). cbv zeta in Hag.
  destruct Hag as (_ & _ & _ & Hps & _).
  set (txs := bucket R st.1) in *.
  set (c := ProviderSummary.status_counts (provider_of st.2 R P)).
  assert (∀ k, counter_get c k
               = length (filter (fun tx => tx_status tx = k)
                           (filter (fun tx => tx_provider tx = P) txs)))
    as Hget.
  { intros k. rewrite list_filter_filter.
    rewrite (list_filter_iff _ (fun tx => tx_provider tx = P
                                          ∧ tx_status tx = k))
      by (intros tx; tauto).
    rewrite <- Hps. reflexivity. }
  assert (NoDup STATUS_LINES) as HL
    by (apply (bool_decide_unpack _); vm_compute; exact I).
  assert (Forall (fun tx => tx_status tx ∈ STATUS_LINES)
            (filter (fun tx => tx_provider tx = P) txs)) as Hvoc'.
  { rewrite Forall_forall in Hvoc. apply Forall_forall. intros tx Htx.
    apply list_elem_of_filter in Htx as [_ Htx]. apply Hvoc, Htx. }
  rewrite (counter_total_sum STATUS_LINES c HL).
  - rewrite (map_ext _ _ Hget). apply sum_filter_keys; assumption.
  - intros k Hk. rewrite Hget.
    destruct (length (filter (fun tx => tx_status tx = k) _)) eqn:E;
      [reflexivity|exfalso].
    assert (Exists (fun tx => tx_status tx = k)
              (filter (fun tx => tx_provider tx = P) txs)) as Hex
      by (apply (proj1 (length_filter_pos _ _)); lia).
    apply Exists_exists in Hex. destruct Hex as (tx & Htx & <-).
    rewrite Forall_forall in Hvoc'. apply Hk, Hvoc', Htx.
Qed.

(** X18. In the provider breakdown of a bucket, a provider is listed exactly
    when the bucket has a transaction of that provider, and its total, the
    sum of its status counts, is the number of these transactions; so the
    total of a listed provider is never zero. *)
Theorem provider_breakdown_counts_transactions {datetime : Type}
  (fromisoformat : str → option datetime)
  (provider_iter region_iter : list str)
  (header : list str) (rows : list (list str)) :
  ∃ st,
    parse_csv fromisoformat provider_iter region_iter (header :: rows)
      = Some st
    ∧ ∀ R P,
        let txs := filter (fun tx => tx_provider tx = P) (bucket R st.1) in
        let total :=
          counter_total
            (ProviderSummary.status_counts (provider_of st.2 R P)) in
        total = length txs
        ∧ (P ∈ dom (RegionSummary.providers (summary_of st.2 R))
           ↔ 0 < total).
Proof.
  eexists. split; [reflexivity|]. intros R P txs total.
  pose proof (fold_rows_printable fromisoformat provider_iter region_iter
                (default_dt_of header) rows initial initial_printable) as Hp.
  pose proof (fold_rows_providers_listed fromisoformat provider_iter
                region_iter (default_dt_of header) rows initial
                initial_providers_listed) as Hl.
  assert (total = length txs) as E
    by (apply provider_total_printable; exact Hp).
  split; [exact E|]. rewrite E, (Hl R P). subst txs.
  symmetry. apply length_filter_pos.
Qed.

(** ** What the iteration orders and the default date can change *)

Lemma resume_of_attempt_of (provider_iter region_iter : list str)
  (default_dt : str) (s : nat * option scanned) :
  resume_of (attempt_of provider_iter region_iter default_dt s)
  = match s with
    | (_, Some sc) => sc_idx sc
    | (provider_idx, None) => provider_idx + 1
    end.
Proof. destruct s as [k [sc|]]; reflexivity. Qed.

Lemma extract_loop_scans (row : list str) (fuel i : nat) :
  ∃ r : option (list (nat * option scanned)),
    ∀ provider_iter region_iter default_dt,
      extract_loop provider_iter region_iter fuel row default_dt i
      = map (attempt_of provider_iter region_iter default_dt) <$> r.
Proof.
  revert i. induction fuel as [|fuel IH]; intros i.
  - destruct (length row <=? i) eqn:Hn.
    + exists (Some []). intros. simpl. rewrite Hn. reflexivity.
    + exists None. intros. simpl. rewrite Hn. reflexivity.
  - destruct (length row <=? i) eqn:Hn.
    { exists (Some []). intros. simpl. rewrite Hn. reflexivity. }
    destruct (scan_step row i) as [s|] eqn:Hs.
    + destruct (IH (match s with
                    | (_, Some sc) => sc_idx sc
                    | (provider_idx, None) => provider_idx + 1
                    end)) as [r Hr].
      exists (cons s <$> r). intros.
      rewrite (extract_loop_turn _ _ _ _ _ _ s Hn Hs).
      rewrite resume_of_attempt_of, Hr. destruct r; reflexivity.
    + exists (Some []). intros. simpl. rewrite Hn.
      rewrite extract_step_scan, Hs. reflexivity.
Qed.

Lemma yielded_attempt_of (provider_iter region_iter : list str)
  (default_dt : str) (l : list (nat * option scanned)) :
  omap yielded (map (attempt_of provider_iter region_iter default_dt) l)
  = map (candidate_of provider_iter region_iter default_dt) (omap snd l).
Proof.
  induction l as [|[k [sc|]] l IH]; [reflexivity| |];
    cbn [map omap list_omap attempt_of yielded snd].
  - fold (omap yielded
            (map (attempt_of provider_iter region_iter default_dt) l)).
    fold (omap (@snd nat (option scanned)) l).
    rewrite IH. reflexivity.
  - exact IH.
Qed.

(** X19. Where a row is cut into records does not depend on the order in
    which the two vocabularies are iterated nor on the default date: the
    row determines a list of scanned records, and for every pair of orders
    and every default date the candidates are these records, in order, with
    the message assembled in these orders and the default date put where a
    record has no timestamp. *)
Theorem cut_independent_of_orders (row : list str) :
  ∃ scans : list scanned,
    ∀ provider_iter region_iter default_dt,
      extract_transactions provider_iter region_iter row default_dt
      = map (candidate_of provider_iter region_iter default_dt) scans.
Proof.
  destruct (extract_loop_scans row (length row) 0) as [r Hr].
  exists (omap snd (default [] r)). intros.
  unfold extract_transactions, extract_trace. rewrite Hr.
  destruct r as [l|]; [apply yielded_attempt_of | reflexivity].
Qed.

(** ** A timestamp is no number *)

Lemma digit_not_comma (c : ascii) :
  Char.is_digit c = true → Char.eqb Char.comma c = false.
Proof. each_char c. Qed.

Lemma digit_not_underscore (c : ascii) :
  Char.is_digit c = true → Char.eqb c Char.underscore = false.
Proof. each_char c. Qed.

Lemma rstrip_by_keeps (p : ascii → bool) (c : ascii) (s : str) :
  forallb p s = false → Str.rstrip_by p (c :: s) = c :: Str.rstrip_by p s.
Proof. intros H. rewrite rstrip_by_cons, H. reflexivity. Qed.

Lemma rstrip_by_hyphen (s : str) :
  ∃ tail, Str.rstrip_by Float.is_space ("-"%char :: s) = "-"%char :: tail.
Proof.
  rewrite rstrip_by_cons. destruct (forallb Float.is_space s); eauto.
Qed.

Lemma eat_digitpart_digit (c : ascii) (s : str) :
  Char.is_digit c = true →
  match s with
  | u :: _ => Char.eqb u Char.underscore = false
  | [] => False
  end →
  Float.eat_digitpart (c :: s)
  = match Float.eat_digitpart s with Some r => Some r | None => Some s end.
Proof.
  intros Hc Hu. cbn [Float.eat_digitpart]. rewrite Hc.
  destruct s as [|u s']; [contradiction|]. rewrite Hu. reflexivity.
Qed.

Lemma iso_match_not_accepted (s : str) :
  Re.iso_match s = true →
  Float.accepts (List.filter (fun x => negb (Char.eqb Char.comma x)) s)
  = false.
Proof.
  destruct s as [|y1 [|y2 [|y3 [|y4 [|h1 rest]]]]]; try discriminate.
  intros H.
  assert (Char.is_digit y1 = true ∧ Char.is_digit y2 = true
          ∧ Char.is_digit y3 = true ∧ Char.is_digit y4 = true
          ∧ h1 = "-"%char) as (H1 & H2 & H3 & H4 & ->).
  { unfold Re.iso_match in H.
    destruct rest as [|m1 [|m2 [|h2 [|d1 [|d2 [|t rest']]]]]];
      try discriminate.
    do 10 (apply andb_true_iff in H as [H ?]).
    split; [assumption|]. split; [assumption|]. split; [assumption|].
    split; [assumption|]. apply char_eqb_eq. assumption. }
  clear H.
  cbn [List.filter]. rewrite !digit_not_comma by assumption.
  change (Char.eqb Char.comma "-") with false. cbn [negb].
  set (rest' := List.filter _ rest).
  unfold Float.accepts.
  assert (∃ tail,
            Str.strip_by Float.is_space (y1 :: y2 :: y3 :: y4 :: "-"%char :: rest')
            = y1 :: y2 :: y3 :: y4 :: "-"%char :: tail) as (tail & ->).
  { unfold Str.strip_by, Str.lstrip_by.
    rewrite drop_while_head by (apply digit_not_float_space; assumption).
    destruct (rstrip_by_hyphen rest') as (tail & Ht). exists tail.
    rewrite (rstrip_by_keeps _ y1), (rstrip_by_keeps _ y2),
      (rstrip_by_keeps _ y3), (rstrip_by_keeps _ y4), Ht; [reflexivity | ..];
      cbn [forallb];
      first [ rewrite (digit_not_float_space _ H2)
            | rewrite (digit_not_float_space _ H3)
            | rewrite (digit_not_float_space _ H4)
            | change (Float.is_space "-") with false ];
      reflexivity. }
  unfold Float.drop_sign. rewrite (digit_not_sign y1 H1).
  destruct (digit_lower_not_letter y1 H1) as [Hi Hn].
  assert (Str.mem (Str.lower (y1 :: y2 :: y3 :: y4 :: "-"%char :: tail))
            [py "inf"; py "infinity"; py "nan"] = false) as ->.
  { unfold Str.mem. cbn [existsb py list_ascii_of_string Str.lower map Str.eqb].
    rewrite Hi, Hn. reflexivity. }
  rewrite (eat_digitpart_digit y1) by
    (try assumption; apply digit_not_underscore; assumption).
  rewrite (eat_digitpart_digit y2) by
    (try assumption; apply digit_not_underscore; assumption).
  rewrite (eat_digitpart_digit y3) by
    (try assumption; apply digit_not_underscore; assumption).
  rewrite (eat_digitpart_digit y4) by (try assumption; reflexivity).
  reflexivity.
Qed.

Lemma iso_match_not_number (token : str) :
  Re.iso_match token = true → _is_number token = false.
Proof.
  intros H. unfold _is_number. rewrite (iso_match_nonempty _ H). cbn [negb].
  change (py ",") with [Char.comma]. rewrite replace_char_filter.
  apply iso_match_not_accepted. exact H.
Qed.

(** X20. A cell that starts like an ISO timestamp is never a number for the
    message loop: the look-ahead for an amount does not end a message in
    front of a timestamp, whatever follows the date in the cell. *)
Theorem timestamp_is_no_number (token rest : str) :
  Re.iso_match token = true →
  Re.iso_match (token ++ rest) = true ∧ _is_number (token ++ rest) = false.
Proof.
  intros H.
  assert (Re.iso_match (token ++ rest) = true) as H'.
  { destruct token as [|y1 [|y2 [|y3 [|y4 [|h1 [|m1 [|m2 [|h2 [|d1 [|d2
      [|t token']]]]]]]]]]]; try discriminate. exact H. }
  split; [exact H' | apply iso_match_not_number; exact H'].
Qed.

Lemma timestamp_is_no_number_witness :
  Re.iso_match (py "2024-01-01T") = true
  ∧ _is_number (py "2024-01-01T" ++ py "10:00:00,5") = false.
Proof.
  split; [reflexivity|].
  apply (timestamp_is_no_number (py "2024-01-01T") (py "10:00:00,5")).
  reflexivity.
Defined.

(** ** A clean row *)

Lemma pick_customer_single (token : str) :
  pick_customer [token] = Str.strip_char Char.dquote (Str.strip token).
Proof.
  unfold pick_customer. cbn [List.find].
  destruct (Str.contains Char.at_sign token) eqn:E.
  - rewrite (contains_nonempty _ _ E). reflexivity.
  - reflexivity.
Qed.

Lemma scan_step_clean_row (p r cu s ch m d : str) :
  Str.lower (Str.strip p) ∈ PROVIDERS →
  Str.strip r ∈ REGION_SET →
  Str.lower (Str.strip cu) ∉ STATUSES →
  Str.lower (Str.strip s) ∈ STATUSES →
  Str.lower (Str.strip ch) ∈ CHANNELS →
  free_text m →
  Re.iso_match (Str.strip d) = true →
  scan_step [p; r; cu; s; ch; m; d] 0
  = Some (0, Some (Scanned (Str.lower (Str.strip p)) (Str.strip r)
                     (Str.lower (Str.strip s)) (Str.lower (Str.strip ch))
                     (Str.strip_char Char.dquote (Str.strip cu))
                     [m] (Str.strip d) 7)).
Proof.
  intros Hp Hr Hcu Hs Hch (M1 & M2 & M3 & M4 & M5 & M6 & M7) Hd.
  apply in_set_true in Hp, Hr, Hs, Hch.
  apply in_set_false in Hcu, M2, M3, M5, M6.
  unfold scan_step, _find_next_provider_index.
  cbn [length Nat.sub find_provider_loop is_boundary lookup list_lookup
       Nat.add].
  rewrite Hp, Hr. cbn [andb Nat.add Nat.sub].
  cbn [scan_customer lookup list_lookup Nat.add]. rewrite Hcu.
  cbn [scan_customer lookup list_lookup Nat.add]. rewrite Hs.
  cbn [Nat.leb lookup_total list_lookup_total Nat.add Nat.sub app].
  cbn [scan_channel lookup list_lookup]. rewrite Hch.
  cbn [Nat.leb lookup_total list_lookup_total Nat.add Nat.sub].
  rewrite bool_decide_eq_true_2 by lia. rewrite M7. cbn [andb].
  cbn [scan_message lookup list_lookup Nat.add Nat.sub]. rewrite M1.
  unfold _find_next_provider_index.
  cbn [length Nat.sub find_provider_loop is_boundary lookup list_lookup
       Nat.add].
  rewrite M2. cbn [andb].
  rewrite bool_decide_eq_false_2 by discriminate.
  rewrite M3, M4, M5, M6. cbn [orb].
  rewrite (iso_match_not_number _ Hd), andb_false_r.
  cbn [scan_message lookup list_lookup Nat.add app]. rewrite Hd.
  repeat f_equal.
  destruct (Str.nonempty (Str.strip cu)) eqn:E.
  - rewrite pick_customer_single, strip_idem. reflexivity.
  - destruct (Str.strip cu); [reflexivity | discriminate].
Qed.

(** X21. A row with one record in the column order of the export, provider,
    region, customer, status, channel, a cell of free text and a timestamp,
    yields exactly that record: the vocabulary cells trimmed and lower-cased
    (the region trimmed only), the customer trimmed of space and quotes, the
    message assembled from the text cell and the timestamp trimmed. *)
Theorem clean_row_recovered (provider_iter region_iter : list str)
  (default_dt : str) (p r cu s ch m d : str) :
  Str.lower (Str.strip p) ∈ PROVIDERS →
  Str.strip r ∈ REGION_SET →
  Str.lower (Str.strip cu) ∉ STATUSES →
  Str.lower (Str.strip s) ∈ STATUSES →
  Str.lower (Str.strip ch) ∈ CHANNELS →
  free_text m →
  Re.iso_match (Str.strip d) = true →
  extract_transactions provider_iter region_iter [p; r; cu; s; ch; m; d]
    default_dt
  = [Candidate (Str.lower (Str.strip p)) (Str.strip r)
       (Str.lower (Str.strip s)) (Str.lower (Str.strip ch))
       (assemble_message provider_iter region_iter [m]) (Str.strip d)
       (Str.strip_char Char.dquote (Str.strip cu))].
Proof.
  intros Hp Hr Hcu Hs Hch Hm Hd.
  pose proof (scan_step_clean_row p r cu s ch m d Hp Hr Hcu Hs Hch Hm Hd)
    as Hscan.
  unfold extract_transactions, extract_trace.
  change (length [p; r; cu; s; ch; m; d]) with 7.
  rewrite (extract_loop_turn provider_iter region_iter 6
             [p; r; cu; s; ch; m; d] default_dt 0 _ eq_refl Hscan).
  cbn [attempt_of resume_of sc_idx].
  rewrite extract_loop_end by reflexivity.
  cbn [fmap option_fmap option_map default omap list_omap yielded
       sc_provider sc_region sc_status sc_channel sc_customer
       sc_message_parts sc_payment_date].
  rewrite (iso_match_nonempty _ Hd). reflexivity.
Qed.

Lemma clean_row_recovered_witness :
  let row :=
    [py "Hubtel"; py " Ghana"; quoted (py "kofi@x.com"); py "Failed";
     py "mobile_money"; py "Insufficient funds"; py "2024-02-03T08:00:00 "] in
  extract_transactions (elements PROVIDERS) REGIONS row (py "<missing-date>")
  = [Candidate (py "hubtel") (py "Ghana") (py "failed") (py "mobile_money")
       (py "Insufficient funds") (py "2024-02-03T08:00:00")
       (py "kofi@x.com")].
Proof.
  intros row.
  rewrite (clean_row_recovered (elements PROVIDERS) REGIONS
             (py "<missing-date>") (py "Hubtel") (py " Ghana")
             (quoted (py "kofi@x.com")) (py "Failed") (py "mobile_money")
             (py "Insufficient funds") (py "2024-02-03T08:00:00 ")).
  - vm_compute. reflexivity.
  - apply (bool_decide_unpack _). vm_compute. exact I.
  - apply (bool_decide_unpack _). vm_compute. exact I.
  - apply (bool_decide_unpack _). vm_compute. exact I.
  - apply (bool_decide_unpack _). vm_compute. exact I.
  - apply (bool_decide_unpack _). vm_compute. exact I.
  - unfold free_text. cbv zeta.
    split; [vm_compute; reflexivity|].
    split; [apply (bool_decide_unpack _); vm_compute; exact I|].
    split; [apply (bool_decide_unpack _); vm_compute; exact I|].
    split; [vm_compute; reflexivity|].
    split; [apply (bool_decide_unpack _); vm_compute; exact I|].
    split; [apply (bool_decide_unpack _); vm_compute; exact I|].
    vm_compute. reflexivity.
  - vm_compute. reflexivity.
Defined.
